(** * Video translator: subtitle pipeline and job store

    A shallow embedding of the TypeScript sources

      - [src/subtitleTranslator.ts]  (clustering, candidate filter, translation step),
      - [src/subtitleComposer.ts]    (colour parsing, wrapping, timeline merge, events),
      - [src/jobManager.ts]          (the in-process job store),
      - [src/database.ts]            ([updateJob] of the storage providers),

    followed by the properties of the specification that concern them.

    Modelling conventions.
      - A JS string is the list of its UTF-16 code units ([list N]); [js "..."]
        writes an ASCII literal.
      - OCR pixel coordinates and frame numbers are integers ([Z]): the OCR
        collaborator builds boxes from integer vertices and frames are numbered
        [index + 1].  Quantities obtained by a division or by a fractional
        factor are rationals ([Q]) and are computed exactly, where the code
        computes on binary64 numbers: the two agree except when a comparison
        falls within the rounding of the last bit.  The integer distances of
        the preview are rounded as the code rounds them
        ([Js.roundToDouble]).
      - [Map], [Set] and plain objects used as dictionaries are finite maps and
        sets ([gmap], [gset]).  A plain object that is read under the text of
        a line also answers for the names it inherits from [Object.prototype]
        ([SubtitleTranslator.translationOrOriginal]).
      - [Date.now()] and the values read from [process.env] are explicit
        arguments. *)

From Stdlib Require Import ZArith QArith Qround Qminmax List Sorted Bool Lia Lqa Ascii String.
From stdpp Require Import gmap list.
Import ListNotations.
Open Scope Z_scope.

(** ** JavaScript primitives *)

Module Js.

Abbreviation jsstring := (list N).

(** An ASCII literal as a JS string. *)
Definition js (s : string) : jsstring :=
  map N_of_ascii (list_ascii_of_string s).

(** The class [\s] of JS regular expressions, which is also the set of code
    units removed by [String.prototype.trim]. *)
Definition isSpace (c : N) : bool :=
  ((0x09 <=? c) && (c <=? 0x0d) || (c =? 0x20) || (c =? 0xa0) || (c =? 0x1680)
   || (0x2000 <=? c) && (c <=? 0x200a) || (c =? 0x2028) || (c =? 0x2029)
   || (c =? 0x202f) || (c =? 0x205f) || (c =? 0x3000) || (c =? 0xfeff))%N.

Fixpoint dropWhile {A} (p : A -> bool) (l : list A) : list A :=
  match l with
  | [] => []
  | a :: r => if p a then dropWhile p r else l
  end.

(** [s.trim()] *)
Definition trim (s : jsstring) : jsstring :=
  rev (dropWhile isSpace (rev (dropWhile isSpace s))).

(** [s.split(/\s+/)]: [cur] is the (reversed) piece being read, [inSep] tells
    that the previous code unit belonged to a separator. *)
Fixpoint splitSpaces_go (cur : jsstring) (inSep : bool) (s : jsstring) : list jsstring :=
  match s with
  | [] => [rev cur]
  | c :: r =>
      if isSpace c
      then if inSep then splitSpaces_go cur true r
           else rev cur :: splitSpaces_go [] true r
      else splitSpaces_go (c :: cur) false r
  end.

Definition splitSpaces (s : jsstring) : list jsstring :=
  splitSpaces_go [] false s.

(** [s.split('')] *)
Definition splitChars (s : jsstring) : list jsstring :=
  map (fun c => [c]) s.

(** [parts.join(sep)] *)
Fixpoint join (sep : jsstring) (parts : list jsstring) : jsstring :=
  match parts with
  | [] => []
  | [p] => p
  | p :: r => p ++ sep ++ join sep r
  end.

(** [Boolean(s)] for a string: the empty string is the only falsy one. *)
Definition truthy (s : jsstring) : bool :=
  match s with [] => false | _ :: _ => true end.

(** [s.replace(/\s+/g, '')] *)
Definition stripSpaces (s : jsstring) : jsstring :=
  List.filter (fun c => negb (isSpace c)) s.

Definition eqb (a b : jsstring) : bool := bool_decide (a = b).

(** [Math.round]: the nearest integer, halves rounded up. *)
Definition round (q : Q) : Z := Qfloor (q + (1 # 2)).

(** The number that holds an integer result: the nearest binary64 value, a tie
    going to the even mantissa.  Every integer below [2 ^ 53] in magnitude is
    such a value; above, the 53 leading bits are kept and the rest is rounded.
    (No integer met here reaches [2 ^ 1024], where the number is infinite.) *)
Definition roundToDouble (z : Z) : Z :=
  let a := Z.abs z in
  if a <? 2 ^ 53 then z
  else
    let e := Z.log2 a - 52 in
    let m := Z.shiftr a e in
    let r := a - Z.shiftl m e in
    let half := 2 ^ (e - 1) in
    let m' := if r <? half then m
              else if half <? r then m + 1
              else if Z.even m then m else m + 1 in
    Z.sgn z * Z.shiftl m' e.

(** [Math.max(...l)] and [Math.min(...l)] on a non-empty list. *)
Definition maxOf (l : list Z) : Z :=
  match l with [] => 0 | a :: r => fold_left Z.max r a end.

Definition minOf (l : list Z) : Z :=
  match l with [] => 0 | a :: r => fold_left Z.min r a end.

(** [Array.prototype.sort(cmp)]: the stable sort by a comparator whose sign
    orders two elements. *)
Fixpoint insertBy {A} (cmp : A -> A -> Z) (a : A) (l : list A) : list A :=
  match l with
  | [] => [a]
  | b :: r => if cmp a b <=? 0 then a :: l else b :: insertBy cmp a r
  end.

Fixpoint sort {A} (cmp : A -> A -> Z) (l : list A) : list A :=
  match l with
  | [] => []
  | a :: r => insertBy cmp a (sort cmp r)
  end.

(** Decimal digits of a non-negative integer ([String(n)]). *)
Fixpoint digits (u : Decimal.uint) : jsstring :=
  match u with
  | Decimal.Nil => []
  | Decimal.D0 r => 48%N :: digits r
  | Decimal.D1 r => 49%N :: digits r
  | Decimal.D2 r => 50%N :: digits r
  | Decimal.D3 r => 51%N :: digits r
  | Decimal.D4 r => 52%N :: digits r
  | Decimal.D5 r => 53%N :: digits r
  | Decimal.D6 r => 54%N :: digits r
  | Decimal.D7 r => 55%N :: digits r
  | Decimal.D8 r => 56%N :: digits r
  | Decimal.D9 r => 57%N :: digits r
  end.

Definition toString (n : Z) : jsstring := digits (N.to_uint (Z.to_N n)).

(** [s.padStart(2, '0')] *)
Definition padStart2 (s : jsstring) : jsstring :=
  match s with
  | [] => [48%N; 48%N]
  | [d] => [48%N; d]
  | _ => s
  end.

End Js.

Import Js.

(** ** [src/subtitleTranslator.ts] *)

Module SubtitleTranslator.

(** *** [normalizeCJKSpacing] *)

(** The character class [[㐀-鿿豈-﫿]]. *)
Definition isIdeograph (c : N) : bool :=
  ((0x3400 <=? c) && (c <=? 0x9fff) || (0xf900 <=? c) && (c <=? 0xfaff))%N.

(** The lookahead [(?=[㐀-鿿豈-﫿])] at the head of [s]. *)
Definition lookaheadIdeograph (s : jsstring) : bool :=
  match s with
  | d :: _ => isIdeograph d
  | [] => false
  end.

(** Number of code units consumed by [\s+(?=[...])] at the head of [r], 0 when
    it does not match.  The quantifier is greedy: a longer run is tried first,
    and the matcher backs off one code unit at a time. *)
Fixpoint spacesMatchLen (r : jsstring) : nat :=
  match r with
  | c :: r' =>
      if isSpace c then
        match spacesMatchLen r' with
        | S k => S (S k)
        | O => if lookaheadIdeograph r' then 1%nat else 0%nat
        end
      else 0%nat
  | [] => 0%nat
  end.

(** [s.replace(/([...])\s+(?=[...])/g, "$1")]: the scan goes left to right;
    [skip] counts the code units of the current match that are still to be
    dropped.  A match keeps its first code unit (the group [$1]) and resumes
    after the run of spaces. *)
Fixpoint replaceSpacing (skip : nat) (s : jsstring) : jsstring :=
  match s with
  | [] => []
  | c :: r =>
      match skip with
      | S k => replaceSpacing k r
      | O => c :: replaceSpacing (if isIdeograph c then spacesMatchLen r else 0%nat) r
      end
  end.

Definition normalizeCJKSpacing (s : jsstring) : jsstring :=
  if negb (truthy s) then s
  else if negb (existsb isIdeograph s) then s
  else replaceSpacing 0 s.

(** *** Frames, boxes and lines *)

Record OCRBox := {
  box_x : Z;
  box_y : Z;
  box_width : Z;
  box_height : Z;
  box_text : jsstring;
  box_fontSize : option Z
}.

Record FrameDet := {
  det_framePath : jsstring;
  det_frameName : jsstring;
  det_frameNumber : Z;
  det_texts : list OCRBox
}.

(** An element of [GroupedFrame.texts]. *)
Record Line := {
  line_text : jsstring;
  line_x : Z;
  line_y : Z;
  line_width : Z;
  line_height : Z;
  line_fontSize : Z
}.

Record GroupedFrame := {
  framePath : jsstring;
  frameName : jsstring;
  frameNumber : Z;
  texts : list Line
}.

(** *** [groupTextsIntoLines] *)

(** A cluster being built: its members in arrival order and its vertical span. *)
Record Cluster := {
  items : list OCRBox;
  span_y : Z;
  span_height : Z
}.

Definition overlapsY (a : OCRBox) (b_y b_height : Z) : bool :=
  let top := Z.max (box_y a) b_y in
  let bottom := Z.max top (Z.min (box_y a + box_height a) (b_y + b_height)) in
  let inter := bottom - top in
  let minH := Z.max 1 (Z.min (box_height a) b_height) in
  Qle_bool (1 # 2) (inject_Z inter / inject_Z minH).

(** The inner loop: join the first cluster whose span overlaps, else open one. *)
Fixpoint place (t : OCRBox) (lines : list Cluster) : list Cluster :=
  match lines with
  | [] => [ {| items := [t]; span_y := box_y t; span_height := box_height t |} ]
  | line :: rest =>
      if overlapsY t (span_y line) (span_height line) then
        let y1 := Z.min (span_y line) (box_y t) in
        let y2 := Z.max (span_y line + span_height line) (box_y t + box_height t) in
        {| items := items line ++ [t]; span_y := y1; span_height := y2 - y1 |} :: rest
      else line :: place t rest
  end.

Definition byYX (a b : OCRBox) : Z :=
  if negb (box_y a - box_y b =? 0) then box_y a - box_y b else box_x a - box_x b.

Definition byX (a b : OCRBox) : Z := box_x a - box_x b.

Definition clusters (boxes : list OCRBox) : list Cluster :=
  fold_left (fun lines t => place t lines) (Js.sort byYX boxes) [].

(** [i.fontSize || Math.round(i.height * 0.8)] *)
Definition boxFontSize (i : OCRBox) : Z :=
  match box_fontSize i with
  | Some f => if f =? 0 then Js.round (inject_Z (box_height i) * (8 # 10)) else f
  | None => Js.round (inject_Z (box_height i) * (8 # 10))
  end.

Definition finalize (line : Cluster) : Line :=
  let sorted := Js.sort byX (items line) in
  let minX := minOf (map box_x sorted) in
  let minY := minOf (map box_y sorted) in
  let maxX := maxOf (map (fun i => box_x i + box_width i) sorted) in
  let maxY := maxOf (map (fun i => box_y i + box_height i) sorted) in
  {| line_text := join (js " ") (map box_text sorted);
     line_x := minX;
     line_y := minY;
     line_width := maxX - minX;
     line_height := maxY - minY;
     line_fontSize := maxOf (map boxFontSize sorted) |}.

Definition groupTextsIntoLines (frame : FrameDet) : GroupedFrame :=
  {| framePath := det_framePath frame;
     frameName := det_frameName frame;
     frameNumber := det_frameNumber frame;
     texts := map finalize (clusters (det_texts frame)) |}.

(** *** [filterSubtitleLike] *)

Inductive Region := Bottom | Top | Middle | AnyRegion.

(** The environment of the filter; [None] is an unset variable.  A numeric
    variable is given by the value of [Number(...)], the region by the outcome
    of the comparisons of its lower-cased string ([AnyRegion] stands for every
    string other than the three named ones), and the persistence switch by
    [false] when the variable is ['0'] and [true] for any other value. *)
Record FilterEnv := {
  SUBTITLE_REGION : option Region;
  SUBTITLE_REGION_FRACTION : option Q;
  SUBTITLE_MIN_CHARS : option Q;
  SUBTITLE_MIN_WORDS : option Q;
  SUBTITLE_MIN_ASPECT : option Q;
  SUBTITLE_MAX_LINES_PER_FRAME : option Q;
  SUBTITLE_REQUIRE_PERSISTENCE : option bool
}.

(** No variable set: the defaults of the source. *)
Definition defaultEnv : FilterEnv :=
  {| SUBTITLE_REGION := None;
     SUBTITLE_REGION_FRACTION := None;
     SUBTITLE_MIN_CHARS := None;
     SUBTITLE_MIN_WORDS := None;
     SUBTITLE_MIN_ASPECT := None;
     SUBTITLE_MAX_LINES_PER_FRAME := None;
     SUBTITLE_REQUIRE_PERSISTENCE := None |}.

Definition region (env : FilterEnv) : Region := default Bottom (SUBTITLE_REGION env).
Definition regionFrac (env : FilterEnv) : Q :=
  Qmin 1 (Qmax (5 # 100) (default (1 # 2) (SUBTITLE_REGION_FRACTION env))).
Definition minChars (env : FilterEnv) : Q := Qmax 1 (default 6%Q (SUBTITLE_MIN_CHARS env)).
Definition minWords (env : FilterEnv) : Q := Qmax 1 (default 2%Q (SUBTITLE_MIN_WORDS env)).
Definition minAspect (env : FilterEnv) : Q := Qmax 1 (default 3%Q (SUBTITLE_MIN_ASPECT env)).
Definition maxLinesPerFrame (env : FilterEnv) : Q :=
  Qmax 1 (default 2%Q (SUBTITLE_MAX_LINES_PER_FRAME env)).
Definition requirePersistence (env : FilterEnv) : bool :=
  default true (SUBTITLE_REQUIRE_PERSISTENCE env).

Definition estFrameHeight (frame : GroupedFrame) : Z :=
  Z.max 1 (fold_left Z.max (map (fun t => line_y t + line_height t) (texts frame)) 0 + 10).

Definition regionBand (env : FilterEnv) (est : Z) : Q * Q :=
  let h := inject_Z est in
  match region env with
  | Bottom => (h * (1 - regionFrac env), h)%Q
  | Top => (0, h * regionFrac env)%Q
  | Middle =>
      let mid := (h / 2)%Q in
      let half := ((h * regionFrac env) / 2)%Q in
      (Qmax 0 (mid - half), Qmin h (mid + half))%Q
  | AnyRegion => (0, h)%Q
  end.

Definition wordCount (s : jsstring) : Z :=
  Z.of_nat (length (List.filter truthy (splitSpaces (trim s)))).

Definition charCount (s : jsstring) : Z :=
  Z.of_nat (length (stripSpaces s)).

Definition subtitleLike (env : FilterEnv) (est : Z) (t : Line) : bool :=
  let aspect :=
    (inject_Z (if line_width t =? 0 then 1 else line_width t)
     / inject_Z (Z.max 1 (line_height t)))%Q in
  let lineMidY := (inject_Z (line_y t) + inject_Z (line_height t) / 2)%Q in
  let inRegion :=
    Qle_bool (fst (regionBand env est)) lineMidY
    && Qle_bool lineMidY (snd (regionBand env est)) in
  let passesText :=
    Qle_bool (minChars env) (inject_Z (charCount (line_text t)))
    && Qle_bool (minWords env) (inject_Z (wordCount (line_text t))) in
  let passesAspect := Qle_bool (minAspect env) aspect in
  inRegion && passesText && passesAspect.

Definition byWidthDesc (a b : Line) : Z := line_width b - line_width a.

Definition setTexts (f : GroupedFrame) (ts : list Line) : GroupedFrame :=
  {| framePath := framePath f; frameName := frameName f;
     frameNumber := frameNumber f; texts := ts |}.

(** The per-frame pass. *)
Definition prelimFrame (env : FilterEnv) (frame : GroupedFrame) : GroupedFrame :=
  let est := estFrameHeight frame in
  setTexts frame
    (firstn (Z.to_nat (Qfloor (maxLinesPerFrame env)))
       (Js.sort byWidthDesc (List.filter (subtitleLike env est) (texts frame)))).

(** The index [occurrences : Map<string, number[]>]. *)
Definition recordLine (fnum : Z) (occ : gmap jsstring (list Z)) (t : Line)
  : gmap jsstring (list Z) :=
  if negb (truthy (line_text t)) then occ
  else <[line_text t := default [] (occ !! line_text t) ++ [fnum]]> occ.

Definition occurrences (prelim : list GroupedFrame) : gmap jsstring (list Z) :=
  fold_left (fun occ f => fold_left (recordLine (frameNumber f)) (texts f) occ) prelim ∅.

(** The loop [for (i = 1; i < sorted.length; i++) if (sorted[i] === sorted[i-1] + 1)]. *)
Fixpoint hasConsecutive (sorted : list Z) : bool :=
  match sorted with
  | a :: (b :: _) as r => (b =? a + 1) || hasConsecutive r
  | _ => false
  end.

Definition numerically (a b : Z) : Z := a - b.

Definition keepTexts (prelim : list GroupedFrame) : gset jsstring :=
  dom (filter (fun kv => hasConsecutive (Js.sort numerically kv.2) = true) (occurrences prelim)).

(** The temporal pass (the part of [filterSubtitleLike] after the early return). *)
Definition persistencePass (prelim : list GroupedFrame) : list GroupedFrame :=
  map (fun f => setTexts f (List.filter (fun t => bool_decide (line_text t ∈ keepTexts prelim)) (texts f)))
    prelim.

Definition filterSubtitleLike (env : FilterEnv) (frames : list GroupedFrame)
  : list GroupedFrame :=
  let prelim := map (prelimFrame env) frames in
  if negb (requirePersistence env) then prelim else persistencePass prelim.

(** *** The translation step of [translateVideoAss] *)

(** An element of [TranslatedFrame.texts]: the line with its [translatedText]. *)
Record TranslatedText := {
  tt_line : Line;
  translatedText : jsstring
}.

Record TranslatedFrame := {
  tf_frameNumber : Z;
  tf_texts : list TranslatedText
}.

(** [translationMap] is a plain object (the parsed answer of the translation
    service, or [{}]); the map gives its own properties, whose values are
    strings.  Reading a name that is not an own property finds what every
    plain object inherits from [Object.prototype]: under the names below a
    function, and under [__proto__] the prototype itself. *)
Definition objectPrototypeNames : list jsstring :=
  [ js "constructor"; js "__defineGetter__"; js "__defineSetter__";
    js "hasOwnProperty"; js "__lookupGetter__"; js "__lookupSetter__";
    js "isPrototypeOf"; js "propertyIsEnumerable"; js "toString"; js "valueOf";
    js "__proto__"; js "toLocaleString" ].

(** What is read for a line: a string, or an inherited value, which is truthy
    and not a string. *)
Inductive Value :=
| Str (s : jsstring)
| Inherited.

(** [translationMap[text] || text] *)
Definition translationOrOriginal (translationMap : gmap jsstring jsstring) (text : jsstring)
  : Value :=
  match translationMap !! text with
  | Some t => Str (if truthy t then t else text)
  | None => if bool_decide (text ∈ objectPrototypeNames) then Inherited else Str text
  end.

(** [normalizeCJKSpacing] on what was read.  An inherited value is truthy and
    its string form, which the pattern is tested on, holds no ideograph: it is
    returned as it is. *)
Definition normalizeValue (v : Value) : Value :=
  match v with
  | Str s => Str (normalizeCJKSpacing s)
  | Inherited => Inherited
  end.

(** [flag] is [process.env.NORMALIZE_CJK_SPACING]. *)
Definition translateText (flag : option jsstring) (translationMap : gmap jsstring jsstring)
  (text : jsstring) : Value :=
  if bool_decide (flag = Some (js "0"))
  then translationOrOriginal translationMap text
  else normalizeValue (translationOrOriginal translationMap text).

(** The objects built by step 5, before the cast to [TranslatedFrame[]]. *)
Record MappedText := {
  mt_line : Line;
  mt_translatedText : Value
}.

Record MappedFrame := {
  mf_frameNumber : Z;
  mf_texts : list MappedText
}.

Definition applyTranslations (flag : option jsstring)
  (translationMap : gmap jsstring jsstring) (frames : list GroupedFrame)
  : list MappedFrame :=
  map (fun frame =>
         {| mf_frameNumber := frameNumber frame;
            mf_texts := map (fun textObj =>
                               {| mt_line := textObj;
                                  mt_translatedText :=
                                    translateText flag translationMap (line_text textObj) |})
                          (texts frame) |})
    frames.

(** The cast [as unknown as TranslatedFrame[]] checks nothing.  The frames are
    of that type when every [translatedText] is a string; [None] stands for the
    frames that hold an inherited value, on which the first thing that
    [overlaySubtitlesBottomCenter] does, calling [trim] on each
    [translatedText], throws a [TypeError]. *)
Definition asTranslatedText (t : MappedText) : option TranslatedText :=
  match mt_translatedText t with
  | Str s => Some {| tt_line := mt_line t; translatedText := s |}
  | Inherited => None
  end.

Definition asTranslatedFrame (f : MappedFrame) : option TranslatedFrame :=
  match mapM asTranslatedText (mf_texts f) with
  | Some ts => Some {| tf_frameNumber := mf_frameNumber f; tf_texts := ts |}
  | None => None
  end.

Definition asTranslatedFrames (frames : list MappedFrame) : option (list TranslatedFrame) :=
  mapM asTranslatedFrame frames.

(** *** The start frame of [previewVideoAss] *)

(** [Math.abs(frames[i].frameNumber - 1 - at)]: the two subtractions are made
    on numbers, each result being rounded to the nearest binary64 value. *)
Definition frameDistance (at_ n : Z) : Z :=
  Z.abs (Js.roundToDouble (Js.roundToDouble (n - 1) - at_)).

(** The loop that keeps the index of the first frame nearest to second [at_]:
    [i] is the current index, [bestDist] is [None] for [Infinity]. *)
Fixpoint nearestFrom (at_ : Z) (i bestIdx : nat) (bestDist : option Z)
  (frameNumbers : list Z) : nat :=
  match frameNumbers with
  | [] => bestIdx
  | n :: r =>
      let dist := frameDistance at_ n in
      if match bestDist with None => true | Some d => dist <? d end
      then nearestFrom at_ (S i) i (Some dist) r
      else nearestFrom at_ (S i) bestIdx bestDist r
  end.

(** [startIndex] for the option [previewAtSeconds] ([None]: not a number;
    [Some q]: the number of value [q]). *)
Definition startIndex (previewAtSeconds : option Q) (frameNumbers : list Z) : nat :=
  match previewAtSeconds with
  | Some q =>
      if Qle_bool 0 q then nearestFrom (Qfloor q) 0 0 None frameNumbers else 0%nat
  | None => 0%nat
  end.

(** *** The frames skipped by [translateVideoAss] *)

(** The predicate of [frames.filter]: [skipIntro] and [skipOutro] are
    [SKIP_INTRO_SECONDS] and [SKIP_OUTRO_SECONDS], [durationSec] the rounded
    duration of the video. *)
Definition keepFrame (skipIntro skipOutro : Q) (durationSec : Z) (frameNumber_ : Z) : bool :=
  let t := inject_Z (frameNumber_ - 1) in
  if negb (Qle_bool skipIntro t) then false
  else if negb (Qle_bool skipOutro 0)
          && Qle_bool (Qmax 0 (inject_Z durationSec - skipOutro)) t
       then false
       else true.

End SubtitleTranslator.

(** ** [src/frameExtractor.js] *)

Module FrameExtractor.

Record FrameInfo := {
  path : jsstring;
  name : jsstring;
  frameNumber : Z
}.

(** [s.startsWith(p)] and [s.endsWith(p)] *)
Definition startsWith (p s : jsstring) : bool := bool_decide (firstn (length p) s = p).
Definition endsWith (p s : jsstring) : bool :=
  (length p <=? length s)%nat && bool_decide (skipn (length s - length p) s = p).

(** The default order of [Array.prototype.sort]: strings compared by code
    units. *)
Fixpoint compareStrings (a b : jsstring) : Z :=
  match a, b with
  | [], [] => 0
  | [], _ :: _ => -1
  | _ :: _, [] => 1
  | x :: a', y :: b' =>
      if (x <? y)%N then -1 else if (y <? x)%N then 1 else compareStrings a' b'
  end.

(** The handler of the [end] event of [extractFrames]: [files] is the listing
    of [outputDir], [pathJoin] stands for [path.join]. *)
Definition extractFrames (pathJoin : jsstring -> jsstring -> jsstring)
  (outputDir : jsstring) (files : list jsstring) : list FrameInfo :=
  imap (fun index f =>
          {| path := pathJoin outputDir f; name := f;
             frameNumber := Z.of_nat index + 1 |})
    (Js.sort compareStrings
       (List.filter (fun f => startsWith (js "frame_") f && endsWith (js ".png") f) files)).

End FrameExtractor.

(** ** [src/ocrService.js] *)

Module OcrService.

Import SubtitleTranslator.

(** A vertex of [boundingPoly]; a coordinate may be missing. *)
Record Vertex := {
  vx : option Z;
  vy : option Z
}.

(** [v.x || 0] *)
Definition coord (c : option Z) : Z := default 0 c.

(** The box built by [detectTextInFrame] from one annotation.  [Math.min] and
    [Math.max] of no argument are infinite; the list is meant non-empty. *)
Definition boxOfAnnotation (description : jsstring) (vertices : list Vertex) : OCRBox :=
  let x := minOf (map (fun v => coord (vx v)) vertices) in
  let y := minOf (map (fun v => coord (vy v)) vertices) in
  let width := maxOf (map (fun v => coord (vx v)) vertices) - x in
  let height := maxOf (map (fun v => coord (vy v)) vertices) - y in
  {| box_x := x; box_y := y; box_width := width; box_height := height;
     box_text := description;
     box_fontSize := Some (Js.round (inject_Z height * (8 # 10))) |}.

(** [detectTextInFrames]: [ocr] gives the boxes found in the image at a path
    (none when the call fails). *)
Definition detectTextInFrames (ocr : jsstring -> list OCRBox)
  (frames : list FrameExtractor.FrameInfo) : list FrameDet :=
  map (fun frame =>
         {| det_framePath := FrameExtractor.path frame;
            det_frameName := FrameExtractor.name frame;
            det_frameNumber := FrameExtractor.frameNumber frame;
            det_texts := ocr (FrameExtractor.path frame) |})
    frames.

End OcrService.

(** ** [src/subtitleComposer.ts] *)

Module SubtitleComposer.

Import SubtitleTranslator.

(** *** [hexToAss] *)

(** [a || b] on an optional string: [undefined] and [''] are falsy. *)
Definition orElse (a : option jsstring) (b : jsstring) : jsstring :=
  match a with
  | Some s => if truthy s then s else b
  | None => b
  end.

(** [s.replace(/^#/, '')] *)
Definition stripHash (s : jsstring) : jsstring :=
  match s with
  | 0x23%N :: r => r
  | _ => s
  end.

Definition isHexDigit (c : N) : bool :=
  ((0x30 <=? c) && (c <=? 0x39) || (0x61 <=? c) && (c <=? 0x66)
   || (0x41 <=? c) && (c <=? 0x46))%N.

(** [/^([0-9a-fA-F]{6}|[0-9a-fA-F]{8})$/.test(h)] *)
Definition isHexColor (h : jsstring) : bool :=
  ((length h =? 6)%nat || (length h =? 8)%nat) && forallb isHexDigit h.

(** [h.slice(a, b)] for [0 <= a <= b] *)
Definition slice (a b : nat) (h : jsstring) : jsstring :=
  firstn (b - a) (skipn a h).

Definition hexToAss (hex defaultHex : option jsstring) : jsstring :=
  let h0 := trim (stripHash (orElse hex (orElse defaultHex []))) in
  let h := if negb (isHexColor h0) then stripHash (orElse defaultHex (js "000000")) else h0 in
  if (length h =? 6)%nat then
    js "&H00" ++ slice 4 6 h ++ slice 2 4 h ++ slice 0 2 h
  else
    js "&H" ++ slice 6 8 h ++ slice 4 6 h ++ slice 2 4 h ++ slice 0 2 h.

(** *** Environment and request options *)

Record ComposerEnv := {
  ASS_BASE_FONTSIZE : option Q;
  ASS_BOX_PAD : option Q;
  ASS_MARGIN_V : option Q;
  ASS_FORCE_ONE_LINE : option jsstring;
  CJK_WIDTH_FACTOR : option Q;
  LATIN_WIDTH_FACTOR : option Q;
  SUB_TEXT_COLOR : option jsstring;
  SUB_BG_COLOR : option jsstring
}.

Definition emptyEnv : ComposerEnv :=
  {| ASS_BASE_FONTSIZE := None; ASS_BOX_PAD := None; ASS_MARGIN_V := None;
     ASS_FORCE_ONE_LINE := None; CJK_WIDTH_FACTOR := None; LATIN_WIDTH_FACTOR := None;
     SUB_TEXT_COLOR := None; SUB_BG_COLOR := None |}.

(** The module-level constants. *)
Definition SUB_TEXT_ASS (env : ComposerEnv) : jsstring :=
  hexToAss (SUB_TEXT_COLOR env) (Some (js "FFFFFF")).
Definition SUB_BG_ASS (env : ComposerEnv) : jsstring :=
  hexToAss (SUB_BG_COLOR env) (Some (js "00000080")).

Record SubtitleOptions := {
  opt_baseFontSize : option Q;
  opt_boxPad : option Q;
  opt_marginV : option Q;
  opt_textColorHex : option jsstring;
  opt_bgColorHex : option jsstring;
  opt_forceOneLine : option bool;
  opt_cjkWidthFactor : option Q;
  opt_latinWidthFactor : option Q;
  opt_roundedRadius : option Q;
  opt_bgBlur : option Q
}.

(** [{}] *)
Definition noOptions : SubtitleOptions :=
  {| opt_baseFontSize := None; opt_boxPad := None; opt_marginV := None;
     opt_textColorHex := None; opt_bgColorHex := None; opt_forceOneLine := None;
     opt_cjkWidthFactor := None; opt_latinWidthFactor := None;
     opt_roundedRadius := None; opt_bgBlur := None |}.

(** The resolved settings at the head of [overlaySubtitlesBottomCenter]. *)
Definition baseFontSize env opts : Q :=
  default (default 44%Q (ASS_BASE_FONTSIZE env)) (opt_baseFontSize opts).
Definition boxPad env opts : Q :=
  default (default 10%Q (ASS_BOX_PAD env)) (opt_boxPad opts).
Definition marginV env opts : Q :=
  default (default 90%Q (ASS_MARGIN_V env)) (opt_marginV opts).
Definition textAss env opts : jsstring :=
  hexToAss (opt_textColorHex opts) (Some (SUB_TEXT_ASS env)).
Definition backAss env opts : jsstring :=
  hexToAss (opt_bgColorHex opts) (Some (SUB_BG_ASS env)).
Definition forceOneLine env opts : bool :=
  default (bool_decide (ASS_FORCE_ONE_LINE env = Some (js "1"))) (opt_forceOneLine opts).
Definition cjkFactor env opts : Q :=
  default (default (9 # 10) (CJK_WIDTH_FACTOR env)) (opt_cjkWidthFactor opts).
Definition latinFactor env opts : Q :=
  default (default (62 # 100) (LATIN_WIDTH_FACTOR env)) (opt_latinWidthFactor opts).
Definition roundedRadius opts : Q := Qmax 0 (default 0%Q (opt_roundedRadius opts)).
Definition bgBlur opts : Q := Qmax 0 (default 0%Q (opt_bgBlur opts)).

(** *** Text helpers *)

(** [/[぀-ヿ㐀-鿿豈-﫿]/.test(s)] *)
Definition isCJKUnit (c : N) : bool :=
  ((0x3040 <=? c) && (c <=? 0x30ff) || (0x3400 <=? c) && (c <=? 0x9fff)
   || (0xf900 <=? c) && (c <=? 0xfaff))%N.

Definition isCJK (s : jsstring) : bool := existsb isCJKUnit s.

(** Centiseconds shown by [assTime]. *)
Definition assCentis (sec : Q) : Z := Z.max 0 (Js.round (sec * 100)).

Definition assTime (sec : Q) : jsstring :=
  let cs := assCentis sec in
  let h := cs / 360000 in
  let m := (cs mod 360000) / 6000 in
  let s := (cs mod 6000) / 100 in
  let c := cs mod 100 in
  toString h ++ js ":" ++ padStart2 (toString m) ++ js ":" ++ padStart2 (toString s)
  ++ js "." ++ padStart2 (toString c).

Definition escAssUnit (c : N) : jsstring :=
  if (c =? 0x7b)%N then js "("
  else if (c =? 0x7d)%N then js ")"
  else if (c =? 0x0a)%N then [0x5c%N; 0x4e%N]
  else [c].

(** Backslashes are replaced by themselves, braces by parentheses and line
    feeds by the two code units [\N]. *)
Definition escAss (s : jsstring) : jsstring := concat (map escAssUnit s).

(** [t.split('\\N')] *)
Fixpoint splitLines_go (cur : jsstring) (s : jsstring) : list jsstring :=
  match s with
  | [] => [rev cur]
  | 0x5c%N :: (0x4e%N :: r) => rev cur :: splitLines_go [] r
  | c :: r => splitLines_go (c :: cur) r
  end.

Definition splitLines (s : jsstring) : list jsstring := splitLines_go [] s.

(** *** [mergeFrameTexts] *)

Record FrameText := {
  ft_frameNumber : Z;
  ft_text : jsstring
}.

Record SubtitleEvent := {
  ev_text : jsstring;
  ev_start : Q;
  ev_end : Q
}.

(** The state of the loop: the closed [events] and the open event [current]. *)
Definition MergeState : Type := list SubtitleEvent * option SubtitleEvent.

Definition mergeStep (fps : Q) (st : MergeState) (f : FrameText) : MergeState :=
  let t := ft_text f in
  let startSec := (inject_Z (ft_frameNumber f - 1) / fps)%Q in
  let endSec := (inject_Z (ft_frameNumber f) / fps)%Q in
  match snd st with
  | None => (fst st, Some {| ev_text := t; ev_start := startSec; ev_end := endSec |})
  | Some current =>
      if Js.eqb t (ev_text current) then
        (fst st, Some {| ev_text := ev_text current; ev_start := ev_start current;
                         ev_end := endSec |})
      else
        (fst st ++ [current],
         Some {| ev_text := t; ev_start := startSec; ev_end := endSec |})
  end.

Definition closeEvents (st : MergeState) : list SubtitleEvent :=
  match snd st with
  | Some current => fst st ++ [current]
  | None => fst st
  end.

Definition mergeFrameTexts (frames : list FrameText) (fps : Q) : list SubtitleEvent :=
  closeEvents (fold_left (mergeStep fps) frames ([], None)).

(** *** [overlaySubtitlesBottomCenter]: from translated frames to events *)

Definition perFrame (frame : TranslatedFrame) : FrameText :=
  let parts := List.filter truthy (map (fun t => trim (translatedText t)) (tf_texts frame)) in
  {| ft_frameNumber := tf_frameNumber frame; ft_text := join (js " ") parts |}.

(** [Math.ceil(n / 2)] *)
Definition halfUp (n : nat) : nat := Nat.div2 (S n).

(** Available width: [Math.floor(vW * 0.9) - boxPad * 2], in exact
    arithmetic. *)
Definition maxWidth env opts (vW : Z) : Q :=
  (inject_Z (Qfloor (inject_Z vW * (9 # 10))) - boxPad env opts * 2)%Q.

Definition widthFactor env opts (s : jsstring) : Q :=
  if isCJK s then cjkFactor env opts else latinFactor env opts.

(** The estimate [s.length * factor * baseFontSize], in exact arithmetic: the
    code rounds each product to binary64, so that its estimate can differ from
    this one in the last bit. *)
Definition estWidth env opts (s : jsstring) : Q :=
  (inject_Z (Z.of_nat (length s)) * widthFactor env opts s * baseFontSize env opts)%Q.

Definition wrapTwoHalves (s : jsstring) : jsstring :=
  let cjk := isCJK s in
  let tokens := if cjk then splitChars s else splitSpaces s in
  let half := halfUp (length tokens) in
  if cjk then
    join [] (firstn half tokens) ++ [0x0a%N] ++ join [] (skipn half tokens)
  else
    let words := splitSpaces s in
    let l := join (js " ") (firstn (halfUp (length words)) words) in
    let r := join (js " ") (skipn (halfUp (length words)) words) in
    l ++ [0x0a%N] ++ r.

(** The body of [decided].  The test [est > maxWidth] is made on the exact
    estimate and width; the code makes it on their binary64 values, which can
    decide the other way when the two are equal up to rounding. *)
Definition decide_ env opts (vW : Z) (pf : FrameText) : FrameText :=
  let s := ft_text pf in
  if negb (truthy s) then {| ft_frameNumber := ft_frameNumber pf; ft_text := [] |}
  else
    let out :=
      if negb (forceOneLine env opts)
         && negb (Qle_bool (estWidth env opts s) (maxWidth env opts vW))
      then wrapTwoHalves s
      else s in
    {| ft_frameNumber := ft_frameNumber pf; ft_text := out |}.

(** [toUpperCase] on a string of hexadecimal digits. *)
Definition upperUnit (c : N) : N :=
  if ((0x61 <=? c) && (c <=? 0x7a))%N then (c - 0x20)%N else c.

(** [assColorParts]: the pair [(a, c)] of the alpha and colour digits. *)
Definition assColorParts (ass : jsstring) : jsstring * jsstring :=
  match ass with
  | 0x26%N :: (0x48%N :: r) =>
      if (length r =? 8)%nat && forallb isHexDigit r
      then (map upperUnit (firstn 2 r), map upperUnit (skipn 2 r))
      else (js "00", js "000000")
  | _ => (js "00", js "000000")
  end.

(** The soft badge drawn behind the text. *)
Record Badge := {
  badge_color : jsstring;
  badge_alpha : jsstring;
  badge_blur : Q;
  badge_halfW : Z;
  badge_boxH : Z
}.

(** One [Dialogue:] line of the generated script. *)
Record Dialogue := {
  dlg_start : jsstring;
  dlg_end : jsstring;
  dlg_startSec : Q;
  dlg_endSec : Q;
  dlg_posX : Z;
  dlg_posY : Z;
  dlg_fontSize : Q;
  dlg_bord : Q;
  dlg_badge : option Badge;
  dlg_text : jsstring
}.

(** [lineHeights.reduce((acc, h, i) => acc + h + (i ? lineGap : 0), 0)] *)
Fixpoint reduceHeights (lineGap acc : Q) (i : nat) (hs : list Q) : Q :=
  match hs with
  | [] => acc
  | h :: r => reduceHeights lineGap (acc + h + (if (0 <? i)%nat then lineGap else 0))%Q (S i) r
  end.

Definition soft opts : bool :=
  negb (Qle_bool (roundedRadius opts) 0) || negb (Qle_bool (bgBlur opts) 0).

Definition badgeFor env opts (t : jsstring) : Badge :=
  let base := baseFontSize env opts in
  let lines := splitLines t in
  let lineGap := inject_Z (Js.round (base * (15 # 100))) in
  let contentH := reduceHeights lineGap 0 0 (map (fun _ => base) lines) in
  let estWidths := map (estWidth env opts) lines in
  let widest := match estWidths with [] => 0%Q | w :: r => fold_left Qmax r w end in
  let contentW := Z.max 1 (Js.round widest) in
  let boxW := Js.round (inject_Z contentW + boxPad env opts * 2) in
  let boxH := Js.round (contentH + boxPad env opts * 2) in
  {| badge_color := snd (assColorParts (backAss env opts));
     badge_alpha := fst (assColorParts (backAss env opts));
     badge_blur := Qmax (bgBlur opts) (roundedRadius opts);
     badge_halfW := Js.round (inject_Z boxW / 2);
     badge_boxH := boxH |}.

Definition dialogueOf env opts (vW vH : Z) (ev : SubtitleEvent) : Dialogue :=
  let t := escAss (ev_text ev) in
  {| dlg_start := assTime (ev_start ev);
     dlg_end := assTime (ev_end ev);
     dlg_startSec := ev_start ev;
     dlg_endSec := ev_end ev;
     dlg_posX := Js.round (inject_Z vW / 2);
     dlg_posY := Js.round (inject_Z vH - marginV env opts);
     dlg_fontSize := baseFontSize env opts;
     dlg_bord := if soft opts then 0%Q else boxPad env opts;
     dlg_badge := if soft opts then Some (badgeFor env opts t) else None;
     dlg_text := t |}.

(** The event list written to [overlays.ass]; [vW] and [vH] are the frame
    dimensions reported by the probe of the input video. *)
Definition overlaySubtitlesBottomCenter env opts (vW vH : Z)
  (translatedFrames : list TranslatedFrame) : list Dialogue :=
  let decided := map (fun f => decide_ env opts vW (perFrame f)) translatedFrames in
  let merged := mergeFrameTexts decided 1 in
  map (dialogueOf env opts vW vH) (List.filter (fun ev => truthy (ev_text ev)) merged).

End SubtitleComposer.

(** ** [src/jobManager.ts] *)

Module JobManager.

Inductive JobStatus := queued | processing | completed | failed.

Record Stats := {
  framesProcessed : option Z;
  textsDetected : option Z;
  translationsApplied : option Z;
  processingTime : option jsstring
}.

(** [options] is of type [any]; its content plays no role in the store. *)
Record Job := {
  id : jsstring;
  status : JobStatus;
  targetLanguage : jsstring;
  options : option jsstring;
  videoPath : option jsstring;
  outputPath : option jsstring;
  previewPath : option jsstring;
  progress : Q;
  error : option jsstring;
  createdAt : Z;
  updatedAt : Z;
  stats : option Stats
}.

(** [Partial<Job>]: [None] is an absent property.  A property of an optional
    field may be present with the value [undefined] ([Some None]). *)
Record Updates := {
  u_id : option jsstring;
  u_status : option JobStatus;
  u_targetLanguage : option jsstring;
  u_options : option (option jsstring);
  u_videoPath : option (option jsstring);
  u_outputPath : option (option jsstring);
  u_previewPath : option (option jsstring);
  u_progress : option Q;
  u_error : option (option jsstring);
  u_createdAt : option Z;
  u_updatedAt : option Z;
  u_stats : option (option Stats)
}.

(** [{}] *)
Definition noUpdates : Updates :=
  {| u_id := None; u_status := None; u_targetLanguage := None; u_options := None;
     u_videoPath := None; u_outputPath := None; u_previewPath := None;
     u_progress := None; u_error := None; u_createdAt := None; u_updatedAt := None;
     u_stats := None |}.

(** [Object.assign(job, updates)] *)
Definition assign (job : Job) (u : Updates) : Job :=
  {| id := default (id job) (u_id u);
     status := default (status job) (u_status u);
     targetLanguage := default (targetLanguage job) (u_targetLanguage u);
     options := default (options job) (u_options u);
     videoPath := default (videoPath job) (u_videoPath u);
     outputPath := default (outputPath job) (u_outputPath u);
     previewPath := default (previewPath job) (u_previewPath u);
     progress := default (progress job) (u_progress u);
     error := default (error job) (u_error u);
     createdAt := default (createdAt job) (u_createdAt u);
     updatedAt := default (updatedAt job) (u_updatedAt u);
     stats := default (stats job) (u_stats u) |}.

(** [{ updatedAt: Date.now() }] *)
Definition stamp (now : Z) : Updates :=
  {| u_id := None; u_status := None; u_targetLanguage := None; u_options := None;
     u_videoPath := None; u_outputPath := None; u_previewPath := None;
     u_progress := None; u_error := None; u_createdAt := None; u_updatedAt := Some now;
     u_stats := None |}.

(** The private field [jobs : Map<string, Job>]. *)
Abbreviation Store := (gmap jsstring Job).

(** [createJob]; [newId] is the identifier drawn by [generateJobId].  The
    capacity check of [enforceMaxJobs] only removes other, terminal jobs and is
    left out. *)
Definition createJob (newId targetLanguage_ : jsstring) (options_ : option jsstring)
  (now : Z) (jobs : Store) : Job * Store :=
  let job :=
    {| id := newId; status := queued; targetLanguage := targetLanguage_;
       options := options_; videoPath := None; outputPath := None; previewPath := None;
       progress := 0; error := None; createdAt := now; updatedAt := now;
       stats := None |} in
  (job, <[newId := job]> jobs).

Definition getJob (id_ : jsstring) (jobs : Store) : option Job := jobs !! id_.

Definition updateJob (id_ : jsstring) (updates : Updates) (now : Z) (jobs : Store) : Store :=
  match jobs !! id_ with
  | Some job => <[id_ := assign (assign job updates) (stamp now)]> jobs
  | None => jobs
  end.

Definition setJobProcessing (id_ : jsstring) (now : Z) (jobs : Store) : Store :=
  updateJob id_
    {| u_id := None; u_status := Some processing; u_targetLanguage := None;
       u_options := None; u_videoPath := None; u_outputPath := None;
       u_previewPath := None; u_progress := Some 10%Q; u_error := None;
       u_createdAt := None; u_updatedAt := None; u_stats := None |}
    now jobs.

Definition setJobCompleted (id_ outputPath_ : jsstring) (previewPath_ : option jsstring)
  (stats_ : option Stats) (now : Z) (jobs : Store) : Store :=
  updateJob id_
    {| u_id := None; u_status := Some completed; u_targetLanguage := None;
       u_options := None; u_videoPath := None; u_outputPath := Some (Some outputPath_);
       u_previewPath := Some previewPath_; u_progress := Some 100%Q; u_error := None;
       u_createdAt := None; u_updatedAt := None; u_stats := Some stats_ |}
    now jobs.

Definition setJobFailed (id_ error_ : jsstring) (now : Z) (jobs : Store) : Store :=
  updateJob id_
    {| u_id := None; u_status := Some failed; u_targetLanguage := None;
       u_options := None; u_videoPath := None; u_outputPath := None;
       u_previewPath := None; u_progress := Some 0%Q; u_error := Some (Some error_);
       u_createdAt := None; u_updatedAt := None; u_stats := None |}
    now jobs.

Definition updateProgress (id_ : jsstring) (progress_ : Q) (now : Z) (jobs : Store) : Store :=
  updateJob id_
    {| u_id := None; u_status := None; u_targetLanguage := None;
       u_options := None; u_videoPath := None; u_outputPath := None;
       u_previewPath := None; u_progress := Some (Qmin 100 (Qmax 0 progress_));
       u_error := None; u_createdAt := None; u_updatedAt := None; u_stats := None |}
    now jobs.

Definition terminal (s : JobStatus) : bool :=
  match s with
  | completed | failed => true
  | queued | processing => false
  end.

(** [jobTTL]: one hour in milliseconds. *)
Definition jobTTL : Z := 3600000.

(** [cleanupOldJobs]: every job whose last update is older than [jobTTL] is
    deleted (the removal of its files is not modelled). *)
Definition cleanupOldJobs (now : Z) (jobs : Store) : Store :=
  filter (fun kv => ~ (now - updatedAt kv.2 > jobTTL)) jobs.

(** The jobs of the store.  The source lists them in insertion order, which the
    map does not record; only order-independent uses are made of the list. *)
Definition getAllJobs (jobs : Store) : list Job := (map_to_list jobs).*2.

Definition statusIs (s : JobStatus) (j : Job) : bool :=
  match s, status j with
  | queued, queued | processing, processing | completed, completed | failed, failed => true
  | _, _ => false
  end.

Record JobStats := {
  total : nat;
  stats_queued : nat;
  stats_processing : nat;
  stats_completed : nat;
  stats_failed : nat
}.

Definition getJobStats (jobs : Store) : JobStats :=
  let all := getAllJobs jobs in
  {| total := length all;
     stats_queued := length (List.filter (statusIs queued) all);
     stats_processing := length (List.filter (statusIs processing) all);
     stats_completed := length (List.filter (statusIs completed) all);
     stats_failed := length (List.filter (statusIs failed) all) |}.

End JobManager.

(** ** [src/database.ts] *)

Module Database.

Import JobManager.

(** [MemoryDatabase]: the private field [jobs : Map<string, Job>]. *)

(** [saveJob] stores a copy of the job. *)
Definition saveJob (job : Job) (jobs : Store) : Store := <[id job := job]> jobs.

Definition getJob (id_ : jsstring) (jobs : Store) : option Job := jobs !! id_.

(** [MemoryDatabase.updateJob]: the call of [Date.now()] made by the other
    providers and by the job manager does not occur here; [now] is kept as an
    argument so that the operations have one signature. *)
Definition updateJob (id_ : jsstring) (updates : Updates) (now : Z) (jobs : Store) : Store :=
  match jobs !! id_ with
  | Some job => <[id_ := assign job updates]> jobs
  | None => jobs
  end.

(** [PostgresDatabase.saveJob], on the table seen as a map from [id] to row:
    its [ON CONFLICT (id) DO UPDATE] leaves the stored [target_language] and
    [created_at] of an existing row untouched. *)
Definition upsert (job : Job) (rows : Store) : Store :=
  match rows !! id job with
  | Some old =>
      <[id job := {| id := id old; status := status job;
                     targetLanguage := targetLanguage old; options := options job;
                     videoPath := videoPath job; outputPath := outputPath job;
                     previewPath := previewPath job; progress := progress job;
                     error := error job; createdAt := createdAt old;
                     updatedAt := updatedAt job; stats := stats job |}]> rows
  | None => <[id job := job]> rows
  end.

(** [PostgresDatabase.updateJob]: read the row, merge, stamp, write back. *)
Definition updateJobSql (id_ : jsstring) (updates : Updates) (now : Z) (rows : Store) : Store :=
  match rows !! id_ with
  | Some job => upsert (assign (assign job updates) (stamp now)) rows
  | None => rows
  end.

(** [SQLiteDatabase.saveJob]: [INSERT OR REPLACE] writes every column of the
    row. *)
Definition replaceRow (job : Job) (rows : Store) : Store := <[id job := job]> rows.

(** [SQLiteDatabase.updateJob]: the same steps as for Postgres, written back
    through [replaceRow]. *)
Definition updateJobSqlite (id_ : jsstring) (updates : Updates) (now : Z) (rows : Store)
  : Store :=
  match rows !! id_ with
  | Some job => replaceRow (assign (assign job updates) (stamp now)) rows
  | None => rows
  end.

(** [MemoryDatabase.deleteJob] *)
Definition deleteJob (id_ : jsstring) (jobs : Store) : Store := delete id_ jobs.

(** [MemoryDatabase.cleanup]: the store without the jobs older than
    [olderThan], and the number of jobs removed. *)
Definition cleanup (olderThan now : Z) (jobs : Store) : Store * nat :=
  let kept := filter (fun kv => ~ (now - updatedAt kv.2 > olderThan)) jobs in
  (kept, size (filter (fun kv => now - updatedAt kv.2 > olderThan) jobs)).

End Database.

(** ** The job driver of [src/index.ts] *)

Module Driver.

Import JobManager.

(** What [translateVideoAss] gives back to the driver: a result, or the
    message of the error it throws. *)
Inductive Outcome :=
| Translated (outputPath_ workDir : jsstring) (stats_ : Stats)
| Thrown (message : jsstring).

(** [processVideoJob]: the store it leaves and the error it rethrows.  The
    arguments [t1], [t2] are the times of its two updates. *)
Definition processVideoJob (jobId : jsstring) (outcome : Outcome) (processingTime_ : jsstring)
  (t1 t2 : Z) (jobs : Store) : Store * option jsstring :=
  let started := setJobProcessing jobId t1 jobs in
  match outcome with
  | Translated out workDir st =>
      (setJobCompleted jobId out (Some workDir)
         (Some {| framesProcessed := framesProcessed st;
                  textsDetected := textsDetected st;
                  translationsApplied := translationsApplied st;
                  processingTime := Some processingTime_ |})
         t2 started,
       None)
  | Thrown message => (setJobFailed jobId message t2 started, Some message)
  end.

(** The call in the upload handler: [processVideoJob(...).catch(...)] marks the
    job failed once more, at time [t3], when the driver has thrown. *)
Definition runJob (jobId : jsstring) (outcome : Outcome) (processingTime_ : jsstring)
  (t1 t2 t3 : Z) (jobs : Store) : Store :=
  match processVideoJob jobId outcome processingTime_ t1 t2 jobs with
  | (jobs', Some message) => setJobFailed jobId message t3 jobs'
  | (jobs', None) => jobs'
  end.

End Driver.

(** ** The pipeline of [translateVideoAss], after detection *)

Module Pipeline.

Import SubtitleTranslator SubtitleComposer.

(** Steps 3 to 6: grouping, filtering, translation (the collaborator's answer
    is the argument [translationMap]), and event synthesis.  [None]: the run
    throws, the overlay being handed a [translatedText] that is not a
    string. *)
Definition translateVideoAss (fenv : FilterEnv) (cenv : ComposerEnv)
  (flag : option jsstring) (opts : SubtitleOptions) (vW vH : Z)
  (translationMap : gmap jsstring jsstring) (detections : list FrameDet)
  : option (list Dialogue) :=
  let groupedFrames := map groupTextsIntoLines detections in
  let subtitleFrames := filterSubtitleLike fenv groupedFrames in
  let translatedFrames := applyTranslations flag translationMap subtitleFrames in
  match asTranslatedFrames translatedFrames with
  | Some frames => Some (overlaySubtitlesBottomCenter cenv opts vW vH frames)
  | None => None
  end.

(** The same from the listing of the frame directory: extraction, the frames
    skipped at the start and at the end, detection, then the steps above. *)
Definition translateVideoAssFromFiles (pathJoin : jsstring -> jsstring -> jsstring)
  (outputDir : jsstring) (files : list jsstring) (skipIntro skipOutro : Q)
  (durationSec : Z) (ocr : jsstring -> list OCRBox)
  (fenv : FilterEnv) (cenv : ComposerEnv) (flag : option jsstring)
  (opts : SubtitleOptions) (vW vH : Z) (translationMap : gmap jsstring jsstring)
  : option (list Dialogue) :=
  let frames := FrameExtractor.extractFrames pathJoin outputDir files in
  let filteredFrames :=
    List.filter
      (fun f => keepFrame skipIntro skipOutro durationSec (FrameExtractor.frameNumber f))
      frames in
  let detections := OcrService.detectTextInFrames ocr filteredFrames in
  translateVideoAss fenv cenv flag opts vW vH translationMap detections.

End Pipeline.

(** ** Notions used to state the properties *)

Module Spec.

Import SubtitleTranslator SubtitleComposer JobManager.

(** *** Temporal persistence *)

(** The frame numbers in which a line with text [text] survived the per-frame
    pass, in frame order and with one entry per line. *)
Definition survivedFrames (text : jsstring) (prelim : list GroupedFrame) : list Z :=
  flat_map
    (fun f => map (fun _ => frameNumber f)
                (List.filter (fun t => Js.eqb (line_text t) text) (texts f)))
    prelim.

(** Two numerically consecutive values occur in [l]. *)
Definition consecutivePair (l : list Z) : Prop :=
  exists n, n ∈ l /\ n + 1 ∈ l.

(** What [recordLine] and the two loops of [occurrences] leave under a key. *)
Definition extend (o : option (list Z)) (l : list Z) : option (list Z) :=
  match l with
  | [] => o
  | _ :: _ => Some (default [] o ++ l)
  end.

(** A frame with the given number and lines. *)
Definition frameOf (n : Z) (ts : list Line) : GroupedFrame :=
  {| framePath := []; frameName := []; frameNumber := n; texts := ts |}.

(** Two frames, 1 and 2, showing the same two-word line in the lower half. *)
Definition eveningLine : Line :=
  {| line_text := js "GOOD EVENING"; line_x := 100; line_y := 500; line_width := 300;
     line_height := 30; line_fontSize := 24 |}.

Definition eveningFrames : list GroupedFrame :=
  [frameOf 1 [eveningLine]; frameOf 2 [eveningLine]].

(** *** Box clustering *)

Definition bottom (a : OCRBox) : Z := box_y a + box_height a.

(** Height of the vertical intersection of two boxes. *)
Definition interHeight (a b : OCRBox) : Z :=
  Z.max 0 (Z.min (bottom a) (bottom b) - Z.max (box_y a) (box_y b)).

(** Vertical overlap fraction: the intersection height divided by the shorter
    of the two heights (0 when the shorter height is 0). *)
Definition overlapFraction (a b : OCRBox) : Q :=
  inject_Z (interHeight a b) / inject_Z (Z.min (box_height a) (box_height b)).

(** The two boxes overlap by at least the threshold 0.5. *)
Definition adjacent (a b : OCRBox) : Prop := (1 # 2 <= overlapFraction a b)%Q.

(** Every two members of [l], taken at distinct positions, are related. *)
Fixpoint pairwise {A} (R : A -> A -> Prop) (l : list A) : Prop :=
  match l with
  | [] => True
  | a :: r => Forall (R a) r /\ pairwise R r
  end.

(** A chain of boxes of the frame, each overlapping the next by at least the
    threshold, connects the two boxes. *)
Inductive connected (boxes : list OCRBox) : OCRBox -> OCRBox -> Prop :=
| connected_refl a : connected boxes a a
| connected_edge a b : a ∈ boxes -> b ∈ boxes -> adjacent a b -> connected boxes a b
| connected_sym a b : connected boxes a b -> connected boxes b a
| connected_trans a b c :
    connected boxes a b -> connected boxes b c -> connected boxes a c.

(** The span of a cluster is the vertical hull of its members. *)
Definition spanOk (c : Cluster) : Prop :=
  (exists b, b ∈ items c /\ box_y b = span_y c)
  /\ (exists b, b ∈ items c /\ bottom b = span_y c + span_height c)
  /\ (forall b, b ∈ items c -> span_y c <= box_y b /\ bottom b <= span_y c + span_height c).

(** Invariant of a cluster while the boxes [rest] are still to be placed. *)
Definition clusterInv (boxes rest : list OCRBox) (c : Cluster) : Prop :=
  spanOk c
  /\ (forall b, b ∈ items c -> b ∈ boxes /\ forall t, t ∈ rest -> box_y b <= box_y t)
  /\ (forall a b, a ∈ items c -> b ∈ items c -> connected boxes a b).

Definition yLe (a b : OCRBox) : Prop := box_y a <= box_y b.

Definition wordBox (t : string) (x_ y_ w h : Z) : OCRBox :=
  {| box_x := x_; box_y := y_; box_width := w; box_height := h; box_text := js t;
     box_fontSize := None |}.

(** Three words of one frame: the first spans rows 0 to 10, the second rows 4
    to 8, the third rows 6 to 16. *)
Definition tallWord : OCRBox := wordBox "ON" 0 0 30 10.
Definition smallWord : OCRBox := wordBox "AIR" 40 4 30 4.
Definition lowWord : OCRBox := wordBox "NOW" 80 6 30 10.

(** Two words far apart: rows 0 to 10 and rows 100 to 110. *)
Definition farWord : OCRBox := wordBox "LOGO" 0 100 30 10.

Definition frameWith (boxes : list OCRBox) : FrameDet :=
  {| det_framePath := []; det_frameName := []; det_frameNumber := 1; det_texts := boxes |}.

(** *** Timeline *)

(** [k < n1 < n2 < ...] *)
Fixpoint increasingFrom (k : Z) (ns : list Z) : Prop :=
  match ns with
  | [] => True
  | n :: r => k < n /\ increasingFrom n r
  end.

(** Strictly increasing frame numbers. *)
Definition strictlyIncreasing (ns : list Z) : Prop :=
  match ns with
  | [] => True
  | n :: r => increasingFrom n r
  end.

(** The half-open range of [e1] ends before that of [e2] starts, and [e1]
    starts first. *)
Definition before (e1 e2 : SubtitleEvent) : Prop :=
  (ev_end e1 <= ev_start e2)%Q /\ (ev_start e1 < ev_start e2)%Q.

Definition dialogueBefore (d1 d2 : Dialogue) : Prop :=
  (dlg_endSec d1 <= dlg_startSec d2)%Q /\ (dlg_startSec d1 < dlg_startSec d2)%Q.

(** The same for the centiseconds printed in the script. *)
Definition printedBefore (d1 d2 : Dialogue) : Prop :=
  assCentis (dlg_endSec d1) <= assCentis (dlg_startSec d2).

(** Invariant of the loop of [mergeFrameTexts] once every frame up to number
    [k] is processed. *)
Definition mergeInv (fps : Q) (k : Z) (st : MergeState) : Prop :=
  StronglySorted before (closeEvents st)
  /\ Forall (fun e => (ev_start e < ev_end e)%Q /\ (ev_end e <= inject_Z k / fps)%Q)
       (closeEvents st).

Definition frameText (n : Z) (t : jsstring) : FrameText :=
  {| ft_frameNumber := n; ft_text := t |}.

(** A translated frame with the given lines. *)
Definition translatedTexts (n : Z) (ts : list TranslatedText) : TranslatedFrame :=
  {| tf_frameNumber := n; tf_texts := ts |}.

Definition translatedFrameOf (n : Z) (t : jsstring) : TranslatedFrame :=
  {| tf_frameNumber := n;
     tf_texts := [ {| tt_line := eveningLine; translatedText := t |} ] |}.

(** *** Job store *)

(** Status of the job stored under [id_], if any. *)
Definition statusOf (id_ : jsstring) (jobs : gmap jsstring Job) : option JobStatus :=
  status <$> jobs !! id_.

(** A store holding one queued job, created at time 100. *)
Definition oneJob : gmap jsstring Job :=
  snd (createJob (js "job_1") (js "French") None 100 ∅).

(** The same store after the job has failed at time 200, and the failed job. *)
Definition failedStore : gmap jsstring Job :=
  setJobFailed (js "job_1") (js "boom") 200 oneJob.

Definition failedJob : Job :=
  {| id := js "job_1"; status := failed; targetLanguage := js "French";
     options := None; videoPath := None; outputPath := None; previewPath := None;
     progress := 0; error := Some (js "boom"); createdAt := 100; updatedAt := 200;
     stats := None |}.

(** [{ progress: 50 }] *)
Definition halfWay : Updates :=
  {| u_id := None; u_status := None; u_targetLanguage := None; u_options := None;
     u_videoPath := None; u_outputPath := None; u_previewPath := None;
     u_progress := Some 50%Q; u_error := None; u_createdAt := None; u_updatedAt := None;
     u_stats := None |}.

(** *** Colours *)

(** The defaults documented next to [SUB_TEXT_ASS] and [SUB_BG_ASS]: white
    text, semi-transparent black badge. *)
Definition documentedTextColor : jsstring := js "&H00FFFFFF".
Definition documentedBgColor : jsstring := js "&H80000000".

Definition withColors (text bg : option jsstring) : SubtitleOptions :=
  {| opt_baseFontSize := None; opt_boxPad := None; opt_marginV := None;
     opt_textColorHex := text; opt_bgColorHex := bg; opt_forceOneLine := None;
     opt_cjkWidthFactor := None; opt_latinWidthFactor := None;
     opt_roundedRadius := None; opt_bgBlur := None |}.

(** *** Layout *)




(** *** The scenario with two identical frames *)

Definition helloBox : OCRBox := wordBox "HELLO" 10 500 100 30.

Definition helloDetections : list FrameDet :=
  [ {| det_framePath := []; det_frameName := []; det_frameNumber := 1;
       det_texts := [helloBox] |};
    {| det_framePath := []; det_frameName := []; det_frameNumber := 2;
       det_texts := [helloBox] |} ].

Definition helloMap : gmap jsstring jsstring := {[ js "HELLO" := js "BONJOUR" ]}.

(** The default filter with the two text thresholds lowered so that a line of
    one word and five characters passes. *)
Definition relaxedEnv : FilterEnv :=
  {| SUBTITLE_REGION := None;
     SUBTITLE_REGION_FRACTION := None;
     SUBTITLE_MIN_CHARS := Some 5%Q;
     SUBTITLE_MIN_WORDS := Some 1%Q;
     SUBTITLE_MIN_ASPECT := None;
     SUBTITLE_MAX_LINES_PER_FRAME := None;
     SUBTITLE_REQUIRE_PERSISTENCE := None |}.

(** *** Spacing between ideographs *)

(** The text starts with a space. *)
Definition lookaheadSpace (s : jsstring) : bool :=
  match s with
  | c :: _ => isSpace c
  | [] => false
  end.

(** The nearest code unit of [l] that is not a space is an ideograph. *)
Definition ideographEdge (l : jsstring) : bool :=
  match Js.dropWhile isSpace l with
  | d :: _ => isIdeograph d
  | [] => false
  end.

(** The text without the spaces that stand between two ideographs: a space is
    dropped when the nearest code units that are not spaces, on its left and on
    its right, both exist and are ideographs.  [before] is the part already
    read, nearest code unit first. *)
Fixpoint dropBetween (before s : jsstring) : jsstring :=
  match s with
  | [] => []
  | c :: r =>
      if isSpace c && ideographEdge before && ideographEdge r
      then dropBetween (c :: before) r
      else c :: dropBetween (c :: before) r
  end.

Definition withoutSpacesBetweenIdeographs (s : jsstring) : jsstring := dropBetween [] s.

(** The state of the scan of [replaceSpacing] agrees with what was read. *)
Definition scanInv (before : jsstring) (skip : nat) (s : jsstring) : Prop :=
  match skip with
  | O => lookaheadSpace s = true -> ideographEdge before && ideographEdge s = false
  | S k => ideographEdge before = true /\ spacesMatchLen s = S k
  end.

(** Ideographs separated by spaces: U+4E2D, space, U+6587, two spaces, U+5B57. *)
Definition spacedIdeographs : jsstring := [0x4e2d; 0x20; 0x6587; 0x20; 0x20; 0x5b57]%N.


(** *** Further notions: script text and times *)

(** The form [&HAABBGGRR] read by [assColorParts]. *)
Definition isAssColor (ass : jsstring) : bool :=
  match ass with
  | 0x26%N :: (0x48%N :: r) => (length r =? 8)%nat && forallb isHexDigit r
  | _ => false
  end.

(** [s] is the number [m] written with exactly two decimal digits. *)
Definition twoDigits (m : Z) (s : jsstring) : bool :=
  match s with
  | [d1; d2] =>
      ((0x30 <=? d1) && (d1 <=? 0x39) && (0x30 <=? d2) && (d2 <=? 0x39))%N
      && (m =? 10 * (Z.of_N d1 - 48) + (Z.of_N d2 - 48))
  | _ => false
  end.

(** A code unit that [escAss] rewrites: a brace or a line feed. *)
Definition isScriptSpecial (c : N) : bool :=
  ((c =? 0x7b) || (c =? 0x7d) || (c =? 0x0a))%N.

(** *** Further notions: the merge seen from the open event *)

(** Each element is related to the next one. *)
Fixpoint chain {A} (R : A -> A -> Prop) (l : list A) : Prop :=
  match l with
  | a :: (b :: _) as r => R a b /\ chain R r
  | _ => True
  end.

(** The numbers [n], [n + 1], [n + 2], ... *)
Fixpoint contiguousFrom (n : Z) (ns : list Z) : Prop :=
  match ns with
  | [] => True
  | m :: r => m = n /\ contiguousFrom (n + 1) r
  end.

(** The event opened on a frame. *)
Definition openEvent (fps : Q) (f : FrameText) : SubtitleEvent :=
  {| ev_text := ft_text f;
     ev_start := inject_Z (ft_frameNumber f - 1) / fps;
     ev_end := inject_Z (ft_frameNumber f) / fps |}.

(** The open event with its end moved to the end of a frame. *)
Definition extendEvent (fps : Q) (current : SubtitleEvent) (f : FrameText) : SubtitleEvent :=
  {| ev_text := ev_text current; ev_start := ev_start current;
     ev_end := inject_Z (ft_frameNumber f) / fps |}.

(** The events that the loop of [mergeFrameTexts] still produces when
    [current] is open and [frames] remain (a reading of the loop used in the
    proofs). *)
Fixpoint mergeFrom (fps : Q) (current : SubtitleEvent) (frames : list FrameText)
  : list SubtitleEvent :=
  match frames with
  | [] => [current]
  | f :: r =>
      if Js.eqb (ft_text f) (ev_text current)
      then mergeFrom fps (extendEvent fps current f) r
      else current :: mergeFrom fps (openEvent fps f) r
  end.

(** *** Further notions: boxes, frames and jobs *)

(** Box [b] lies within the box of line [l]. *)
Definition inside (b : OCRBox) (l : Line) : Prop :=
  line_x l <= box_x b /\ line_y l <= box_y b
  /\ box_x b + box_width b <= line_x l + line_width l
  /\ box_y b + box_height b <= line_y l + line_height l.

(** The box of [l] is the smallest box around [members]: it holds each of
    them, and each of its four edges is the edge of one of them. *)
Definition boundingBox (members : list OCRBox) (l : Line) : Prop :=
  Forall (fun b => inside b l) members
  /\ (exists b, b ∈ members /\ box_x b = line_x l)
  /\ (exists b, b ∈ members /\ box_y b = line_y l)
  /\ (exists b, b ∈ members /\ box_x b + box_width b = line_x l + line_width l)
  /\ (exists b, b ∈ members /\ box_y b + box_height b = line_y l + line_height l).

(** Frame [g] is frame [f] with some of its lines: at most the allowed number,
    each one accepted by the per-frame test of [f] and with a text. *)
Definition keptFrom (env : FilterEnv) (f g : GroupedFrame) : Prop :=
  frameNumber g = frameNumber f /\ framePath g = framePath f
  /\ frameName g = frameName f
  /\ (length (texts g) <= Z.to_nat (Qfloor (maxLinesPerFrame env)))%nat
  /\ Forall (fun t => t ∈ texts f
                      /\ subtitleLike env (estFrameHeight f) t = true
                      /\ truthy (line_text t) = true)
       (texts g).

(** Distance of the frame numbered [n] from second [at_]. *)
Definition distance (at_ n : Z) : Z := Z.abs (n - 1 - at_).

(** The job of the store [oneJob]. *)
Definition queuedJob : Job := fst (createJob (js "job_1") (js "French") None 100 ∅).

(** The file names that [extractFrames] keeps. *)
Definition isFrameFile (f : jsstring) : bool :=
  FrameExtractor.startsWith (js "frame_") f && FrameExtractor.endsWith (js ".png") f.

End Spec.

Import Spec.

(** ** Tactics *)

(** Arithmetic on the sample boxes. *)
Ltac box_arith :=
  unfold interHeight, bottom, tallWord, smallWord, lowWord, farWord, wordBox in *;
  cbn [SubtitleTranslator.box_y SubtitleTranslator.box_height] in *; lia.

(** Closes a goal stating that a code unit within known bounds lies outside a
    class given by comparisons. *)
Ltac class_false :=
  repeat match goal with
    | |- (_ || _) = false => apply orb_false_intro
    | |- (_ && _) = false =>
        apply andb_false_iff;
        first [left; apply N.leb_gt; lia | right; apply N.leb_gt; lia]
    | |- (_ =? _)%N = false => apply N.eqb_neq; lia
    end.

(** * Properties *)

(** ** Sorting *)

Section Sorting.

Context {A : Type} (cmp : A -> A -> Z).

Lemma insertBy_Permutation (a : A) (l : list A) :
  Js.insertBy cmp a l ≡ₚ a :: l.
Proof.
  induction l as [|b r IH]; simpl; [reflexivity|].
  destruct (cmp a b <=? 0); [reflexivity|].
  rewrite IH. apply Permutation_swap.
Qed.

Lemma sort_Permutation (l : list A) : Js.sort cmp l ≡ₚ l.
Proof.
  induction l as [|a r IH]; simpl; [reflexivity|].
  rewrite insertBy_Permutation. by rewrite IH.
Qed.

Lemma elem_of_sort (a : A) (l : list A) : a ∈ Js.sort cmp l ↔ a ∈ l.
Proof. by rewrite sort_Permutation. Qed.

(** A comparator that decides a transitive relation [R] one way or the other
    sorts with respect to [R]. *)
Context (R : A -> A -> Prop).
Hypothesis R_trans : forall a b c, R a b -> R b c -> R a c.
Hypothesis cmp_le : forall a b, cmp a b <= 0 -> R a b.
Hypothesis cmp_gt : forall a b, 0 < cmp a b -> R b a.

Lemma insertBy_sorted (a : A) (l : list A) :
  StronglySorted R l -> StronglySorted R (Js.insertBy cmp a l).
Proof.
  induction 1 as [|b r Hr IH Hb]; simpl.
  - repeat constructor.
  - destruct (Z.leb_spec (cmp a b) 0) as [Hle|Hgt].
    + constructor; [by constructor|].
      constructor; [by apply cmp_le|].
      eapply Forall_impl; [exact Hb|]. intros c Hc.
      eapply R_trans; [by apply cmp_le|done].
    + constructor; [done|].
      rewrite insertBy_Permutation. constructor; [by apply cmp_gt|done].
Qed.

Lemma sort_sorted (l : list A) : StronglySorted R (Js.sort cmp l).
Proof.
  induction l as [|a r IH]; simpl; [constructor|by apply insertBy_sorted].
Qed.

End Sorting.

(** ** Temporal persistence *)

Section Persistence.

Import SubtitleTranslator.

Lemma sort_numerically_sorted (l : list Z) :
  StronglySorted Z.le (Js.sort numerically l).
Proof.
  apply sort_sorted; unfold numerically; intros; lia.
Qed.

Lemma hasConsecutive_sorted (l : list Z) :
  StronglySorted Z.le l -> hasConsecutive l = true <-> consecutivePair l.
Proof.
  induction 1 as [|a r Hr IH Ha].
  - split; [discriminate|]. intros (n & Hn & _). by apply elem_of_nil in Hn.
  - destruct r as [|b r'].
    + split; [discriminate|]. intros (n & Hn & Hn').
      apply list_elem_of_singleton in Hn, Hn'. lia.
    + change (hasConsecutive (a :: b :: r'))
        with ((b =? a + 1) || hasConsecutive (b :: r')).
      rewrite orb_true_iff, Z.eqb_eq, IH. split.
      * intros [->|(n & Hn & Hn')].
        -- exists a. split; [left|right; left].
        -- exists n. split; by right.
      * intros (n & Hn & Hn').
        assert (Hge : forall c, c ∈ b :: r' -> a <= c)
          by (intros c; by apply Forall_forall).
        apply elem_of_cons in Hn as [->|Hn]; apply elem_of_cons in Hn' as [Heq|Hn'].
        -- lia.
        -- assert (Hb : a <= b) by (apply Hge; left).
           destruct (decide (b = a + 1)) as [|Hne]; [by left|right].
           destruct (decide (b = a)) as [->|Hne'].
           ++ exists a. split; [left|done].
           ++ exfalso. apply StronglySorted_inv in Hr as [_ Hb'].
              apply elem_of_cons in Hn' as [?|Hn']; [lia|].
              pose proof (proj1 (Forall_forall _ _) Hb' _ Hn'). lia.
        -- apply Hge in Hn. lia.
        -- right. by exists n.
Qed.

Lemma hasConsecutive_sort (l : list Z) :
  hasConsecutive (Js.sort numerically l) = true <-> consecutivePair (Js.sort numerically l).
Proof. apply hasConsecutive_sorted, sort_numerically_sorted. Qed.

Lemma extend_app o l1 l2 :
  extend (extend o l1) l2 = extend o (l1 ++ l2).
Proof.
  destruct l1 as [|a l1]; [done|]. destruct l2 as [|b l2]; simpl.
  - by rewrite app_nil_r.
  - by rewrite <- app_assoc.
Qed.

Lemma recordLine_lookup (text : jsstring) n occ t :
  truthy text = true ->
  recordLine n occ t !! text
  = extend (occ !! text) (if Js.eqb (line_text t) text then [n] else []).
Proof.
  intros Htext. unfold recordLine, Js.eqb.
  destruct (truthy (line_text t)) eqn:Ht; simpl.
  - case_bool_decide as Heq.
    + rewrite Heq. by rewrite lookup_insert_eq.
    + by rewrite lookup_insert_ne.
  - case_bool_decide as Heq; [|done]. congruence.
Qed.

Lemma fold_recordLine_lookup (text : jsstring) n ts occ :
  truthy text = true ->
  fold_left (recordLine n) ts occ !! text
  = extend (occ !! text)
      (map (fun _ => n) (List.filter (fun t => Js.eqb (line_text t) text) ts)).
Proof.
  intros Htext. revert occ. induction ts as [|t ts IH]; intros occ; [done|].
  cbn [fold_left List.filter]. rewrite IH, recordLine_lookup by done.
  destruct (Js.eqb (line_text t) text); [|done].
  by rewrite extend_app.
Qed.

Lemma fold_frames_lookup (text : jsstring) prelim occ :
  truthy text = true ->
  fold_left (fun occ f => fold_left (recordLine (frameNumber f)) (texts f) occ) prelim occ
    !! text
  = extend (occ !! text) (survivedFrames text prelim).
Proof.
  intros Htext. revert occ. induction prelim as [|f fs IH]; intros occ; [done|].
  cbn [fold_left survivedFrames flat_map].
  rewrite IH, fold_recordLine_lookup by done. apply extend_app.
Qed.

Lemma fold_recordLine_empty (n : Z) (ts : list Line) (occ : gmap jsstring (list Z)) :
  occ !! [] = None -> fold_left (recordLine n) ts occ !! [] = None.
Proof.
  revert occ. induction ts as [|t ts IH]; intros occ Hocc; [done|].
  simpl. apply IH. unfold recordLine.
  destruct (line_text t) eqn:Ht; simpl; [done|]. by rewrite lookup_insert_ne.
Qed.

Lemma occurrences_empty_key prelim : occurrences prelim !! [] = None.
Proof.
  unfold occurrences. generalize (lookup_empty (M := gmap jsstring) (A := list Z) []).
  generalize (∅ : gmap jsstring (list Z)).
  induction prelim as [|f fs IH]; intros occ Hocc; [done|].
  simpl. apply IH. by apply fold_recordLine_empty.
Qed.

Lemma occurrences_lookup (text : jsstring) prelim :
  truthy text = true ->
  occurrences prelim !! text = extend None (survivedFrames text prelim).
Proof.
  intros Htext. unfold occurrences. by rewrite fold_frames_lookup.
Qed.

Lemma elem_of_keepTexts (text : jsstring) prelim :
  text ∈ keepTexts prelim
  <-> truthy text = true
      /\ consecutivePair (Js.sort numerically (survivedFrames text prelim)).
Proof.
  unfold keepTexts. rewrite elem_of_dom. unfold is_Some.
  setoid_rewrite map_lookup_filter_Some. simpl.
  destruct (truthy text) eqn:Htext.
  - rewrite occurrences_lookup by done.
    destruct (survivedFrames text prelim) as [|a l] eqn:Hs.
    + split; [by intros (? & ? & _)|]. intros (_ & n & Hn & _).
      by apply elem_of_nil in Hn.
    + change (extend None (a :: l)) with (Some (a :: l)). split.
      * intros (? & [= <-] & Hc). split; [done|]. by apply hasConsecutive_sort.
      * intros (_ & Hc). eexists. split; [done|]. by apply hasConsecutive_sort.
  - destruct text; [|done]. rewrite occurrences_empty_key.
    split; [by intros (? & ? & _)|by intros (? & _)].
Qed.

End Persistence.

Section PerFramePass.

Import SubtitleTranslator.

Lemma elem_of_firstn {A} (a : A) (k : nat) (l : list A) : a ∈ firstn k l -> a ∈ l.
Proof.
  intros Ha. rewrite <- (firstn_skipn k l). apply elem_of_app. by left.
Qed.

Lemma elem_of_List_filter {A} (p : A -> bool) (a : A) (l : list A) :
  a ∈ List.filter p l <-> a ∈ l /\ p a = true.
Proof. rewrite !list_elem_of_In. apply filter_In. Qed.

Lemma one_le_inject_Z (c : Z) : (1 <= inject_Z c)%Q -> 1 <= c.
Proof. unfold Qle. simpl. lia. Qed.

Lemma minChars_ge_1 env : (1 <= minChars env)%Q.
Proof. unfold minChars. apply Q.le_max_l. Qed.

Lemma subtitleLike_truthy env est t :
  subtitleLike env est t = true -> truthy (line_text t) = true.
Proof.
  unfold subtitleLike. rewrite !andb_true_iff. intros [[_ [Hc _]] _].
  apply Qle_bool_iff in Hc.
  assert (H1 : 1 <= charCount (line_text t)).
  { apply one_le_inject_Z. eapply Qle_trans; [apply (minChars_ge_1 env)|exact Hc]. }
  unfold charCount, stripSpaces in H1. destruct (line_text t); [simpl in H1; lia|done].
Qed.

(** No line with an empty text survives the per-frame pass. *)
Lemma prelimFrame_truthy env f t :
  t ∈ texts (prelimFrame env f) -> truthy (line_text t) = true.
Proof.
  unfold prelimFrame. cbn [texts setTexts]. intros Ht.
  apply elem_of_firstn, elem_of_sort, elem_of_List_filter in Ht as [_ Ht].
  by eapply subtitleLike_truthy.
Qed.

Lemma survivedFrames_empty_key env frames :
  survivedFrames [] (map (prelimFrame env) frames) = [].
Proof.
  induction frames as [|f fs IH]; [done|].
  cbn [map survivedFrames flat_map]. fold (survivedFrames [] (map (prelimFrame env) fs)).
  rewrite IH, app_nil_r.
  assert (Hnone : forall ts : list Line,
             (forall t, t ∈ ts -> truthy (line_text t) = true) ->
             List.filter (fun t => Js.eqb (line_text t) []) ts = []).
  { induction ts as [|t ts IHts]; intros Hts; [done|]. cbn [List.filter].
    assert (Ht : truthy (line_text t) = true) by (apply Hts; left).
    unfold Js.eqb at 1. case_bool_decide as Heq; [by rewrite Heq in Ht|].
    apply IHts. intros t' Ht'. apply Hts. by right. }
  rewrite Hnone; [done|]. intros t. apply prelimFrame_truthy.
Qed.

End PerFramePass.

Section PersistenceTheorem.

Import SubtitleTranslator.

Lemma survived_alone (l : Line) :
  List.filter (fun t => Js.eqb (line_text t) (line_text l)) [l] = [l].
Proof.
  cbn [List.filter]. unfold Js.eqb. by rewrite bool_decide_eq_true_2.
Qed.

Lemma sort_numerically_two (a b : Z) :
  a <= b -> Js.sort numerically [a; b] = [a; b].
Proof.
  intros Hab. cbn [Js.sort Js.insertBy]. unfold numerically.
  destruct (Z.leb_spec (a - b) 0); [done|lia].
Qed.

(** C1. With the persistence requirement enabled, a text is retained globally
    exactly when the sorted list of the frame numbers in which it survived the
    per-frame pass contains two numerically consecutive values, and the output
    keeps, frame by frame, exactly the surviving lines with a retained text.
    In particular a line surviving only in frame 3 is dropped, one surviving in
    frames 3 and 4 is retained, and one surviving in frames 3 and 5 is
    dropped. *)
Theorem persistence_filtering (env : FilterEnv) (frames : list GroupedFrame) :
  requirePersistence env = true ->
  let prelim := map (prelimFrame env) frames in
  (forall text : jsstring,
      text ∈ keepTexts prelim
      <-> consecutivePair (Js.sort numerically (survivedFrames text prelim)))
  /\ Forall2
       (fun p o =>
          frameNumber o = frameNumber p
          /\ forall t, t ∈ texts o
               <-> t ∈ texts p
                   /\ consecutivePair
                        (Js.sort numerically (survivedFrames (line_text t) prelim)))
       prelim (filterSubtitleLike env frames)
  /\ (forall l : Line, truthy (line_text l) = true ->
        persistencePass [frameOf 3 [l]] = [frameOf 3 []]
        /\ persistencePass [frameOf 3 [l]; frameOf 4 [l]] = [frameOf 3 [l]; frameOf 4 [l]]
        /\ persistencePass [frameOf 3 [l]; frameOf 5 [l]] = [frameOf 3 []; frameOf 5 []]).
Proof.
  intros Hreq prelim.
  assert (Hkeep : forall text : jsstring,
             text ∈ keepTexts prelim
             <-> consecutivePair (Js.sort numerically (survivedFrames text prelim))).
  { intros text. rewrite elem_of_keepTexts. split; [by intros [_ ?]|].
    intros Hc. split; [|done]. destruct text as [|c text]; [|done].
    unfold prelim in Hc. rewrite survivedFrames_empty_key in Hc.
    destruct Hc as (n & Hn & _). by apply elem_of_nil in Hn. }
  split; [exact Hkeep|]. split.
  - unfold filterSubtitleLike. rewrite Hreq. cbn [negb]. fold prelim.
    unfold persistencePass. apply Forall2_fmap_r, Forall_Forall2_diag, Forall_forall.
    intros p _. unfold setTexts. cbn [frameNumber]. split; [done|].
    intros t. cbn [texts]. rewrite elem_of_List_filter, bool_decide_eq_true, Hkeep. done.
  - intros l Hl.
    assert (Hin : forall fs, bool_decide (line_text l ∈ keepTexts fs) = true
                             <-> consecutivePair
                                   (Js.sort numerically (survivedFrames (line_text l) fs))).
    { intros fs. rewrite bool_decide_eq_true, elem_of_keepTexts.
      split; [by intros [_ ?]|by split]. }
    unfold persistencePass, frameOf, setTexts.
    cbn [map texts framePath frameName frameNumber List.filter].
    repeat split.
    + destruct (bool_decide _) eqn:Hb; [|done]. apply Hin in Hb.
      unfold survivedFrames in Hb. cbn [flat_map texts frameNumber] in Hb.
      rewrite survived_alone in Hb. destruct Hb as (n & Hn & Hn').
      cbn in Hn, Hn'. apply list_elem_of_singleton in Hn, Hn'. lia.
    + destruct (bool_decide _) eqn:Hb; [done|]. apply not_true_iff_false in Hb.
      exfalso. apply Hb, Hin. unfold survivedFrames.
      cbn [flat_map texts frameNumber]. rewrite survived_alone.
      cbn [map app]. rewrite sort_numerically_two by lia.
      exists 3. split; [left|right; left].
    + destruct (bool_decide _) eqn:Hb; [|done]. apply Hin in Hb.
      unfold survivedFrames in Hb. cbn [flat_map texts frameNumber] in Hb.
      rewrite survived_alone in Hb. cbn [map app] in Hb.
      rewrite sort_numerically_two in Hb by lia. destruct Hb as (n & Hn & Hn').
      rewrite !elem_of_cons in Hn, Hn'. rewrite !elem_of_nil in Hn, Hn'. lia.
Qed.

Lemma persistence_filtering_witness :
  requirePersistence defaultEnv = true
  /\ (js "GOOD EVENING" ∈ keepTexts (map (prelimFrame defaultEnv) eveningFrames)
      <-> consecutivePair
            (Js.sort numerically
               (survivedFrames (js "GOOD EVENING")
                  (map (prelimFrame defaultEnv) eveningFrames))))
  /\ truthy (line_text eveningLine) = true
  /\ persistencePass [frameOf 3 [eveningLine]] = [frameOf 3 []]
  /\ persistencePass [frameOf 3 [eveningLine]; frameOf 4 [eveningLine]]
     = [frameOf 3 [eveningLine]; frameOf 4 [eveningLine]]
  /\ persistencePass [frameOf 3 [eveningLine]; frameOf 5 [eveningLine]]
     = [frameOf 3 []; frameOf 5 []].
Proof.
  destruct (persistence_filtering defaultEnv eveningFrames eq_refl) as (H1 & _ & H3).
  split; [reflexivity|]. split; [apply H1|]. split; [reflexivity|].
  apply H3. reflexivity.
Defined.

End PersistenceTheorem.

(** ** Timeline synthesis *)

Section Timeline.

Import SubtitleComposer.

Lemma Qdiv_le_mono (fps : Q) (a b : Z) :
  (0 < fps)%Q -> a <= b -> (inject_Z a / fps <= inject_Z b / fps)%Q.
Proof.
  intros Hfps Hab. unfold Qdiv. apply Qmult_le_compat_r.
  - by rewrite <- Zle_Qle.
  - apply Qlt_le_weak, Qinv_lt_0_compat, Hfps.
Qed.

Lemma Qdiv_lt_mono (fps : Q) (a b : Z) :
  (0 < fps)%Q -> a < b -> (inject_Z a / fps < inject_Z b / fps)%Q.
Proof.
  intros Hfps Hab. unfold Qdiv. apply Qmult_lt_compat_r.
  - apply Qinv_lt_0_compat, Hfps.
  - by rewrite <- Zlt_Qlt.
Qed.

Lemma Qdiv_1_r (q : Q) : (q / 1 == q)%Q.
Proof. unfold Qdiv. change (/ 1)%Q with 1%Q. apply Qmult_1_r. Qed.

Lemma second_bound (m m' : Z) : m = m' -> (inject_Z m / 1 == inject_Z m')%Q.
Proof. intros ->. apply Qdiv_1_r. Qed.

Lemma StronglySorted_snoc {A} (R : A -> A -> Prop) (l : list A) (x : A) :
  StronglySorted R l -> Forall (fun y => R y x) l -> StronglySorted R (l ++ [x]).
Proof.
  induction 1 as [|a l Hl IH Ha]; intros Hx; simpl.
  - repeat constructor.
  - apply Forall_cons in Hx as [Hax Hx]. constructor; [by apply IH|].
    apply Forall_app. split; [done|by constructor].
Qed.

Lemma StronglySorted_snoc_inv {A} (R : A -> A -> Prop) (l : list A) (x : A) :
  StronglySorted R (l ++ [x]) -> StronglySorted R l /\ Forall (fun y => R y x) l.
Proof.
  induction l as [|a l IH]; simpl; intros H.
  - split; constructor.
  - apply StronglySorted_inv in H as [Hl Ha]. destruct (IH Hl) as [Hl' Hx].
    apply Forall_app in Ha as [Ha Hax]. split.
    + by constructor.
    + constructor; [by apply Forall_inv in Hax|done].
Qed.

(** The effect of one iteration of the loop of [mergeFrameTexts]. *)
Lemma mergeStep_first fps events f :
  mergeStep fps (events, None) f
  = (events, Some {| ev_text := ft_text f;
                     ev_start := inject_Z (ft_frameNumber f - 1) / fps;
                     ev_end := inject_Z (ft_frameNumber f) / fps |}).
Proof. reflexivity. Qed.

Lemma mergeStep_same fps events current f :
  ft_text f = ev_text current ->
  mergeStep fps (events, Some current) f
  = (events, Some {| ev_text := ev_text current; ev_start := ev_start current;
                     ev_end := inject_Z (ft_frameNumber f) / fps |}).
Proof.
  intros Heq. unfold mergeStep, Js.eqb. cbn [fst snd].
  by rewrite bool_decide_eq_true_2.
Qed.

Lemma mergeStep_change fps events current f :
  ft_text f <> ev_text current ->
  mergeStep fps (events, Some current) f
  = (events ++ [current],
     Some {| ev_text := ft_text f;
             ev_start := inject_Z (ft_frameNumber f - 1) / fps;
             ev_end := inject_Z (ft_frameNumber f) / fps |}).
Proof.
  intros Hne. unfold mergeStep, Js.eqb. cbn [fst snd].
  by rewrite bool_decide_eq_false_2.
Qed.

Lemma mergeInv_open fps k n (l : list SubtitleEvent) t :
  (0 < fps)%Q -> k < n ->
  StronglySorted before l ->
  Forall (fun e => (ev_start e < ev_end e)%Q /\ (ev_end e <= inject_Z k / fps)%Q) l ->
  let new := {| ev_text := t; ev_start := inject_Z (n - 1) / fps;
                ev_end := inject_Z n / fps |} in
  StronglySorted before (l ++ [new])
  /\ Forall (fun e => (ev_start e < ev_end e)%Q /\ (ev_end e <= inject_Z n / fps)%Q)
       (l ++ [new]).
Proof.
  intros Hfps Hkn Hs Hb new.
  assert (Hk : (inject_Z k / fps <= inject_Z (n - 1) / fps)%Q)
    by (apply Qdiv_le_mono; [done|lia]).
  assert (Hn : (inject_Z (n - 1) / fps < inject_Z n / fps)%Q)
    by (apply Qdiv_lt_mono; [done|lia]).
  split.
  - apply StronglySorted_snoc; [done|].
    eapply Forall_impl; [exact Hb|]. intros e [He1 He2]. unfold before, new. cbn.
    split.
    + by eapply Qle_trans.
    + eapply Qlt_le_trans; [exact He1|]. by eapply Qle_trans.
  - apply Forall_app. split.
    + eapply Forall_impl; [exact Hb|]. intros e [He1 He2]. split; [done|].
      eapply Qle_trans; [exact He2|]. eapply Qle_trans; [exact Hk|].
      by apply Qlt_le_weak.
    + constructor; [|constructor]. unfold new. cbn. split; [done|apply Qle_refl].
Qed.

Lemma mergeStep_inv fps k st f :
  (0 < fps)%Q -> k < ft_frameNumber f ->
  mergeInv fps k st -> mergeInv fps (ft_frameNumber f) (mergeStep fps st f).
Proof.
  intros Hfps Hk [Hs Hb]. destruct st as [events [current|]].
  - destruct (decide (ft_text f = ev_text current)) as [Heq|Hne].
    + rewrite mergeStep_same by done. unfold mergeInv, closeEvents in *.
      cbn [fst snd] in *.
      apply StronglySorted_snoc_inv in Hs as [Hs Hcur].
      apply Forall_app in Hb as [Hb Hc]. apply Forall_inv in Hc as [Hc1 Hc2].
      assert (Hn : (inject_Z k / fps < inject_Z (ft_frameNumber f) / fps)%Q)
        by (by apply Qdiv_lt_mono).
      split.
      * apply StronglySorted_snoc; [done|]. exact Hcur.
      * apply Forall_app. split.
        -- eapply Forall_impl; [exact Hb|]. intros e [He1 He2]. split; [done|].
           eapply Qle_trans; [exact He2|]. by apply Qlt_le_weak.
        -- constructor; [|constructor]. cbn. split; [|apply Qle_refl].
           eapply Qlt_le_trans; [exact Hc1|]. eapply Qle_trans; [exact Hc2|].
           by apply Qlt_le_weak.
    + rewrite mergeStep_change by done. unfold mergeInv, closeEvents in *.
      cbn [fst snd] in *. by apply mergeInv_open with (k := k).
  - rewrite mergeStep_first. unfold mergeInv, closeEvents in *.
    cbn [fst snd] in *. by apply mergeInv_open with (k := k).
Qed.

Lemma merge_fold_inv fps (frames : list FrameText) k st :
  (0 < fps)%Q -> increasingFrom k (map ft_frameNumber frames) ->
  mergeInv fps k st ->
  exists k', mergeInv fps k' (fold_left (mergeStep fps) frames st).
Proof.
  intros Hfps. revert k st. induction frames as [|f frames IH]; intros k st Hinc Hinv.
  - by exists k.
  - destruct Hinc as [Hk Hinc]. cbn [fold_left].
    eapply IH; [exact Hinc|]. by apply mergeStep_inv with (k := k).
Qed.

Lemma mergeFrameTexts_ordered (frames : list FrameText) (fps : Q) :
  (0 < fps)%Q -> strictlyIncreasing (map ft_frameNumber frames) ->
  StronglySorted before (mergeFrameTexts frames fps)
  /\ Forall (fun e => (ev_start e < ev_end e)%Q) (mergeFrameTexts frames fps).
Proof.
  intros Hfps Hinc. unfold mergeFrameTexts.
  assert (H0 : forall k, mergeInv fps k ([], None)) by (intros k; split; constructor).
  destruct frames as [|f frames].
  - split; constructor.
  - destruct (merge_fold_inv fps (f :: frames) (ft_frameNumber f - 1) ([], None))
      as (k' & Hs & Hb); [done| |done|].
    + split; [lia|exact Hinc].
    + split; [done|]. eapply Forall_impl; [exact Hb|]. by intros e [? _].
Qed.

Lemma StronglySorted_List_filter {A} (R : A -> A -> Prop) (p : A -> bool) (l : list A) :
  StronglySorted R l -> StronglySorted R (List.filter p l).
Proof.
  induction 1 as [|a l Hl IH Ha]; cbn [List.filter]; [constructor|].
  destruct (p a); [|done]. constructor; [done|].
  apply Forall_forall. intros b Hb. apply elem_of_List_filter in Hb as [Hb _].
  by apply (proj1 (Forall_forall _ _) Ha).
Qed.

Lemma StronglySorted_map {A B} (R : A -> A -> Prop) (S : B -> B -> Prop) (f : A -> B)
  (l : list A) :
  (forall a b, R a b -> S (f a) (f b)) ->
  StronglySorted R l -> StronglySorted S (map f l).
Proof.
  intros HRS. induction 1 as [|a l Hl IH Ha]; cbn [map]; constructor; [done|].
  apply Forall_map. eapply Forall_impl; [exact Ha|]. intros b. apply HRS.
Qed.

Lemma Forall_List_filter {A} (P : A -> Prop) (p : A -> bool) (l : list A) :
  Forall P l -> Forall P (List.filter p l).
Proof.
  intros H. apply Forall_forall. intros a Ha.
  apply elem_of_List_filter in Ha as [Ha _]. by apply (proj1 (Forall_forall _ _) H).
Qed.

Lemma merge_three_same (n : Z) (t : jsstring) :
  mergeFrameTexts [frameText n t; frameText (n + 1) t; frameText (n + 2) t] 1
  = [ {| ev_text := t; ev_start := inject_Z (n - 1) / 1;
         ev_end := inject_Z (n + 2) / 1 |} ].
Proof.
  unfold mergeFrameTexts. cbn [fold_left]. rewrite mergeStep_first.
  rewrite mergeStep_same by done. rewrite mergeStep_same by done. reflexivity.
Qed.

(** The text chosen by [decided] is empty only for an empty text. *)
Lemma decide_truthy env opts vW (pf : FrameText) :
  truthy (ft_text pf) = true -> truthy (ft_text (decide_ env opts vW pf)) = true.
Proof.
  intros Hs. unfold decide_. rewrite Hs. cbn [negb ft_text].
  destruct (_ && _); [|done]. unfold wrapTwoHalves.
  destruct (isCJK (ft_text pf)).
  - by destruct (join [] _).
  - by destruct (join (js " ") _).
Qed.

(** C2. Run-length merge: while the text of a frame equals the text of the open
    event, the end of the open event moves to the end of that frame and nothing
    is closed; on a change the open event is closed and a new one is opened on
    the interval of the frame.  Consequently three consecutive frames with one
    text give exactly one event covering the three intervals, and the texts
    A, B, A over three consecutive frames give three events, none overlapping. *)
Theorem run_length_merge :
  (forall fps events current f,
      (ft_text f = ev_text current ->
       mergeStep fps (events, Some current) f
       = (events, Some {| ev_text := ev_text current; ev_start := ev_start current;
                          ev_end := inject_Z (ft_frameNumber f) / fps |}))
      /\ (ft_text f <> ev_text current ->
          mergeStep fps (events, Some current) f
          = (events ++ [current],
             Some {| ev_text := ft_text f;
                     ev_start := inject_Z (ft_frameNumber f - 1) / fps;
                     ev_end := inject_Z (ft_frameNumber f) / fps |})))
  /\ (forall frames fps,
        mergeFrameTexts frames fps
        = closeEvents (fold_left (mergeStep fps) frames ([], None)))
  /\ (forall n t,
        exists e,
          mergeFrameTexts [frameText n t; frameText (n + 1) t; frameText (n + 2) t] 1 = [e]
          /\ ev_text e = t
          /\ (ev_start e == inject_Z (n - 1))%Q
          /\ (ev_end e == inject_Z (n + 2))%Q)
  /\ (forall env opts vW vH n texts,
        truthy (ft_text (perFrame (translatedTexts n texts))) = true ->
        exists d,
          overlaySubtitlesBottomCenter env opts vW vH
            [translatedTexts n texts; translatedTexts (n + 1) texts;
             translatedTexts (n + 2) texts]
          = [d]
          /\ (dlg_startSec d == inject_Z (n - 1))%Q
          /\ (dlg_endSec d == inject_Z (n + 2))%Q)
  /\ (forall n a b, a <> b ->
        exists e1 e2 e3,
          mergeFrameTexts [frameText n a; frameText (n + 1) b; frameText (n + 2) a] 1
          = [e1; e2; e3]
          /\ (ev_text e1 = a /\ ev_text e2 = b /\ ev_text e3 = a)
          /\ (ev_start e1 == inject_Z (n - 1) /\ ev_end e1 == inject_Z n)%Q
          /\ (ev_start e2 == inject_Z n /\ ev_end e2 == inject_Z (n + 1))%Q
          /\ (ev_start e3 == inject_Z (n + 1) /\ ev_end e3 == inject_Z (n + 2))%Q
          /\ StronglySorted before [e1; e2; e3]).
Proof.
  split; [|split; [|split; [|split]]].
  - intros fps events current f. split.
    + apply mergeStep_same.
    + apply mergeStep_change.
  - reflexivity.
  - intros n t. eexists. split; [apply merge_three_same|].
    cbn [ev_text ev_start ev_end].
    split; [done|]. split; [apply Qdiv_1_r|]. apply Qdiv_1_r.
  - intros env opts vW vH n texts Hs. unfold overlaySubtitlesBottomCenter.
    cbn [map].
    set (s := ft_text (decide_ env opts vW (perFrame (translatedTexts n texts)))).
    assert (Hd : forall m, decide_ env opts vW (perFrame (translatedTexts m texts))
                           = frameText m s).
    { intros m. unfold s, decide_, perFrame, translatedTexts, frameText.
      cbn [SubtitleTranslator.tf_texts SubtitleTranslator.tf_frameNumber
           ft_text ft_frameNumber].
      by destruct (negb _). }
    rewrite !Hd, merge_three_same. cbn [List.filter ev_text].
    assert (Hts : truthy s = true) by (by apply decide_truthy).
    rewrite Hts. cbn [map]. eexists. split; [reflexivity|].
    cbn [dlg_startSec dlg_endSec dialogueOf ev_start ev_end].
    split; apply Qdiv_1_r.
  - intros n a b Hab.
    assert (Hmerge : mergeFrameTexts
                       [frameText n a; frameText (n + 1) b; frameText (n + 2) a] 1
                     = [ {| ev_text := a; ev_start := inject_Z (n - 1) / 1;
                            ev_end := inject_Z n / 1 |};
                         {| ev_text := b; ev_start := inject_Z (n + 1 - 1) / 1;
                            ev_end := inject_Z (n + 1) / 1 |};
                         {| ev_text := a; ev_start := inject_Z (n + 2 - 1) / 1;
                            ev_end := inject_Z (n + 2) / 1 |} ]).
    { unfold mergeFrameTexts. cbn [fold_left]. rewrite mergeStep_first.
      rewrite mergeStep_change by (cbn; congruence).
      rewrite mergeStep_change by (cbn; congruence). reflexivity. }
    assert (Hsorted : StronglySorted before
                        (mergeFrameTexts
                           [frameText n a; frameText (n + 1) b; frameText (n + 2) a] 1)).
    { apply mergeFrameTexts_ordered; [reflexivity|]. cbn. lia. }
    rewrite Hmerge in Hsorted.
    do 3 eexists. split; [exact Hmerge|].
    cbn [ev_text ev_start ev_end]. split; [done|].
    repeat split; try (apply second_bound; lia). exact Hsorted.
Qed.

Lemma run_length_merge_witness :
  (js "A" <> js "B"
   /\ exists e1 e2 e3,
       mergeFrameTexts
         [frameText 1 (js "A"); frameText (1 + 1) (js "B"); frameText (1 + 2) (js "A")] 1
       = [e1; e2; e3]
       /\ (ev_text e1 = js "A" /\ ev_text e2 = js "B" /\ ev_text e3 = js "A")
       /\ (ev_start e1 == inject_Z (1 - 1) /\ ev_end e1 == inject_Z 1)%Q
       /\ (ev_start e2 == inject_Z 1 /\ ev_end e2 == inject_Z (1 + 1))%Q
       /\ (ev_start e3 == inject_Z (1 + 1) /\ ev_end e3 == inject_Z (1 + 2))%Q
       /\ StronglySorted before [e1; e2; e3])
  /\ (truthy
        (ft_text
           (perFrame
              (translatedTexts 1
                 [ {| SubtitleTranslator.tt_line := eveningLine;
                      SubtitleTranslator.translatedText := js "BONSOIR" |} ])))
      = true
      /\ exists d,
          overlaySubtitlesBottomCenter emptyEnv noOptions 1280 720
            [translatedTexts 1
               [ {| SubtitleTranslator.tt_line := eveningLine;
                    SubtitleTranslator.translatedText := js "BONSOIR" |} ];
             translatedTexts (1 + 1)
               [ {| SubtitleTranslator.tt_line := eveningLine;
                    SubtitleTranslator.translatedText := js "BONSOIR" |} ];
             translatedTexts (1 + 2)
               [ {| SubtitleTranslator.tt_line := eveningLine;
                    SubtitleTranslator.translatedText := js "BONSOIR" |} ]]
          = [d]
          /\ (dlg_startSec d == inject_Z (1 - 1))%Q
          /\ (dlg_endSec d == inject_Z (1 + 2))%Q).
Proof.
  destruct run_length_merge as (_ & _ & _ & Hemit & Haba).
  split.
  - split; [discriminate|]. apply (Haba 1 (js "A") (js "B")). discriminate.
  - split; [reflexivity|]. apply (Hemit emptyEnv noOptions 1280 720 1). reflexivity.
Defined.

Lemma StronglySorted_weaken {A} (R S : A -> A -> Prop) (l : list A) :
  (forall a b, R a b -> S a b) -> StronglySorted R l -> StronglySorted S l.
Proof.
  intros HRS. induction 1 as [|a l Hl IH Ha]; constructor; [done|].
  eapply Forall_impl; [exact Ha|]. intros b. apply HRS.
Qed.

(** The centiseconds printed by [assTime] grow with the time. *)
Lemma assCentis_mono (s1 s2 : Q) : (s1 <= s2)%Q -> assCentis s1 <= assCentis s2.
Proof.
  intros H. unfold assCentis, Js.round. apply Z.max_le_compat_l, Qfloor_resp_le.
  apply Qplus_le_compat; [|apply Qle_refl].
  by apply Qmult_le_compat_r.
Qed.

(** C7. For per-frame assignments with strictly increasing frame numbers, the
    events produced by the merge, and the events emitted from them by
    [overlaySubtitlesBottomCenter], have non-empty half-open time ranges, are
    pairwise non-overlapping and appear by increasing start time; the printed
    times of the emitted events, which are [assTime] of these bounds, do not
    overlap either. *)
Theorem events_ordered_disjoint :
  (forall (frames : list FrameText) (fps : Q),
      (0 < fps)%Q -> strictlyIncreasing (map ft_frameNumber frames) ->
      StronglySorted before (mergeFrameTexts frames fps)
      /\ Forall (fun e => (ev_start e < ev_end e)%Q) (mergeFrameTexts frames fps))
  /\ (forall env opts vW vH (translatedFrames : list SubtitleTranslator.TranslatedFrame),
        strictlyIncreasing (map SubtitleTranslator.tf_frameNumber translatedFrames) ->
        StronglySorted dialogueBefore
          (overlaySubtitlesBottomCenter env opts vW vH translatedFrames)
        /\ Forall (fun d => (dlg_startSec d < dlg_endSec d)%Q)
             (overlaySubtitlesBottomCenter env opts vW vH translatedFrames)
        /\ StronglySorted printedBefore
             (overlaySubtitlesBottomCenter env opts vW vH translatedFrames)
        /\ Forall (fun d => dlg_start d = assTime (dlg_startSec d)
                            /\ dlg_end d = assTime (dlg_endSec d))
             (overlaySubtitlesBottomCenter env opts vW vH translatedFrames)).
Proof.
  split; [apply mergeFrameTexts_ordered|].
  intros env opts vW vH tfs Hinc. unfold overlaySubtitlesBottomCenter.
  set (decided := map (fun f => decide_ env opts vW (perFrame f)) tfs).
  assert (Hnum : map ft_frameNumber decided = map SubtitleTranslator.tf_frameNumber tfs).
  { unfold decided. rewrite map_map. apply map_ext. intros f.
    unfold decide_, perFrame. cbn [ft_text ft_frameNumber].
    by destruct (negb _). }
  destruct (mergeFrameTexts_ordered decided 1) as [Hs Hne];
    [reflexivity|by rewrite Hnum|].
  assert (Hd : StronglySorted dialogueBefore
                 (map (dialogueOf env opts vW vH)
                    (List.filter (fun ev => truthy (ev_text ev))
                       (mergeFrameTexts decided 1)))).
  { apply StronglySorted_map with (R := before); [by intros a b [? ?]|].
    by apply StronglySorted_List_filter. }
  split; [exact Hd|]. split; [|split].
  - apply Forall_map. apply Forall_List_filter.
    eapply Forall_impl; [exact Hne|]. by intros e He.
  - eapply StronglySorted_weaken; [|exact Hd].
    intros a b [Hab _]. by apply assCentis_mono.
  - apply Forall_map, Forall_forall. by intros e _.
Qed.

Lemma events_ordered_disjoint_witness :
  ((0 < 1)%Q
   /\ strictlyIncreasing
        (map ft_frameNumber
           [frameText 1 (js "A"); frameText 2 (js "A"); frameText 4 (js "B")])
   /\ StronglySorted before
        (mergeFrameTexts
           [frameText 1 (js "A"); frameText 2 (js "A"); frameText 4 (js "B")] 1)
   /\ Forall (fun e => (ev_start e < ev_end e)%Q)
        (mergeFrameTexts
           [frameText 1 (js "A"); frameText 2 (js "A"); frameText 4 (js "B")] 1))
  /\ (strictlyIncreasing
        (map SubtitleTranslator.tf_frameNumber
           [translatedFrameOf 1 (js "A"); translatedFrameOf 2 (js "A");
            translatedFrameOf 4 (js "B")])
      /\ StronglySorted dialogueBefore
           (overlaySubtitlesBottomCenter emptyEnv noOptions 1280 720
              [translatedFrameOf 1 (js "A"); translatedFrameOf 2 (js "A");
               translatedFrameOf 4 (js "B")])
      /\ Forall (fun d => (dlg_startSec d < dlg_endSec d)%Q)
           (overlaySubtitlesBottomCenter emptyEnv noOptions 1280 720
              [translatedFrameOf 1 (js "A"); translatedFrameOf 2 (js "A");
               translatedFrameOf 4 (js "B")])
      /\ StronglySorted printedBefore
           (overlaySubtitlesBottomCenter emptyEnv noOptions 1280 720
              [translatedFrameOf 1 (js "A"); translatedFrameOf 2 (js "A");
               translatedFrameOf 4 (js "B")])
      /\ Forall (fun d => dlg_start d = assTime (dlg_startSec d)
                          /\ dlg_end d = assTime (dlg_endSec d))
           (overlaySubtitlesBottomCenter emptyEnv noOptions 1280 720
              [translatedFrameOf 1 (js "A"); translatedFrameOf 2 (js "A");
               translatedFrameOf 4 (js "B")])).
Proof.
  split.
  - split; [reflexivity|]. split; [cbn; lia|].
    apply (proj1 events_ordered_disjoint
             [frameText 1 (js "A"); frameText 2 (js "A"); frameText 4 (js "B")] 1%Q).
    + reflexivity.
    + cbn. lia.
  - split; [cbn; lia|].
    apply (proj2 events_ordered_disjoint emptyEnv noOptions 1280 720
             [translatedFrameOf 1 (js "A"); translatedFrameOf 2 (js "A");
              translatedFrameOf 4 (js "B")]).
    cbn. lia.
Defined.

End Timeline.

(** ** Box clustering *)

Section Clustering.

Import SubtitleTranslator.

Lemma half_le_div (i m : Z) : 1 <= m -> (1 # 2 <= inject_Z i / inject_Z m)%Q <-> m <= 2 * i.
Proof.
  intros Hm. destruct m as [|p|p]; try lia.
  unfold Qle, Qdiv, Qmult, Qinv, inject_Z. cbn. lia.
Qed.

Lemma overlapsY_iff (a : OCRBox) (y h : Z) :
  overlapsY a y h = true
  <-> Z.max 1 (Z.min (box_height a) h)
      <= 2 * (Z.max (Z.max (box_y a) y) (Z.min (box_y a + box_height a) (y + h))
              - Z.max (box_y a) y).
Proof.
  unfold overlapsY. rewrite Qle_bool_iff. apply half_le_div. lia.
Qed.

Lemma adjacent_iff (a b : OCRBox) :
  adjacent a b
  <-> 0 < Z.min (box_height a) (box_height b)
      /\ Z.min (box_height a) (box_height b) <= 2 * interHeight a b.
Proof.
  unfold adjacent, overlapFraction.
  set (m := Z.min (box_height a) (box_height b)).
  assert (Hi : 0 <= interHeight a b) by (unfold interHeight; lia).
  destruct (Z_lt_le_dec 0 m) as [Hm|Hm].
  - rewrite half_le_div by lia. intuition lia.
  - split; [|lia]. intros H. exfalso. revert H.
    destruct m as [|p|p]; try lia.
    + unfold Qle, Qdiv, Qmult, Qinv, inject_Z. cbn. lia.
    + unfold Qle, Qdiv, Qmult, Qinv, inject_Z. cbn. lia.
Qed.

Lemma adjacent_sym (a b : OCRBox) : adjacent a b -> adjacent b a.
Proof.
  rewrite !adjacent_iff. unfold interHeight.
  rewrite (Z.min_comm (box_height b)), (Z.min_comm (bottom b)), (Z.max_comm (box_y b)).
  done.
Qed.

Lemma pairwise_Permutation {A} (R : A -> A -> Prop) (l l' : list A) :
  (forall a b, R a b -> R b a) -> l ≡ₚ l' -> pairwise R l -> pairwise R l'.
Proof.
  intros Hsym. induction 1 as [|x l l' Hp IH|x y l|l l' l'' _ IH1 _ IH2]; cbn [pairwise].
  - done.
  - intros [Hx Hl]. split; [by rewrite <- Hp|by apply IH].
  - intros [Hy [Hx Hl]]. apply Forall_cons in Hy as [Hyx Hy]. split; [|done].
    constructor; [by apply Hsym|done].
  - intros H. by apply IH2, IH1.
Qed.

Lemma sort_byYX_sorted (boxes : list OCRBox) : StronglySorted yLe (Js.sort byYX boxes).
Proof.
  apply sort_sorted; unfold yLe, byYX.
  - intros a b c. lia.
  - intros a b. destruct (Z.eqb_spec (box_y a - box_y b) 0); cbn [negb]; lia.
  - intros a b. destruct (Z.eqb_spec (box_y a - box_y b) 0); cbn [negb]; lia.
Qed.

(** The cluster obtained when [t] joins [c]. *)
Lemma place_join (t : OCRBox) (c : Cluster) (rest : list Cluster) :
  overlapsY t (span_y c) (span_height c) = true ->
  place t (c :: rest)
  = {| items := items c ++ [t];
       span_y := Z.min (span_y c) (box_y t);
       span_height := Z.max (span_y c + span_height c) (box_y t + box_height t)
                      - Z.min (span_y c) (box_y t) |} :: rest.
Proof. intros H. cbn [place]. by rewrite H. Qed.

Lemma place_skip (t : OCRBox) (c : Cluster) (rest : list Cluster) :
  overlapsY t (span_y c) (span_height c) = false ->
  place t (c :: rest) = c :: place t rest.
Proof. intros H. cbn [place]. by rewrite H. Qed.

Lemma spanOk_single (t : OCRBox) :
  spanOk {| items := [t]; span_y := box_y t; span_height := box_height t |}.
Proof.
  unfold spanOk, bottom. cbn [items span_y span_height]. split; [|split].
  - exists t. split; [left|done].
  - exists t. split; [left|done].
  - intros b Hb. apply list_elem_of_singleton in Hb as ->. lia.
Qed.

Lemma spanOk_join (t : OCRBox) (c : Cluster) :
  spanOk c -> (forall b, b ∈ items c -> box_y b <= box_y t) ->
  spanOk {| items := items c ++ [t];
            span_y := Z.min (span_y c) (box_y t);
            span_height := Z.max (span_y c + span_height c) (box_y t + box_height t)
                           - Z.min (span_y c) (box_y t) |}.
Proof.
  intros ((b1 & Hb1 & Hy1) & (bm & Hbm & Hym) & Hall) Hle.
  assert (Hc : span_y c <= box_y t) by (rewrite <- Hy1; by apply Hle).
  unfold spanOk, bottom in *. cbn [items span_y span_height]. split; [|split].
  - exists b1. split; [apply elem_of_app; by left|lia].
  - destruct (Z_le_gt_dec (box_y t + box_height t) (span_y c + span_height c)).
    + exists bm. split; [apply elem_of_app; by left|lia].
    + exists t. split; [apply elem_of_app; right; left|lia].
  - intros b Hb. apply elem_of_app in Hb as [Hb|Hb].
    + specialize (Hall b Hb). lia.
    + apply list_elem_of_singleton in Hb as ->. lia.
Qed.

(** A box that joins a cluster overlaps, by at least the threshold, the member
    that reaches lowest. *)
Lemma join_adjacent (t : OCRBox) (c : Cluster) :
  spanOk c -> (forall b, b ∈ items c -> box_y b <= box_y t) ->
  overlapsY t (span_y c) (span_height c) = true ->
  exists b, b ∈ items c /\ adjacent t b.
Proof.
  intros ((b1 & Hb1 & Hy1) & (bm & Hbm & Hym) & Hall) Hle Hov.
  apply overlapsY_iff in Hov. exists bm. split; [done|].
  apply adjacent_iff. unfold interHeight, bottom in *.
  pose proof (Hle bm Hbm). pose proof (Hall bm Hbm). pose proof (Hle b1 Hb1). lia.
Qed.

(** A box that overlaps every member by at least the threshold joins. *)
Lemma adjacent_all_join (t : OCRBox) (c : Cluster) :
  spanOk c -> (forall b, b ∈ items c -> box_y b <= box_y t /\ adjacent t b) ->
  overlapsY t (span_y c) (span_height c) = true.
Proof.
  intros ((b1 & Hb1 & Hy1) & (bm & Hbm & Hym) & Hall) Hadj.
  apply overlapsY_iff.
  destruct (Hadj b1 Hb1) as [Hle1 Ha1]. destruct (Hadj bm Hbm) as [Hlem Ham].
  apply adjacent_iff in Ha1, Ham. unfold interHeight, bottom in *.
  pose proof (Hall b1 Hb1). pose proof (Hall bm Hbm). lia.
Qed.

Lemma clusterInv_weaken boxes (t : OCRBox) rest c :
  clusterInv boxes (t :: rest) c -> clusterInv boxes rest c.
Proof.
  intros (Hs & Hm & Hc). split; [done|]. split; [|done].
  intros b Hb. destruct (Hm b Hb) as [Hin Hle]. split; [done|].
  intros t' Ht'. apply Hle. by right.
Qed.

(** Placing one box keeps the invariant of every cluster. *)
Lemma place_inv boxes (t : OCRBox) rest (lines : list Cluster) :
  t ∈ boxes -> Forall (yLe t) rest ->
  Forall (clusterInv boxes (t :: rest)) lines ->
  Forall (clusterInv boxes rest) (place t lines).
Proof.
  intros Ht Hsorted. induction 1 as [|c lines Hc Hlines IH].
  - cbn [place]. constructor; [|constructor]. split; [apply spanOk_single|].
    cbn [items]. split.
    + intros b Hb. apply list_elem_of_singleton in Hb as ->. split; [done|].
      intros t' Ht'. by apply (proj1 (Forall_forall _ _) Hsorted).
    + intros a b Ha Hb. apply list_elem_of_singleton in Ha as ->, Hb as ->.
      apply connected_refl.
  - destruct (overlapsY t (span_y c) (span_height c)) eqn:Hov.
    + rewrite place_join by done. constructor.
      2:{ eapply Forall_impl; [exact Hlines|]. intros c'. apply clusterInv_weaken. }
      destruct Hc as (Hs & Hm & Hconn).
      assert (Hle : forall b, b ∈ items c -> box_y b <= box_y t).
      { intros b Hb. apply (Hm b Hb). left. }
      destruct (join_adjacent t c Hs Hle Hov) as (bm & Hbm & Hadj).
      assert (Htm : connected boxes t bm).
      { apply connected_edge; [done|by apply Hm|done]. }
      split; [by apply spanOk_join|]. cbn [items]. split.
      * intros b Hb. apply elem_of_app in Hb as [Hb|Hb].
        -- destruct (Hm b Hb) as [Hin Hb']. split; [done|].
           intros t' Ht'. apply Hb'. by right.
        -- apply list_elem_of_singleton in Hb as ->. split; [done|].
           intros t' Ht'. by apply (proj1 (Forall_forall _ _) Hsorted).
      * intros a b Ha Hb.
        apply elem_of_app in Ha as [Ha|Ha]; apply elem_of_app in Hb as [Hb|Hb];
          try apply list_elem_of_singleton in Ha as ->;
          try apply list_elem_of_singleton in Hb as ->.
        -- by apply Hconn.
        -- eapply connected_trans; [by apply (Hconn a bm)|by apply connected_sym].
        -- eapply connected_trans; [exact Htm|by apply Hconn].
        -- apply connected_refl.
    + rewrite place_skip by done. constructor; [by eapply clusterInv_weaken|done].
Qed.

Lemma fold_place_inv boxes (rest : list OCRBox) (lines : list Cluster) :
  (forall t, t ∈ rest -> t ∈ boxes) -> StronglySorted yLe rest ->
  Forall (clusterInv boxes rest) lines ->
  Forall (clusterInv boxes []) (fold_left (fun lines t => place t lines) rest lines).
Proof.
  revert lines. induction rest as [|t rest IH]; intros lines Hin Hs Hl; [done|].
  cbn [fold_left]. apply StronglySorted_inv in Hs as [Hs Ht]. apply IH.
  - intros t' Ht'. apply Hin. by right.
  - done.
  - apply place_inv; [apply Hin; left|done|done].
Qed.

Lemma place_members (t : OCRBox) (lines : list Cluster) :
  concat (map items (place t lines)) ≡ₚ t :: concat (map items lines).
Proof.
  induction lines as [|c lines IH]; [done|]. cbn [place].
  destruct (overlapsY _ _ _); cbn [map concat items].
  - rewrite <- app_assoc. cbn [app].
    by rewrite <- Permutation_middle.
  - rewrite IH. by rewrite <- Permutation_middle.
Qed.

Lemma fold_place_members (rest : list OCRBox) (lines : list Cluster) :
  concat (map items (fold_left (fun lines t => place t lines) rest lines))
  ≡ₚ concat (map items lines) ++ rest.
Proof.
  revert lines. induction rest as [|t rest IH]; intros lines.
  - by rewrite app_nil_r.
  - cbn [fold_left]. rewrite IH, place_members. by rewrite <- Permutation_middle.
Qed.

(** Every box of the frame is a member of exactly the clusters' member lists. *)
Lemma clusters_members (boxes : list OCRBox) :
  concat (map items (clusters boxes)) ≡ₚ boxes.
Proof.
  unfold clusters. rewrite fold_place_members. cbn [map concat app].
  apply sort_Permutation.
Qed.

Lemma clusters_connected (boxes : list OCRBox) (c : Cluster) (a b : OCRBox) :
  c ∈ clusters boxes -> a ∈ items c -> b ∈ items c -> connected boxes a b.
Proof.
  intros Hc Ha Hb.
  assert (H : Forall (clusterInv boxes []) (clusters boxes)).
  { apply fold_place_inv; [|apply sort_byYX_sorted|constructor].
    intros t. by rewrite elem_of_sort. }
  destruct (proj1 (Forall_forall _ _) H c Hc) as (_ & _ & Hconn). by apply Hconn.
Qed.

(** When the remaining boxes overlap each other and every member, they all
    join the single open cluster. *)
Lemma fold_one_cluster (rest : list OCRBox) (c : Cluster) :
  spanOk c -> StronglySorted yLe rest -> pairwise adjacent rest ->
  (forall t b, t ∈ rest -> b ∈ items c -> box_y b <= box_y t /\ adjacent t b) ->
  exists c', fold_left (fun lines t => place t lines) rest [c] = [c']
             /\ items c' = items c ++ rest.
Proof.
  revert c. induction rest as [|t rest IH]; intros c Hs Hsorted Hpair Hadj.
  - exists c. by rewrite app_nil_r.
  - cbn [fold_left]. apply StronglySorted_inv in Hsorted as [Hsorted Ht].
    destruct Hpair as [Hpt Hpair].
    assert (Hov : overlapsY t (span_y c) (span_height c) = true).
    { apply adjacent_all_join; [done|]. intros b Hb. apply Hadj; [left|done]. }
    rewrite place_join by done.
    edestruct IH as (c' & Hfold & Hitems); [| exact Hsorted | exact Hpair | |].
    + apply spanOk_join; [done|]. intros b Hb. apply Hadj; [left|done].
    + cbn [items]. intros t' b Ht' Hb. apply elem_of_app in Hb as [Hb|Hb].
      * apply Hadj; [by right|done].
      * apply list_elem_of_singleton in Hb as ->. split.
        -- by apply (proj1 (Forall_forall _ _) Ht).
        -- apply adjacent_sym. by apply (proj1 (Forall_forall _ _) Hpt).
    + exists c'. split; [exact Hfold|]. rewrite Hitems. cbn [items].
      by rewrite <- app_assoc.
Qed.

Lemma clusters_pairwise (boxes : list OCRBox) :
  boxes <> [] -> pairwise adjacent boxes ->
  exists c, clusters boxes = [c] /\ items c = Js.sort byYX boxes.
Proof.
  intros Hne Hpair. unfold clusters.
  pose proof (sort_byYX_sorted boxes) as Hsorted.
  assert (Hp : pairwise adjacent (Js.sort byYX boxes)).
  { eapply pairwise_Permutation; [apply adjacent_sym| |exact Hpair].
    symmetry. apply sort_Permutation. }
  destruct (Js.sort byYX boxes) as [|t rest] eqn:Hs.
  - exfalso. apply Hne. apply Permutation_nil. rewrite <- Hs.
    apply sort_Permutation.
  - cbn [fold_left place]. apply StronglySorted_inv in Hsorted as [Hsorted Ht].
    destruct Hp as [Hpt Hp].
    edestruct fold_one_cluster as (c' & Hfold & Hitems);
      [apply (spanOk_single t) | exact Hsorted | exact Hp | |].
    + cbn [items]. intros t' b Ht' Hb. apply list_elem_of_singleton in Hb as ->.
      split.
      * by apply (proj1 (Forall_forall _ _) Ht).
      * apply adjacent_sym. by apply (proj1 (Forall_forall _ _) Hpt).
    + exists c'. split; [exact Hfold|]. by rewrite Hitems.
Qed.

(** C4, as amended.  When all the boxes of a frame pairwise overlap vertically
    by at least 0.5 (intersection height over the shorter height), the
    clusterer places them all in one LineGroup.  In any frame every box is
    placed in a cluster, and two boxes that no chain of boxes of the frame,
    each overlapping the next by at least 0.5, connects are never members of
    the same LineGroup. *)
Theorem clustering_groups (frame : FrameDet) :
  let boxes := det_texts frame in
  (boxes <> [] -> pairwise adjacent boxes ->
   exists c, clusters boxes = [c]
             /\ items c ≡ₚ boxes
             /\ texts (groupTextsIntoLines frame) = [finalize c])
  /\ concat (map items (clusters boxes)) ≡ₚ boxes
  /\ (forall a b, a ∈ boxes -> b ∈ boxes -> ~ connected boxes a b ->
        forall c, c ∈ clusters boxes -> ~ (a ∈ items c /\ b ∈ items c)).
Proof.
  intros boxes. split; [|split].
  - intros Hne Hpair. destruct (clusters_pairwise boxes Hne Hpair) as (c & Hc & Hitems).
    exists c. split; [done|]. split.
    + rewrite Hitems. apply sort_Permutation.
    + unfold groupTextsIntoLines. cbn [texts]. fold boxes. by rewrite Hc.
  - apply clusters_members.
  - intros a b _ _ Hnc c Hc [Ha Hb]. apply Hnc. by eapply clusters_connected.
Qed.

Lemma far_not_connected : ~ connected [tallWord; farWord] tallWord farWord.
Proof.
  assert (H : forall a b, connected [tallWord; farWord] a b ->
                          (box_y a < 50 <-> box_y b < 50)).
  { induction 1 as [a|a b Ha Hb Hadj|a b _ IH|a b c _ IH1 _ IH2].
    - done.
    - apply adjacent_iff in Hadj. revert Hadj. unfold interHeight, bottom.
      rewrite !elem_of_cons in Ha, Hb. rewrite !elem_of_nil in Ha, Hb.
      destruct Ha as [->|[->|[]]]; destruct Hb as [->|[->|[]]]; box_arith.
    - by symmetry.
    - by etrans. }
  intros Hc. apply H in Hc. unfold tallWord, farWord, wordBox in Hc.
  cbn [box_y] in Hc. destruct Hc as [Hc _]. assert (100 < 50) by (apply Hc; lia). lia.
Qed.

Lemma clustering_groups_witness :
  ([tallWord; smallWord] <> []
   /\ pairwise adjacent [tallWord; smallWord]
   /\ exists c, clusters [tallWord; smallWord] = [c]
                /\ items c ≡ₚ [tallWord; smallWord]
                /\ texts (groupTextsIntoLines (frameWith [tallWord; smallWord]))
                   = [finalize c])
  /\ (tallWord ∈ [tallWord; farWord]
      /\ farWord ∈ [tallWord; farWord]
      /\ ~ connected [tallWord; farWord] tallWord farWord
      /\ forall c, c ∈ clusters [tallWord; farWord] ->
                   ~ (tallWord ∈ items c /\ farWord ∈ items c)).
Proof.
  assert (Hadj : pairwise adjacent [tallWord; smallWord]).
  { cbn [pairwise]. split; [|split; [constructor|exact I]].
    constructor; [|constructor]. apply adjacent_iff. box_arith. }
  split.
  - split; [discriminate|]. split; [exact Hadj|].
    apply (proj1 (clustering_groups (frameWith [tallWord; smallWord])));
      [discriminate|exact Hadj].
  - split; [left|]. split; [right; left|]. split; [exact far_not_connected|].
    apply (proj2 (proj2 (clustering_groups (frameWith [tallWord; farWord])))).
    + left.
    + right; left.
    + exact far_not_connected.
Defined.

(** The statement of C4 over an arbitrary set of boxes of a frame fails: the
    second and third word overlap by exactly one half of the shorter height,
    yet the third does not reach half of its height inside the span of the
    cluster that already holds the first two, and opens a cluster of its
    own. *)
Lemma clustering_subset_counterexample :
  pairwise adjacent [smallWord; lowWord]
  /\ smallWord ∈ [tallWord; smallWord; lowWord]
  /\ lowWord ∈ [tallWord; smallWord; lowWord]
  /\ ~ (exists c, c ∈ clusters [tallWord; smallWord; lowWord]
                  /\ smallWord ∈ items c /\ lowWord ∈ items c).
Proof.
  split.
  { cbn [pairwise]. split; [|split; [constructor|exact I]].
    constructor; [|constructor]. apply adjacent_iff. box_arith. }
  split; [right; left|]. split; [right; right; left|].
  intros (c & Hc & Hs & Hl).
  assert (Hcl : clusters [tallWord; smallWord; lowWord]
                = [ {| items := [tallWord; smallWord]; span_y := 0; span_height := 10 |};
                    {| items := [lowWord]; span_y := 6; span_height := 10 |} ])
    by (vm_compute; reflexivity).
  rewrite Hcl in Hc. rewrite !elem_of_cons in Hc. rewrite elem_of_nil in Hc.
  destruct Hc as [->|[->|[]]]; cbn [items] in Hs, Hl.
  - rewrite !elem_of_cons in Hl. rewrite elem_of_nil in Hl.
    destruct Hl as [Hl|[Hl|[]]]; discriminate Hl.
  - apply list_elem_of_singleton in Hs. discriminate Hs.
Qed.

End Clustering.

(** ** Job store *)

Section JobStore.

Import JobManager.

(** The job manager's [updateJob] on a known id: merge, then stamp. *)
Lemma updateJob_known (jobs : gmap jsstring Job) id_ job updates now :
  jobs !! id_ = Some job ->
  updateJob id_ updates now jobs !! id_ = Some (assign (assign job updates) (stamp now)).
Proof. intros H. unfold updateJob. rewrite H. apply lookup_insert_eq. Qed.

Lemma updateJob_unknown (jobs : gmap jsstring Job) id_ updates now :
  jobs !! id_ = None -> updateJob id_ updates now jobs = jobs.
Proof. intros H. unfold updateJob. by rewrite H. Qed.


(** The job manager does what the update operation promises: the fields of the
    update are merged, [updatedAt] becomes the current time whatever the
    update carries, and an unknown id leaves the store as it is. *)
Lemma manager_update_refreshes (jobs : gmap jsstring Job) id_ updates now :
  (forall job, jobs !! id_ = Some job ->
     exists job', updateJob id_ updates now jobs !! id_ = Some job'
                  /\ updatedAt job' = now
                  /\ status job' = default (status job) (u_status updates)
                  /\ progress job' = default (progress job) (u_progress updates)
                  /\ videoPath job' = default (videoPath job) (u_videoPath updates)
                  /\ outputPath job' = default (outputPath job) (u_outputPath updates)
                  /\ error job' = default (error job) (u_error updates))
  /\ (jobs !! id_ = None -> updateJob id_ updates now jobs = jobs).
Proof.
  split; [|apply updateJob_unknown].
  intros job Hjob. eexists. split; [by apply updateJob_known|]. done.
Qed.

(** The SQL providers refresh the timestamp as well. *)
Lemma sql_update_refreshes (rows : gmap jsstring Job) id_ job updates now :
  rows !! id_ = Some job -> id job = id_ -> u_id updates = None ->
  updatedAt <$> Database.updateJobSql id_ updates now rows !! id_ = Some now.
Proof.
  intros Hrow Hid Hu. unfold Database.updateJobSql, Database.upsert. rewrite Hrow.
  cbn [assign id stamp u_id default]. rewrite Hu. cbn [default]. rewrite Hid, Hrow.
  by rewrite lookup_insert_eq.
Qed.

(** C3, as amended.  The store has no guard on terminal states: the status
    after an update is the one the update carries, or the previous one when it
    carries none.  Hence an update without a status ([updateProgress], new
    paths) leaves a terminal job terminal, [setJobCompleted] and [setJobFailed]
    always leave the job in a terminal state, and [setJobCompleted] after
    [setJobFailed] turns the status into [completed]. *)
Theorem status_after_update (jobs : gmap jsstring Job) (id_ : jsstring) (job : Job) (now : Z) :
  jobs !! id_ = Some job ->
  (forall updates,
      statusOf id_ (updateJob id_ updates now jobs)
      = Some (default (status job) (u_status updates)))
  /\ (forall updates, u_status updates = None -> terminal (status job) = true ->
        exists s, statusOf id_ (updateJob id_ updates now jobs) = Some s
                  /\ terminal s = true)
  /\ (forall p, statusOf id_ (updateProgress id_ p now jobs) = Some (status job))
  /\ (forall out preview st,
        statusOf id_ (setJobCompleted id_ out preview st now jobs) = Some completed)
  /\ (forall e, statusOf id_ (setJobFailed id_ e now jobs) = Some failed)
  /\ (forall e out preview st now',
        statusOf id_
          (setJobCompleted id_ out preview st now' (setJobFailed id_ e now jobs))
        = Some completed).
Proof.
  intros Hjob.
  assert (Hstatus : forall (jobs' : gmap jsstring Job) job' updates now',
             jobs' !! id_ = Some job' ->
             statusOf id_ (updateJob id_ updates now' jobs')
             = Some (default (status job') (u_status updates))).
  { intros jobs' job' updates now' H. unfold statusOf.
    by rewrite (updateJob_known _ _ job'). }
  split; [intros updates; by apply Hstatus|]. split.
  { intros updates Hnone Hterm. eexists. split; [by apply Hstatus|].
    by rewrite Hnone. }
  split; [intros p; unfold updateProgress; by rewrite (Hstatus _ job)|].
  split; [intros out preview st; unfold setJobCompleted; by rewrite (Hstatus _ job)|].
  split; [intros e; unfold setJobFailed; by rewrite (Hstatus _ job)|].
  intros e out preview st now'. unfold setJobCompleted.
  erewrite Hstatus; [done|]. unfold setJobFailed. by apply updateJob_known.
Qed.

Lemma status_after_update_witness :
  failedStore !! js "job_1" = Some failedJob
  /\ statusOf (js "job_1") (updateJob (js "job_1") halfWay 300 failedStore)
     = Some (default failed (u_status halfWay))
  /\ u_status halfWay = None
  /\ terminal (status failedJob) = true
  /\ exists s, statusOf (js "job_1") (updateJob (js "job_1") halfWay 300 failedStore)
               = Some s
               /\ terminal s = true.
Proof.
  assert (Hjob : failedStore !! js "job_1" = Some failedJob) by reflexivity.
  destruct (status_after_update failedStore (js "job_1") failedJob 300 Hjob)
    as (H1 & H2 & _).
  split; [exact Hjob|]. split; [apply H1|]. split; [reflexivity|].
  split; [reflexivity|]. apply H2; reflexivity.
Defined.

(** The statement of C3 fails: after [setJobFailed], [setJobCompleted] is not
    a no-op, the status becomes [completed]; and [setJobProcessing] brings the
    failed job back to the non-terminal state [processing]. *)
Lemma terminal_state_counterexample :
  statusOf (js "job_1") failedStore = Some failed
  /\ statusOf (js "job_1")
       (setJobCompleted (js "job_1") (js "/out.mp4") None None 300 failedStore)
     = Some completed
  /\ setJobCompleted (js "job_1") (js "/out.mp4") None None 300 failedStore <> failedStore
  /\ statusOf (js "job_1") (setJobProcessing (js "job_1") 300 failedStore)
     = Some processing.
Proof.
  split; [by vm_compute|]. split; [by vm_compute|]. split; [|by vm_compute].
  intros Heq.
  assert (H : statusOf (js "job_1")
                (setJobCompleted (js "job_1") (js "/out.mp4") None None 300 failedStore)
              = statusOf (js "job_1") failedStore)
    by (by rewrite Heq).
  vm_compute in H. discriminate H.
Qed.

(** C9.  [MemoryDatabase.updateJob] merges the fields and ignores an unknown
    id, but it does not refresh [updatedAt]: an update of the progress made at
    time 200 leaves the timestamp of creation, 100, in the stored job, where
    the job manager and the SQL providers store 200. *)
Theorem memory_update_keeps_timestamp :
  (updatedAt <$> Database.updateJob (js "job_1") halfWay 200 oneJob !! js "job_1"
   = Some 100)
  /\ (progress <$> Database.updateJob (js "job_1") halfWay 200 oneJob !! js "job_1"
      = Some 50%Q)
  /\ Database.updateJob (js "job_2") halfWay 200 oneJob = oneJob
  /\ (updatedAt <$> JobManager.updateJob (js "job_1") halfWay 200 oneJob !! js "job_1"
      = Some 200)
  /\ (updatedAt <$> Database.updateJobSql (js "job_1") halfWay 200 oneJob !! js "job_1"
      = Some 200).
Proof.
  split; [by vm_compute|]. split; [by vm_compute|]. split; [|split; by vm_compute].
  unfold Database.updateJob.
  assert (H : oneJob !! js "job_2" = None) by (by vm_compute). by rewrite H.
Qed.

(** [MemoryDatabase.updateJob] never sets the timestamp by itself. *)
Lemma memory_update_timestamp (jobs : gmap jsstring Job) id_ job updates now :
  jobs !! id_ = Some job ->
  updatedAt <$> Database.updateJob id_ updates now jobs !! id_
  = Some (default (updatedAt job) (u_updatedAt updates)).
Proof.
  intros H. unfold Database.updateJob. rewrite H. by rewrite lookup_insert_eq.
Qed.

End JobStore.

(** ** Colour resolution *)

Section Colours.

Import SubtitleComposer.

Lemma hexDigit_bounds (c : N) : isHexDigit c = true -> (0x30 <= c <= 0x66)%N.
Proof.
  unfold isHexDigit. rewrite !orb_true_iff, !andb_true_iff, !N.leb_le. lia.
Qed.

Lemma hexDigit_not_space (c : N) : isHexDigit c = true -> isSpace c = false.
Proof.
  intros H. apply hexDigit_bounds in H. unfold isSpace. class_false.
Qed.

Lemma dropWhile_head {A} (p : A -> bool) (a : A) (l : list A) :
  p a = false -> Js.dropWhile p (a :: l) = a :: l.
Proof. intros H. cbn. by rewrite H. Qed.

(** Trimming leaves a string of hexadecimal digits as it is. *)
Lemma trim_hex (h : jsstring) : forallb isHexDigit h = true -> trim h = h.
Proof.
  intros Hh. unfold trim. destruct h as [|c h]; [done|].
  rewrite dropWhile_head.
  2:{ apply hexDigit_not_space. cbn in Hh. by apply andb_true_iff in Hh as [? _]. }
  destruct (rev (c :: h)) as [|d r] eqn:Hrev.
  - apply (f_equal (@length N)) in Hrev. rewrite length_rev in Hrev. done.
  - rewrite dropWhile_head; [by rewrite <- Hrev, rev_involutive|].
    apply hexDigit_not_space.
    assert (Hd : In d (c :: h)) by (apply in_rev; rewrite Hrev; left; done).
    by apply (proj1 (forallb_forall _ _) Hh).
Qed.

(** [hexToAss] on a well-formed input: [#RRGGBB] gives the opaque colour,
    [#RRGGBBAA] the colour with the given alpha byte. *)
Lemma hexToAss_rgb (r1 r2 g1 g2 b1 b2 : N) (defaultHex : option jsstring) :
  forallb isHexDigit [r1; r2; g1; g2; b1; b2] = true ->
  hexToAss (Some (0x23%N :: [r1; r2; g1; g2; b1; b2])) defaultHex
  = js "&H00" ++ [b1; b2] ++ [g1; g2] ++ [r1; r2].
Proof.
  intros H. unfold hexToAss. cbn [orElse truthy stripHash].
  rewrite trim_hex by done. unfold isHexColor. rewrite H. reflexivity.
Qed.

Lemma hexToAss_rgba (r1 r2 g1 g2 b1 b2 a1 a2 : N) (defaultHex : option jsstring) :
  forallb isHexDigit [r1; r2; g1; g2; b1; b2; a1; a2] = true ->
  hexToAss (Some (0x23%N :: [r1; r2; g1; g2; b1; b2; a1; a2])) defaultHex
  = js "&H" ++ [a1; a2] ++ [b1; b2] ++ [g1; g2] ++ [r1; r2].
Proof.
  intros H. unfold hexToAss. cbn [orElse truthy stripHash].
  rewrite trim_hex by done. unfold isHexColor. rewrite H. reflexivity.
Qed.

(** With the hexadecimal defaults of the module-level constants, an input that
    is not a colour resolves to the documented default. *)
Lemma hexToAss_invalid_hex_default (hex : jsstring) :
  isHexColor (trim (stripHash hex)) = false -> truthy hex = true ->
  hexToAss (Some hex) (Some (js "FFFFFF")) = documentedTextColor
  /\ hexToAss (Some hex) (Some (js "00000080")) = documentedBgColor.
Proof.
  intros Hbad Hhex. unfold hexToAss. cbn [orElse]. rewrite Hhex, Hbad. by vm_compute.
Qed.

(** C8.  In [overlaySubtitlesBottomCenter] the colours of the request are
    parsed with the already converted constants [SUB_TEXT_ASS] and
    [SUB_BG_ASS] as defaults.  The invalid input ["notacolor"], and a missing
    input as well, falls back to that constant, which is then cut as if it
    were [RRGGBBAA]: the result is neither the documented default nor a
    colour.  A well-formed [#00000066] does parse to the colour with alpha
    [66]. *)
Theorem invalid_color_not_default :
  SUB_BG_ASS emptyEnv = documentedBgColor
  /\ SUB_TEXT_ASS emptyEnv = documentedTextColor
  /\ backAss emptyEnv (withColors None (Some (js "notacolor"))) = js "&H000080&H"
  /\ backAss emptyEnv (withColors None (Some (js "notacolor"))) <> documentedBgColor
  /\ textAss emptyEnv (withColors (Some (js "notacolor")) None) = js "&HFFFF00&H"
  /\ textAss emptyEnv (withColors (Some (js "notacolor")) None) <> documentedTextColor
  /\ textAss emptyEnv noOptions = js "&HFFFF00&H"
  /\ backAss emptyEnv (withColors None (Some (js "#00000066"))) = js "&H66000000".
Proof.
  repeat split; try (by vm_compute); vm_compute; discriminate.
Qed.

End Colours.

(** ** Layout *)

Section Layout.

Import SubtitleTranslator SubtitleComposer.





End Layout.

(** ** The scenario with two identical frames *)

Section Scenario.

Import SubtitleTranslator SubtitleComposer Pipeline.

(** Under the default filter the line HELLO is rejected in both frames: it has
    five characters where six are required and one word where two are. *)
Lemma hello_filtered_by_default :
  filterSubtitleLike defaultEnv (map groupTextsIntoLines helloDetections)
  = [frameOf 1 []; frameOf 2 []]
  /\ charCount (js "HELLO") = 5 /\ wordCount (js "HELLO") = 1
  /\ minChars defaultEnv = 6%Q /\ minWords defaultEnv = 2%Q.
Proof. repeat split; by vm_compute. Qed.

Lemma hello_translated_relaxed :
  exists frames,
    asTranslatedFrames
      (applyTranslations None helloMap
         (filterSubtitleLike relaxedEnv (map groupTextsIntoLines helloDetections)))
    = Some frames
    /\ map perFrame frames = [frameText 1 (js "BONJOUR"); frameText 2 (js "BONJOUR")].
Proof. eexists. split; by vm_compute. Qed.

(** BONJOUR fits on one line as soon as the frame is 235 pixels wide. *)
Lemma bonjour_fits (vW : Z) :
  235 <= vW ->
  Qle_bool (estWidth emptyEnv noOptions (js "BONJOUR")) (maxWidth emptyEnv noOptions vW)
  = true.
Proof.
  intros HvW. apply Qle_bool_iff. unfold maxWidth.
  assert (Hfloor : 211 <= Qfloor (inject_Z vW * (9 # 10))).
  { change 211 with (Qfloor (inject_Z 235 * (9 # 10))). apply Qfloor_resp_le.
    apply Qmult_le_compat_r; [by rewrite <- Zle_Qle|done]. }
  apply Qle_trans with (y := (inject_Z 211 - boxPad emptyEnv noOptions * 2)%Q).
  - by vm_compute.
  - apply Qplus_le_compat; [by rewrite <- Zle_Qle|apply Qle_refl].
Qed.

(** C6, as amended.  For the two sampled frames 1 and 2, each with the single
    box HELLO at (10, 500) of size 100 by 30, the translation map HELLO to
    BONJOUR and the bottom-region filter whose minimum character and word
    counts are lowered to 5 and 1, the pipeline produces exactly one event,
    with text BONJOUR, from 0.0 s to 2.0 s (on any frame at least 235 pixels
    wide).  Under the unmodified default filter the line is rejected and no
    event is produced. *)
Theorem hello_scenario (vW vH : Z) :
  235 <= vW ->
  (exists d,
      translateVideoAss relaxedEnv emptyEnv None noOptions vW vH helloMap helloDetections
      = Some [d]
      /\ dlg_text d = js "BONJOUR"
      /\ dlg_startSec d = 0%Q /\ dlg_endSec d = 2%Q
      /\ dlg_start d = js "0:00:00.00" /\ dlg_end d = js "0:00:02.00")
  /\ translateVideoAss defaultEnv emptyEnv None noOptions vW vH helloMap helloDetections
     = Some [].
Proof.
  intros HvW. split.
  - unfold translateVideoAss. destruct hello_translated_relaxed as (frames & -> & Hpf).
    unfold overlaySubtitlesBottomCenter.
    rewrite <- (map_map perFrame (decide_ emptyEnv noOptions vW)).
    rewrite Hpf. cbn [map]. unfold decide_, frameText.
    cbn [ft_text ft_frameNumber truthy negb js]. rewrite bonjour_fits by done.
    eexists. split; [by vm_compute|]. repeat split; by vm_compute.
  - unfold translateVideoAss.
    destruct hello_filtered_by_default as [-> _]. reflexivity.
Qed.

Lemma hello_scenario_witness :
  235 <= 1280
  /\ (exists d,
        translateVideoAss relaxedEnv emptyEnv None noOptions 1280 720 helloMap
          helloDetections
        = Some [d]
        /\ dlg_text d = js "BONJOUR"
        /\ dlg_startSec d = 0%Q /\ dlg_endSec d = 2%Q
        /\ dlg_start d = js "0:00:00.00" /\ dlg_end d = js "0:00:02.00")
  /\ translateVideoAss defaultEnv emptyEnv None noOptions 1280 720 helloMap helloDetections
     = Some [].
Proof.
  split; [lia|]. apply (hello_scenario 1280 720). lia.
Defined.

(** The statement of C6 fails: with the default filter configuration the
    pipeline produces no event for the scenario, on a frame of the default
    size 1280 by 720. *)
Lemma hello_default_counterexample :
  translateVideoAss defaultEnv emptyEnv None noOptions 1280 720 helloMap helloDetections
  = Some []
  /\ ~ (exists d,
         translateVideoAss defaultEnv emptyEnv None noOptions 1280 720 helloMap
           helloDetections
         = Some [d]).
Proof.
  assert (H : translateVideoAss defaultEnv emptyEnv None noOptions 1280 720 helloMap
                helloDetections = Some []) by (by vm_compute).
  split; [exact H|]. intros [d Hd]. rewrite H in Hd. discriminate Hd.
Qed.

End Scenario.

(** ** Spacing between ideographs *)

Section Spacing.

Import SubtitleTranslator.

Lemma ideograph_bounds (c : N) :
  isIdeograph c = true -> (0x3400 <= c <= 0x9fff \/ 0xf900 <= c <= 0xfaff)%N.
Proof.
  unfold isIdeograph. rewrite !orb_true_iff, !andb_true_iff, !N.leb_le. lia.
Qed.

(** The two classes of the pattern are disjoint. *)
Lemma ideograph_not_space (c : N) : isIdeograph c = true -> isSpace c = false.
Proof.
  intros H. apply ideograph_bounds in H. unfold isSpace. class_false.
Qed.

Lemma space_not_ideograph (c : N) : isSpace c = true -> isIdeograph c = false.
Proof.
  intros Hs. destruct (isIdeograph c) eqn:Hi; [|done].
  apply ideograph_not_space in Hi. congruence.
Qed.

Lemma ideographEdge_space (c : N) (l : jsstring) :
  isSpace c = true -> ideographEdge (c :: l) = ideographEdge l.
Proof. intros H. unfold ideographEdge. cbn [Js.dropWhile]. by rewrite H. Qed.

Lemma ideographEdge_other (c : N) (l : jsstring) :
  isSpace c = false -> ideographEdge (c :: l) = isIdeograph c.
Proof. intros H. unfold ideographEdge. cbn [Js.dropWhile]. by rewrite H. Qed.

Lemma spacesMatchLen_space (c : N) (r : jsstring) :
  isSpace c = true ->
  spacesMatchLen (c :: r)
  = match spacesMatchLen r with
    | S k => S (S k)
    | O => if lookaheadIdeograph r then 1%nat else 0%nat
    end.
Proof. intros H. cbn [spacesMatchLen]. by rewrite H. Qed.

Lemma spacesMatchLen_other (c : N) (r : jsstring) :
  isSpace c = false -> spacesMatchLen (c :: r) = 0%nat.
Proof. intros H. cbn [spacesMatchLen]. by rewrite H. Qed.

(** The nearest code unit that is not a space is an ideograph exactly when the
    text starts with an ideograph or the pattern [\s+(?=[...])] matches. *)
Lemma ideographEdge_spec (r : jsstring) :
  ideographEdge r = lookaheadIdeograph r || negb (Nat.eqb (spacesMatchLen r) 0).
Proof.
  induction r as [|c r IH]; [done|].
  destruct (isSpace c) eqn:Hc.
  - rewrite ideographEdge_space, spacesMatchLen_space, IH by done.
    cbn [lookaheadIdeograph]. rewrite space_not_ideograph by done.
    destruct (spacesMatchLen r); [|by rewrite orb_true_r].
    by destruct (lookaheadIdeograph r).
  - rewrite ideographEdge_other, spacesMatchLen_other by done.
    cbn [lookaheadIdeograph]. by rewrite orb_false_r.
Qed.

(** The scan of [replaceSpacing] drops exactly the spaces between ideographs. *)
Lemma replaceSpacing_dropBetween (s before : jsstring) (skip : nat) :
  scanInv before skip s -> replaceSpacing skip s = dropBetween before s.
Proof.
  revert before skip. induction s as [|c r IH]; intros before skip Hinv; [done|].
  cbn [replaceSpacing dropBetween]. destruct skip as [|k].
  - (* no match in progress *)
    assert (Hkeep : isSpace c && ideographEdge before && ideographEdge r = false).
    { destruct (isSpace c) eqn:Hc; [|done]. cbn [andb].
      rewrite <- (ideographEdge_space c r Hc). by apply Hinv. }
    rewrite Hkeep. f_equal. apply IH.
    destruct (isIdeograph c) eqn:Hi.
    + pose proof (ideograph_not_space c Hi) as Hc.
      destruct (spacesMatchLen r) as [|k] eqn:Hlen.
      * intros Hr. rewrite (ideographEdge_spec r), Hlen.
        destruct r as [|d r]; [done|]. cbn [lookaheadSpace] in Hr.
        cbn [lookaheadIdeograph]. rewrite space_not_ideograph by done.
        by rewrite andb_false_r.
      * split; [|done]. by rewrite ideographEdge_other.
    + intros Hr. destruct (isSpace c) eqn:Hc.
      * rewrite ideographEdge_space by done.
        rewrite <- (ideographEdge_space c r Hc). by apply Hinv.
      * rewrite ideographEdge_other by done. by rewrite Hi.
  - (* inside a match: [c] is one of its spaces *)
    destruct Hinv as [Hbefore Hlen].
    assert (Hc : isSpace c = true).
    { destruct (isSpace c) eqn:Hc; [done|]. by rewrite spacesMatchLen_other in Hlen. }
    assert (Hedge : ideographEdge r = true).
    { rewrite <- (ideographEdge_space c r Hc), ideographEdge_spec, Hlen.
      by rewrite orb_true_r. }
    rewrite Hc, Hbefore, Hedge. cbn [andb]. apply IH.
    rewrite spacesMatchLen_space in Hlen by done.
    destruct (spacesMatchLen r) as [|k'] eqn:Hr.
    + destruct (lookaheadIdeograph r) eqn:Hla; [|done]. injection Hlen as <-.
      intros Hsp. destruct r as [|d r]; [done|].
      cbn [lookaheadSpace lookaheadIdeograph] in *.
      apply ideograph_not_space in Hla. congruence.
    + injection Hlen as <-. split; [|done]. by rewrite ideographEdge_space.
Qed.

Lemma dropBetween_no_ideograph (s before : jsstring) :
  existsb isIdeograph s = false -> dropBetween before s = s.
Proof.
  revert before. induction s as [|c r IH]; intros before Hs; [done|].
  cbn [existsb] in Hs. apply orb_false_iff in Hs as [Hc Hr].
  cbn [dropBetween].
  assert (Hedge : forall l, existsb isIdeograph l = false -> ideographEdge l = false).
  { induction l as [|d l IHl]; [done|]. cbn [existsb]. intros H.
    apply orb_false_iff in H as [Hd Hl]. destruct (isSpace d) eqn:Hsd.
    - rewrite ideographEdge_space by done. by apply IHl.
    - by rewrite ideographEdge_other. }
  rewrite (Hedge r Hr), andb_false_r. f_equal. by apply IH.
Qed.

(** [normalizeCJKSpacing] removes exactly the spaces between ideographs. *)
Lemma normalizeCJKSpacing_spec (s : jsstring) :
  normalizeCJKSpacing s = withoutSpacesBetweenIdeographs s.
Proof.
  unfold normalizeCJKSpacing, withoutSpacesBetweenIdeographs.
  destruct s as [|c r]; [done|]. cbn [truthy negb].
  destruct (existsb isIdeograph (c :: r)) eqn:He; cbn [negb].
  - by apply replaceSpacing_dropBetween.
  - symmetry. by apply dropBetween_no_ideograph.
Qed.

(** What is read for a line is inherited only for a name of
    [Object.prototype] that is not an own property of the map. *)
Lemma translationOrOriginal_inherited (translationMap : gmap jsstring jsstring)
  (text : jsstring) :
  translationOrOriginal translationMap text = Inherited
  <-> translationMap !! text = None /\ text ∈ objectPrototypeNames.
Proof.
  unfold translationOrOriginal. destruct (translationMap !! text) as [t|].
  - split; [done|]. by intros [? _].
  - case_bool_decide as Hin; split; try done. by intros [_ ?].
Qed.

Lemma translateText_inherited (flag : option jsstring)
  (translationMap : gmap jsstring jsstring) (text : jsstring) :
  translateText flag translationMap text = Inherited
  <-> translationOrOriginal translationMap text = Inherited.
Proof.
  unfold translateText, normalizeValue.
  destruct (bool_decide _); [done|]. by destruct (translationOrOriginal _ _).
Qed.

Lemma asTranslatedText_Some (t : MappedText) (x : TranslatedText) :
  asTranslatedText t = Some x
  <-> mt_translatedText t = Str (translatedText x) /\ tt_line x = mt_line t.
Proof.
  unfold asTranslatedText. destruct t as [l v], x as [l' s']. cbn.
  destruct v as [s|]; split.
  - intros H. injection H as <- <-. done.
  - intros [H ->]. by injection H as ->.
  - done.
  - by intros [? _].
Qed.

(** The frames that pass the cast are the mapped frames, text by text. *)
Lemma typed_frames (flag : option jsstring) (translationMap : gmap jsstring jsstring)
  (frames : list GroupedFrame) (typed : list TranslatedFrame) :
  asTranslatedFrames (applyTranslations flag translationMap frames) = Some typed ->
  Forall2
    (fun frame translated =>
       tf_frameNumber translated = frameNumber frame
       /\ Forall2
            (fun l t =>
               tt_line t = l
               /\ translateText flag translationMap (line_text l) = Str (translatedText t))
            (texts frame) (tf_texts translated))
    frames typed.
Proof.
  unfold asTranslatedFrames, applyTranslations. intros H.
  apply mapM_Some, Forall2_fmap_l in H.
  eapply Forall2_impl; [exact H|]. intros frame translated. cbn.
  unfold asTranslatedFrame. cbn [mf_texts mf_frameNumber].
  destruct (mapM _ _) as [ts|] eqn:Hts; [|done]. intros Heq. injection Heq as <-.
  cbn [tf_frameNumber tf_texts]. split; [done|].
  apply mapM_Some, Forall2_fmap_l in Hts.
  eapply Forall2_impl; [exact Hts|]. intros l t. cbn. intros Ht.
  apply asTranslatedText_Some in Ht as [Ht Hl]. cbn in Ht, Hl. done.
Qed.

(** The cast succeeds exactly when no line reads an inherited value. *)
Lemma typed_frames_is_Some (flag : option jsstring)
  (translationMap : gmap jsstring jsstring) (frames : list GroupedFrame) :
  is_Some (asTranslatedFrames (applyTranslations flag translationMap frames))
  <-> Forall
        (fun frame =>
           Forall (fun l => translationOrOriginal translationMap (line_text l) <> Inherited)
             (texts frame))
        frames.
Proof.
  unfold asTranslatedFrames, applyTranslations.
  rewrite mapM_is_Some, Forall_fmap. apply Forall_iff. intros frame. cbn.
  unfold asTranslatedFrame. cbn [mf_texts mf_frameNumber].
  transitivity (is_Some (mapM asTranslatedText
                           (map (fun textObj =>
                                   {| mt_line := textObj;
                                      mt_translatedText :=
                                        translateText flag translationMap
                                          (line_text textObj) |})
                              (texts frame)))).
  { by destruct (mapM _ _). }
  rewrite mapM_is_Some, Forall_fmap. apply Forall_iff. intros l. cbn.
  unfold asTranslatedText. cbn [mt_translatedText mt_line].
  rewrite <- (translateText_inherited flag).
  destruct (translateText flag translationMap (line_text l)); split; done.
Qed.


(** A line reading [constructor], for which the service has returned no
    entry, has no phrase: the frames do not pass to the layout. *)
Lemma inherited_name_has_no_phrase :
  translationOrOriginal helloMap (js "constructor") = Inherited
  /\ translateText None helloMap (js "constructor") = Inherited
  /\ asTranslatedFrames
       (applyTranslations None helloMap
          [frameOf 1 [ {| line_text := js "constructor"; line_x := 10; line_y := 500;
                          line_width := 200; line_height := 30; line_fontSize := 24 |} ]])
     = None.
Proof. repeat split; by vm_compute. Qed.


End Spacing.

(** * Further properties of the code *)

(** ** Spacing between ideographs, continued *)

Section SpacingMore.

Import SubtitleTranslator.

Lemma stripSpaces_cons_space (c : N) (l : jsstring) :
  isSpace c = true -> stripSpaces (c :: l) = stripSpaces l.
Proof. intros H. unfold stripSpaces. cbn [List.filter]. by rewrite H. Qed.

Lemma stripSpaces_cons_other (c : N) (l : jsstring) :
  isSpace c = false -> stripSpaces (c :: l) = c :: stripSpaces l.
Proof. intros H. unfold stripSpaces. cbn [List.filter]. by rewrite H. Qed.

(** Only the code units that are not spaces decide [ideographEdge]. *)
Lemma ideographEdge_stripSpaces (l : jsstring) :
  ideographEdge l
  = match stripSpaces l with d :: _ => isIdeograph d | [] => false end.
Proof.
  induction l as [|c l IH]; [done|]. destruct (isSpace c) eqn:Hc.
  - by rewrite ideographEdge_space, stripSpaces_cons_space.
  - by rewrite ideographEdge_other, stripSpaces_cons_other.
Qed.

Lemma stripSpaces_dropBetween (s before : jsstring) :
  stripSpaces (dropBetween before s) = stripSpaces s.
Proof.
  revert before. induction s as [|c r IH]; intros before; [done|].
  cbn [dropBetween]. destruct (isSpace c) eqn:Hc; cbn [andb].
  - destruct (ideographEdge before && ideographEdge r).
    + by rewrite IH, stripSpaces_cons_space.
    + by rewrite !stripSpaces_cons_space, IH.
  - by rewrite !stripSpaces_cons_other, IH.
Qed.

Lemma length_dropBetween (s before : jsstring) :
  (length (dropBetween before s) <= length s)%nat.
Proof.
  revert before. induction s as [|c r IH]; intros before; [done|].
  cbn [dropBetween]. destruct (_ && _); cbn [length]; specialize (IH (c :: before)); lia.
Qed.

Lemma dropBetween_idempotent (s before before' : jsstring) :
  stripSpaces before' = stripSpaces before ->
  dropBetween before' (dropBetween before s) = dropBetween before s.
Proof.
  revert before before'. induction s as [|c r IH]; intros before before' Hb; [done|].
  assert (Hedge : ideographEdge before' = ideographEdge before)
    by (by rewrite !ideographEdge_stripSpaces, Hb).
  cbn [dropBetween].
  destruct (isSpace c && ideographEdge before && ideographEdge r) eqn:Hdrop.
  - apply IH. apply andb_true_iff in Hdrop as [Hdrop _].
    apply andb_true_iff in Hdrop as [Hc _]. by rewrite stripSpaces_cons_space.
  - cbn [dropBetween].
    assert (Hr : ideographEdge (dropBetween (c :: before) r) = ideographEdge r)
      by (by rewrite !ideographEdge_stripSpaces, stripSpaces_dropBetween).
    rewrite Hr, Hedge, Hdrop. f_equal. apply IH.
    destruct (isSpace c) eqn:Hc.
    + by rewrite !stripSpaces_cons_space.
    + by rewrite !stripSpaces_cons_other, Hb.
Qed.

(** X1.  [normalizeCJKSpacing] is idempotent: a second pass finds nothing to
    remove. *)
Theorem normalizeCJKSpacing_idempotent (s : jsstring) :
  normalizeCJKSpacing (normalizeCJKSpacing s) = normalizeCJKSpacing s.
Proof.
  rewrite !normalizeCJKSpacing_spec. unfold withoutSpacesBetweenIdeographs.
  by apply dropBetween_idempotent.
Qed.

(** X2.  [normalizeCJKSpacing] only deletes spaces: the code units that are
    not spaces are kept, in order, and the text never grows. *)
Theorem normalizeCJKSpacing_keeps_text (s : jsstring) :
  stripSpaces (normalizeCJKSpacing s) = stripSpaces s
  /\ (length (normalizeCJKSpacing s) <= length s)%nat.
Proof.
  rewrite normalizeCJKSpacing_spec. unfold withoutSpacesBetweenIdeographs.
  split; [apply stripSpaces_dropBetween|apply length_dropBetween].
Qed.

End SpacingMore.

(** ** Script text and times *)

Section Script.

Import SubtitleComposer.

Lemma escAssUnit_clean (c : N) :
  Forall (fun d => isScriptSpecial d = false) (escAssUnit c).
Proof.
  unfold escAssUnit.
  destruct (N.eqb_spec c 0x7b) as [->|H1]; [by repeat constructor|].
  destruct (N.eqb_spec c 0x7d) as [->|H2]; [by repeat constructor|].
  destruct (N.eqb_spec c 0x0a) as [->|H3]; [by repeat constructor|].
  constructor; [|constructor]. unfold isScriptSpecial.
  repeat (apply orb_false_intro); by apply N.eqb_neq.
Qed.

(** X3.  The text escaped by [escAss] holds no brace and no line feed, so it
    can neither open an override block nor break the [Dialogue] line; a text
    without these code units is left as it is. *)
Theorem escAss_clean (s : jsstring) :
  Forall (fun d => isScriptSpecial d = false) (escAss s)
  /\ (forallb (fun c => negb (isScriptSpecial c)) s = true -> escAss s = s).
Proof.
  split.
  - unfold escAss. induction s as [|c r IH]; [constructor|].
    cbn [map concat]. apply Forall_app. split; [apply escAssUnit_clean|done].
  - unfold escAss. induction s as [|c r IH]; [done|]. cbn [forallb map concat].
    intros H. apply andb_true_iff in H as [Hc Hr]. rewrite IH by done.
    apply negb_true_iff in Hc. unfold isScriptSpecial in Hc.
    apply orb_false_iff in Hc as [Hc H3]. apply orb_false_iff in Hc as [H1 H2].
    unfold escAssUnit. by rewrite H1, H2, H3.
Qed.

Lemma escAss_clean_witness :
  forallb (fun c => negb (isScriptSpecial c)) (js "BONJOUR") = true
  /\ escAss (js "BONJOUR") = js "BONJOUR".
Proof.
  split; [reflexivity|]. apply (proj2 (escAss_clean (js "BONJOUR"))). reflexivity.
Defined.

Lemma twoDigits_below_100 (m : Z) :
  0 <= m < 100 -> twoDigits m (padStart2 (toString m)) = true.
Proof.
  intros Hm.
  assert (Hall : forallb (fun k => twoDigits (Z.of_nat k) (padStart2 (toString (Z.of_nat k))))
                   (seq 0 100) = true) by (by vm_compute).
  rewrite forallb_forall in Hall. specialize (Hall (Z.to_nat m)).
  rewrite Z2Nat.id in Hall by lia. apply Hall. apply in_seq. lia.
Qed.

Lemma assCentis_nonneg (sec : Q) : 0 <= assCentis sec.
Proof. unfold assCentis. lia. Qed.

Lemma assCentis_nonpositive (sec : Q) : (sec <= 0)%Q -> assCentis sec = 0.
Proof.
  intros H. unfold assCentis, Js.round.
  assert (Hf : Qfloor (sec * 100 + (1 # 2)) <= Qfloor (0 * 100 + (1 # 2))).
  { apply Qfloor_resp_le. apply Qplus_le_compat; [|apply Qle_refl].
    by apply Qmult_le_compat_r. }
  change (Qfloor (0 * 100 + (1 # 2))) with 0 in Hf. lia.
Qed.

(** X4.  The time printed by [assTime] is the hours followed by minutes,
    seconds and centiseconds of exactly two digits each, which read back as
    numbers below 60, 60 and 100 and recompose the rounded centiseconds; a
    time that is not positive prints as zero. *)
Theorem assTime_format (sec : Q) :
  let cs := assCentis sec in
  let h := cs / 360000 in
  let m := (cs mod 360000) / 6000 in
  let s := (cs mod 6000) / 100 in
  let c := cs mod 100 in
  assTime sec
  = toString h ++ js ":" ++ padStart2 (toString m) ++ js ":" ++ padStart2 (toString s)
    ++ js "." ++ padStart2 (toString c)
  /\ twoDigits m (padStart2 (toString m)) = true
  /\ twoDigits s (padStart2 (toString s)) = true
  /\ twoDigits c (padStart2 (toString c)) = true
  /\ (0 <= h /\ 0 <= m < 60 /\ 0 <= s < 60 /\ 0 <= c < 100)
  /\ cs = 360000 * h + 6000 * m + 100 * s + c
  /\ ((sec <= 0)%Q -> assTime sec = js "0:00:00.00").
Proof.
  intros cs h m s c. pose proof (assCentis_nonneg sec) as Hcs. fold cs in Hcs.
  assert (Hb : 0 <= h /\ 0 <= m < 60 /\ 0 <= s < 60 /\ 0 <= c < 100).
  { unfold h, m, s, c. repeat split.
    - apply Z.div_pos; lia.
    - apply Z.div_pos; [|lia]. apply Z.mod_pos_bound. lia.
    - apply Z.div_lt_upper_bound; [lia|]. pose proof (Z.mod_pos_bound cs 360000). lia.
    - apply Z.div_pos; [|lia]. apply Z.mod_pos_bound. lia.
    - apply Z.div_lt_upper_bound; [lia|]. pose proof (Z.mod_pos_bound cs 6000). lia.
    - apply Z.mod_pos_bound. lia.
    - apply Z.mod_pos_bound. lia. }
  split; [reflexivity|].
  split; [apply twoDigits_below_100; lia|].
  split; [apply twoDigits_below_100; lia|].
  split; [apply twoDigits_below_100; lia|].
  split; [exact Hb|]. split.
  - unfold h, m, s, c.
    pose proof (Z.div_mod cs 360000). pose proof (Z.div_mod (cs mod 360000) 6000).
    pose proof (Z.div_mod (cs mod 6000) 100).
    assert (Hm6 : (cs mod 360000) mod 6000 = cs mod 6000).
    { apply Z.mod_mod_divide. exists 60. lia. }
    assert (Hm1 : (cs mod 6000) mod 100 = cs mod 100).
    { apply Z.mod_mod_divide. exists 60. lia. }
    lia.
  - intros Hneg. unfold assTime. rewrite (assCentis_nonpositive sec Hneg). reflexivity.
Qed.

Lemma assTime_format_witness :
  (- (3 # 2) <= 0)%Q /\ assTime (- (3 # 2)) = js "0:00:00.00".
Proof.
  split; [discriminate|].
  apply (proj2 (proj2 (proj2 (proj2 (proj2 (proj2 (assTime_format (- (3 # 2))))))))).
  discriminate.
Defined.

End Script.

(** ** The merge, continued *)

Section MergeMore.

Import SubtitleComposer.

Lemma fold_mergeFrom fps (frames : list FrameText) events current :
  closeEvents (fold_left (mergeStep fps) frames (events, Some current))
  = events ++ mergeFrom fps current frames.
Proof.
  revert events current. induction frames as [|f r IH]; intros events current; [done|].
  cbn [fold_left mergeFrom]. unfold Js.eqb. case_bool_decide as Heq.
  - rewrite mergeStep_same by done. apply IH.
  - rewrite mergeStep_change by done. rewrite IH. by rewrite <- app_assoc.
Qed.

Lemma mergeFrameTexts_cons fps (f : FrameText) (r : list FrameText) :
  mergeFrameTexts (f :: r) fps = mergeFrom fps (openEvent fps f) r.
Proof.
  unfold mergeFrameTexts. cbn [fold_left]. rewrite mergeStep_first.
  by rewrite fold_mergeFrom.
Qed.

Lemma mergeFrom_head fps current (frames : list FrameText) :
  exists e l, mergeFrom fps current frames = e :: l
              /\ ev_text e = ev_text current /\ ev_start e = ev_start current.
Proof.
  revert current. induction frames as [|f r IH]; intros current; cbn [mergeFrom].
  - by exists current, [].
  - destruct (Js.eqb _ _).
    + destruct (IH (extendEvent fps current f)) as (e & l & -> & Ht & Hs).
      by exists e, l.
    + by eexists _, _.
Qed.

Lemma mergeFrom_length fps current (frames : list FrameText) :
  (length (mergeFrom fps current frames) <= S (length frames))%nat.
Proof.
  revert current. induction frames as [|f r IH]; intros current; cbn [mergeFrom]; [done|].
  destruct (Js.eqb _ _); cbn [length].
  - specialize (IH (extendEvent fps current f)). lia.
  - specialize (IH (openEvent fps f)). lia.
Qed.

Lemma mergeFrom_texts_differ fps current (frames : list FrameText) :
  chain (fun e1 e2 => ev_text e1 <> ev_text e2) (mergeFrom fps current frames).
Proof.
  revert current. induction frames as [|f r IH]; intros current; cbn [mergeFrom]; [done|].
  unfold Js.eqb. case_bool_decide as Heq; [apply IH|].
  destruct (mergeFrom_head fps (openEvent fps f) r) as (e & l & Hm & Ht & _).
  specialize (IH (openEvent fps f)). rewrite Hm in *. cbn [chain]. split; [|done].
  rewrite Ht. cbn [openEvent ev_text]. congruence.
Qed.

(** X5.  The merge is a run-length encoding: two neighbouring events never
    carry the same text, there are at most as many events as frames, and there
    is no event exactly when there is no frame. *)
Theorem merge_is_minimal (frames : list FrameText) (fps : Q) :
  chain (fun e1 e2 => ev_text e1 <> ev_text e2) (mergeFrameTexts frames fps)
  /\ (length (mergeFrameTexts frames fps) <= length frames)%nat
  /\ (mergeFrameTexts frames fps = [] <-> frames = []).
Proof.
  destruct frames as [|f r]; [done|]. rewrite mergeFrameTexts_cons.
  split; [apply mergeFrom_texts_differ|]. split; [apply mergeFrom_length|].
  destruct (mergeFrom_head fps (openEvent fps f) r) as (e & l & -> & _). done.
Qed.

Lemma mergeFrom_same_text fps current (frames : list FrameText) :
  Forall (fun f => ft_text f = ev_text current) frames ->
  mergeFrom fps current frames
  = [ {| ev_text := ev_text current; ev_start := ev_start current;
         ev_end := match frames with
                   | [] => ev_end current
                   | _ :: _ => inject_Z (List.last (map ft_frameNumber frames) 0) / fps
                   end |} ].
Proof.
  revert current. induction frames as [|f r IH]; intros current Hall.
  - by destruct current.
  - apply Forall_cons in Hall as [Hf Hr]. cbn [mergeFrom]. unfold Js.eqb.
    rewrite bool_decide_eq_true_2 by done. rewrite IH by done.
    cbn [extendEvent ev_text ev_start ev_end]. by destruct r.
Qed.

(** X6.  Frames that all carry one text give a single event, from the start
    of the first frame to the end of the last one, whatever gaps the frame
    numbers have: the merge does not look at the distance between frames. *)
Theorem merge_bridges_gaps (f : FrameText) (r : list FrameText) (fps : Q) :
  Forall (fun g => ft_text g = ft_text f) r ->
  mergeFrameTexts (f :: r) fps
  = [ {| ev_text := ft_text f;
         ev_start := inject_Z (ft_frameNumber f - 1) / fps;
         ev_end := inject_Z (List.last (map ft_frameNumber (f :: r)) 0) / fps |} ].
Proof.
  intros Hall. rewrite mergeFrameTexts_cons, mergeFrom_same_text by done.
  cbn [openEvent ev_text ev_start ev_end]. by destruct r.
Qed.

Lemma merge_bridges_gaps_witness :
  Forall (fun g => ft_text g = ft_text (frameText 1 (js "A"))) [frameText 5 (js "A")]
  /\ mergeFrameTexts [frameText 1 (js "A"); frameText 5 (js "A")] 1
     = [ {| ev_text := js "A"; ev_start := inject_Z (1 - 1) / 1;
            ev_end := inject_Z 5 / 1 |} ].
Proof.
  split; [by repeat constructor|].
  apply (merge_bridges_gaps (frameText 1 (js "A")) [frameText 5 (js "A")] 1%Q).
  by repeat constructor.
Defined.

Lemma last_default {A} (a : A) (l : list A) (d d' : A) :
  List.last (a :: l) d = List.last (a :: l) d'.
Proof.
  revert a. induction l as [|b l IH]; intros a; [done|].
  change (List.last (b :: l) d = List.last (b :: l) d'). apply IH.
Qed.

Lemma mergeFrom_tiles fps current (frames : list FrameText) (k : Z) :
  ev_end current = (inject_Z k / fps)%Q ->
  contiguousFrom (k + 1) (map ft_frameNumber frames) ->
  chain (fun e1 e2 => ev_end e1 = ev_start e2) (mergeFrom fps current frames)
  /\ ev_end (List.last (mergeFrom fps current frames) current)
     = (inject_Z (k + Z.of_nat (length frames)) / fps)%Q.
Proof.
  revert current k. induction frames as [|f r IH]; intros current k Hend Hcont.
  - cbn. by rewrite Z.add_0_r.
  - destruct Hcont as [Hf Hcont]. cbn [mergeFrom].
    replace (k + Z.of_nat (length (f :: r))) with (k + 1 + Z.of_nat (length r))
      by (cbn [length]; lia).
    destruct (Js.eqb _ _).
    + destruct (IH (extendEvent fps current f) (k + 1)) as [Hc Hl];
        [cbn; by rewrite Hf|done|].
      split; [done|]. rewrite <- Hl.
      destruct (mergeFrom_head fps (extendEvent fps current f) r) as (e & l & -> & _).
      f_equal. apply last_default.
    + destruct (IH (openEvent fps f) (k + 1)) as [Hc Hl]; [cbn; by rewrite Hf|done|].
      destruct (mergeFrom_head fps (openEvent fps f) r) as (e & l & Hm & _ & Hs).
      rewrite Hm in *. split.
      * cbn [chain]. split; [|done]. rewrite Hs, Hend. cbn [openEvent ev_start].
        rewrite Hf. by rewrite Z.add_simpl_r.
      * rewrite <- Hl. change (List.last (current :: e :: l) current)
          with (List.last (e :: l) current). f_equal. apply last_default.
Qed.

(** X7.  For frames numbered contiguously from [n], the events tile the
    processed duration: the first starts at [(n - 1) / fps], each event ends
    where the next one starts, and the last ends at the end of the last
    frame. *)
Theorem merge_tiles_duration (f : FrameText) (r : list FrameText) (fps : Q) :
  contiguousFrom (ft_frameNumber f + 1) (map ft_frameNumber r) ->
  let events := mergeFrameTexts (f :: r) fps in
  chain (fun e1 e2 => ev_end e1 = ev_start e2) events
  /\ ev_start (List.hd (openEvent fps f) events)
     = (inject_Z (ft_frameNumber f - 1) / fps)%Q
  /\ ev_end (List.last events (openEvent fps f))
     = (inject_Z (ft_frameNumber f + Z.of_nat (length r)) / fps)%Q.
Proof.
  intros Hcont events. unfold events. rewrite mergeFrameTexts_cons.
  destruct (mergeFrom_tiles fps (openEvent fps f) r (ft_frameNumber f)) as [Hc Hl];
    [done|done|].
  split; [done|]. split; [|done].
  destruct (mergeFrom_head fps (openEvent fps f) r) as (e & l & -> & _ & Hs). done.
Qed.

Lemma merge_tiles_duration_witness :
  contiguousFrom (ft_frameNumber (frameText 1 (js "A")) + 1)
    (map ft_frameNumber [frameText 2 (js "B"); frameText 3 (js "B")])
  /\ chain (fun e1 e2 => ev_end e1 = ev_start e2)
       (mergeFrameTexts
          [frameText 1 (js "A"); frameText 2 (js "B"); frameText 3 (js "B")] 1).
Proof.
  split; [cbn; lia|].
  apply (merge_tiles_duration (frameText 1 (js "A"))
           [frameText 2 (js "B"); frameText 3 (js "B")] 1%Q).
  cbn. lia.
Defined.

End MergeMore.

(** ** Colours, continued *)

Section ColoursMore.

Import SubtitleComposer.

Lemma hex_digits_format (h : jsstring) :
  isHexColor h = true ->
  isAssColor
    (if (length h =? 6)%nat
     then js "&H00" ++ slice 4 6 h ++ slice 2 4 h ++ slice 0 2 h
     else js "&H" ++ slice 6 8 h ++ slice 4 6 h ++ slice 2 4 h ++ slice 0 2 h)
  = true.
Proof.
  unfold isHexColor. intros H. apply andb_true_iff in H as [Hlen Hhex].
  do 9 (try (destruct h as [|? h])). all: try (by cbn in Hlen).
  all: cbn in Hhex; repeat (apply andb_true_iff in Hhex as [? Hhex]).
  all: cbn; by repeat (apply andb_true_iff; split).
Qed.

(** X8.  With a default of six or eight hexadecimal digits, as at module
    level, [hexToAss] returns a string of the form [&HAABBGGRR] whatever the
    input is; and an input [#RRGGBBAA] read back by [assColorParts] gives its
    alpha digits and its colour digits in the order blue, green, red, in upper
    case. *)
Theorem hexToAss_well_formed (hex : option jsstring) (defaultHex : jsstring) :
  isHexColor (stripHash defaultHex) = true ->
  isAssColor (hexToAss hex (Some defaultHex)) = true
  /\ (forall r1 r2 g1 g2 b1 b2 a1 a2,
        forallb isHexDigit [r1; r2; g1; g2; b1; b2; a1; a2] = true ->
        assColorParts
          (hexToAss (Some (0x23%N :: [r1; r2; g1; g2; b1; b2; a1; a2])) (Some defaultHex))
        = (map upperUnit [a1; a2], map upperUnit [b1; b2; g1; g2; r1; r2])).
Proof.
  intros Hd. split.
  - unfold hexToAss.
    assert (Htruthy : truthy defaultHex = true).
    { destruct defaultHex; [|done]. by vm_compute in Hd. }
    set (h0 := trim (stripHash (orElse hex (orElse (Some defaultHex) [])))).
    destruct (isHexColor h0) eqn:Hh0; cbn [negb].
    + by apply hex_digits_format.
    + apply hex_digits_format. cbn [orElse]. by rewrite Htruthy.
  - intros r1 r2 g1 g2 b1 b2 a1 a2 H. rewrite hexToAss_rgba by done.
    cbn in H. repeat (apply andb_true_iff in H as [? H]).
    cbn [js map list_ascii_of_string app N_of_ascii assColorParts]. cbn.
    by repeat match goal with Hx : isHexDigit _ = true |- _ => rewrite Hx; clear Hx end.
Qed.

Lemma hexToAss_well_formed_witness :
  isHexColor (stripHash (js "FFFFFF")) = true
  /\ isAssColor (hexToAss (Some (js "notacolor")) (Some (js "FFFFFF"))) = true.
Proof.
  split; [reflexivity|].
  apply (proj1 (hexToAss_well_formed (Some (js "notacolor")) (js "FFFFFF") eq_refl)).
Defined.

End ColoursMore.

(** ** Wrapping and emitted events *)

Section Wrapping.

Import SubtitleTranslator SubtitleComposer.

Lemma join_nil (l : list jsstring) : join [] l = concat l.
Proof.
  induction l as [|p r IH]; [done|]. destruct r as [|q r].
  - cbn. by rewrite app_nil_r.
  - change (join [] (p :: q :: r)) with (p ++ [] ++ join [] (q :: r)).
    by rewrite IH.
Qed.

Lemma stripSpaces_app (a b : jsstring) :
  stripSpaces (a ++ b) = stripSpaces a ++ stripSpaces b.
Proof. unfold stripSpaces. apply List.filter_app. Qed.

Lemma stripSpaces_idempotent (s : jsstring) : stripSpaces (stripSpaces s) = stripSpaces s.
Proof.
  induction s as [|c r IH]; [done|]. destruct (isSpace c) eqn:Hc.
  - by rewrite stripSpaces_cons_space.
  - by rewrite !stripSpaces_cons_other, IH.
Qed.

Lemma stripSpaces_join (sep : jsstring) (l : list jsstring) :
  stripSpaces sep = [] -> stripSpaces (join sep l) = stripSpaces (concat l).
Proof.
  intros Hsep. induction l as [|p r IH]; [done|]. destruct r as [|q r].
  - cbn. by rewrite app_nil_r.
  - change (join sep (p :: q :: r)) with (p ++ sep ++ join sep (q :: r)).
    change (concat (p :: q :: r)) with (p ++ concat (q :: r)).
    by rewrite !stripSpaces_app, Hsep, IH.
Qed.

Lemma concat_splitSpaces_go (cur : jsstring) (inSep : bool) (s : jsstring) :
  concat (splitSpaces_go cur inSep s) = rev cur ++ stripSpaces s.
Proof.
  revert cur inSep. induction s as [|c r IH]; intros cur inSep.
  - cbn. by rewrite app_nil_r.
  - cbn [splitSpaces_go]. destruct (isSpace c) eqn:Hc.
    + rewrite stripSpaces_cons_space by done. destruct inSep.
      * apply IH.
      * cbn [concat]. rewrite IH. done.
    + rewrite stripSpaces_cons_other by done. rewrite IH. cbn [rev].
      by rewrite <- app_assoc.
Qed.

Lemma concat_splitChars (s : jsstring) : concat (splitChars s) = s.
Proof. unfold splitChars. induction s as [|c r IH]; [done|]. cbn. by rewrite IH. Qed.

Lemma concat_firstn_skipn {A} (n : nat) (l : list (list A)) :
  concat (firstn n l) ++ concat (skipn n l) = concat l.
Proof. by rewrite <- concat_app, firstn_skipn. Qed.

(** X9.  The two-half wrap neither loses nor alters a code unit that is not a
    space: apart from spaces and the line break, the wrapped text is the
    text. *)
Theorem wrapTwoHalves_keeps_text (s : jsstring) :
  stripSpaces (wrapTwoHalves s) = stripSpaces s.
Proof.
  unfold wrapTwoHalves. destruct (isCJK s).
  - rewrite !join_nil, !stripSpaces_app.
    change (stripSpaces [10%N]) with (@nil N). cbn [app].
    rewrite <- stripSpaces_app, concat_firstn_skipn. by rewrite concat_splitChars.
  - rewrite !stripSpaces_app. change (stripSpaces [10%N]) with (@nil N). cbn [app].
    rewrite !stripSpaces_join by done.
    rewrite <- stripSpaces_app, concat_firstn_skipn. unfold splitSpaces.
    rewrite concat_splitSpaces_go. cbn [rev app]. apply stripSpaces_idempotent.
Qed.

Lemma halfUp_bounds (n : nat) : (n <= 2 * halfUp n <= n + 1)%nat.
Proof.
  unfold halfUp. rewrite Nat.div2_div.
  pose proof (Nat.div_mod_eq (S n) 2). pose proof (Nat.mod_upper_bound (S n) 2).
  lia.
Qed.

(** X10.  A text with an ideograph or a kana is cut by code units after the
    first half rounded up: the line break is inserted there and nothing else
    changes, so the first line is as long as the second or one code unit
    longer. *)
Theorem wrapTwoHalves_cjk (s : jsstring) :
  isCJK s = true ->
  let half := halfUp (length s) in
  wrapTwoHalves s = firstn half s ++ [0x0a%N] ++ skipn half s
  /\ length (firstn half s) = half
  /\ (length (skipn half s) <= half <= length (skipn half s) + 1)%nat.
Proof.
  intros Hcjk half. unfold wrapTwoHalves. rewrite Hcjk, !join_nil.
  unfold splitChars. rewrite length_map. fold half.
  rewrite firstn_map, skipn_map. fold (splitChars (firstn half s)).
  fold (splitChars (skipn half s)). rewrite !concat_splitChars.
  pose proof (halfUp_bounds (length s)) as Hb. fold half in Hb.
  split; [done|]. rewrite length_firstn, length_skipn. lia.
Qed.

Lemma wrapTwoHalves_cjk_witness :
  isCJK spacedIdeographs = true
  /\ wrapTwoHalves spacedIdeographs
     = firstn (halfUp (length spacedIdeographs)) spacedIdeographs ++ [0x0a%N]
       ++ skipn (halfUp (length spacedIdeographs)) spacedIdeographs.
Proof.
  split; [reflexivity|]. apply (proj1 (wrapTwoHalves_cjk spacedIdeographs eq_refl)).
Defined.

Lemma splitSpaces_go_word (cur s : jsstring) :
  existsb isSpace s = false -> splitSpaces_go cur false s = [rev cur ++ s].
Proof.
  revert cur. induction s as [|c r IH]; intros cur Hs.
  - cbn. by rewrite app_nil_r.
  - cbn [existsb] in Hs. apply orb_false_iff in Hs as [Hc Hr].
    cbn [splitSpaces_go]. rewrite Hc, IH by done. cbn [rev].
    by rewrite <- app_assoc.
Qed.

(** X11.  A text without any space that is not of the ideographic class, a
    single word, is not cut by the wrap: it is followed by a line break and an
    empty second line. *)
Theorem wrapTwoHalves_single_word (s : jsstring) :
  isCJK s = false -> existsb isSpace s = false ->
  wrapTwoHalves s = s ++ [0x0a%N]
  /\ splitLines (escAss (wrapTwoHalves s)) = splitLines (escAss s ++ [0x5c%N; 0x4e%N]).
Proof.
  intros Hcjk Hs. assert (Hw : wrapTwoHalves s = s ++ [0x0a%N]).
  { unfold wrapTwoHalves. rewrite Hcjk. unfold splitSpaces.
    rewrite splitSpaces_go_word by done. by cbn. }
  split; [done|]. rewrite Hw. unfold escAss. by rewrite map_app, concat_app.
Qed.

Lemma wrapTwoHalves_single_word_witness :
  isCJK (js "BONJOUR") = false /\ existsb isSpace (js "BONJOUR") = false
  /\ wrapTwoHalves (js "BONJOUR") = js "BONJOUR" ++ [0x0a%N].
Proof.
  split; [reflexivity|]. split; [reflexivity|].
  apply (proj1 (wrapTwoHalves_single_word (js "BONJOUR") eq_refl eq_refl)).
Defined.

Lemma escAss_truthy (t : jsstring) : truthy t = true -> truthy (escAss t) = true.
Proof.
  destruct t as [|c r]; [done|]. intros _. unfold escAss. cbn [map concat].
  unfold escAssUnit. by repeat destruct (_ =? _)%N.
Qed.

Lemma mergeFrameTexts_length (frames : list FrameText) (fps : Q) :
  (length (mergeFrameTexts frames fps) <= length frames)%nat.
Proof.
  destruct frames as [|f r]; [done|]. rewrite mergeFrameTexts_cons.
  apply mergeFrom_length.
Qed.

Lemma filter_length_le {A} (p : A -> bool) (l : list A) :
  (length (List.filter p l) <= length l)%nat.
Proof.
  induction l as [|a l IH]; [done|]. cbn [List.filter].
  destruct (p a); cbn [length]; lia.
Qed.

(** X12.  [overlaySubtitlesBottomCenter] never emits an event with an empty
    text and emits at most one event per frame; when no frame has a translated
    text that is not blank, it emits nothing. *)
Theorem overlay_events_nonempty env opts (vW vH : Z)
  (translatedFrames : list TranslatedFrame) :
  let events := overlaySubtitlesBottomCenter env opts vW vH translatedFrames in
  Forall (fun d => truthy (dlg_text d) = true) events
  /\ (length events <= length translatedFrames)%nat
  /\ (Forall (fun f => ft_text (perFrame f) = []) translatedFrames -> events = []).
Proof.
  intros events. unfold events, overlaySubtitlesBottomCenter.
  split; [|split].
  - apply Forall_map, Forall_forall. intros ev Hev.
    apply list_elem_of_In, filter_In in Hev as [_ Hev].
    cbn [dialogueOf dlg_text]. by apply escAss_truthy.
  - rewrite length_map. etrans; [apply filter_length_le|].
    etrans; [apply mergeFrameTexts_length|]. by rewrite length_map.
  - intros Hblank.
    set (decided := map (fun f => decide_ env opts vW (perFrame f)) translatedFrames).
    assert (Hd : Forall (fun g => ft_text g = []) decided).
    { unfold decided. apply Forall_map. eapply Forall_impl; [exact Hblank|].
      intros f Hf. cbn beta. unfold decide_. by rewrite Hf. }
    destruct decided as [|g r]; [done|]. apply Forall_cons in Hd as [Hg Hr].
    rewrite mergeFrameTexts_cons, mergeFrom_same_text.
    + cbn [List.filter ev_text openEvent]. by rewrite Hg.
    + cbn [openEvent ev_text]. by rewrite Hg.
Qed.

Lemma overlay_events_nonempty_witness :
  Forall (fun f => ft_text (perFrame f) = [])
    [translatedFrameOf 1 (js "  "); translatedFrameOf 2 []]
  /\ overlaySubtitlesBottomCenter emptyEnv noOptions 1280 720
       [translatedFrameOf 1 (js "  "); translatedFrameOf 2 []]
     = [].
Proof.
  assert (H : Forall (fun f => ft_text (perFrame f) = [])
                [translatedFrameOf 1 (js "  "); translatedFrameOf 2 []])
    by (by repeat constructor).
  split; [exact H|].
  apply (proj2 (proj2 (overlay_events_nonempty emptyEnv noOptions 1280 720
                         [translatedFrameOf 1 (js "  "); translatedFrameOf 2 []]))).
  exact H.
Defined.

End Wrapping.

(** ** Lines of a frame *)

Section Lines.

Import SubtitleTranslator.

Lemma fold_max_spec (l : list Z) (a : Z) :
  a <= fold_left Z.max l a
  /\ Forall (fun x => x <= fold_left Z.max l a) l
  /\ (fold_left Z.max l a = a \/ fold_left Z.max l a ∈ l).
Proof.
  revert a. induction l as [|x l IH]; intros a; cbn [fold_left].
  - split; [lia|]. split; [constructor|by left].
  - destruct (IH (Z.max a x)) as (H1 & H2 & H3). split; [lia|]. split.
    + constructor; [lia|done].
    + destruct H3 as [H3|H3]; [|right; by right].
      destruct (Z.max_spec a x) as [[_ Hm]|[_ Hm]].
      * right. rewrite H3, Hm. by left.
      * left. by rewrite H3.
Qed.

Lemma fold_min_spec (l : list Z) (a : Z) :
  fold_left Z.min l a <= a
  /\ Forall (fun x => fold_left Z.min l a <= x) l
  /\ (fold_left Z.min l a = a \/ fold_left Z.min l a ∈ l).
Proof.
  revert a. induction l as [|x l IH]; intros a; cbn [fold_left].
  - split; [lia|]. split; [constructor|by left].
  - destruct (IH (Z.min a x)) as (H1 & H2 & H3). split; [lia|]. split.
    + constructor; [lia|done].
    + destruct H3 as [H3|H3]; [|right; by right].
      destruct (Z.min_spec a x) as [[_ Hm]|[_ Hm]].
      * left. by rewrite H3.
      * right. rewrite H3, Hm. by left.
Qed.

Lemma maxOf_map {A} (f : A -> Z) (l : list A) :
  l <> [] ->
  Forall (fun i => f i <= maxOf (map f l)) l
  /\ exists i, i ∈ l /\ f i = maxOf (map f l).
Proof.
  destruct l as [|a l]; [done|]. intros _. cbn [map maxOf].
  destruct (fold_max_spec (map f l) (f a)) as (H1 & H2 & H3). split.
  - constructor; [done|]. apply Forall_forall. intros i Hi.
    apply (proj1 (Forall_forall _ _) H2). by apply list_elem_of_In, in_map, list_elem_of_In.
  - destruct H3 as [H3|H3].
    + exists a. split; [by left|done].
    + apply list_elem_of_In, in_map_iff in H3 as (i & Hi & Hin). exists i.
      split; [right; by apply list_elem_of_In|done].
Qed.

Lemma minOf_map {A} (f : A -> Z) (l : list A) :
  l <> [] ->
  Forall (fun i => minOf (map f l) <= f i) l
  /\ exists i, i ∈ l /\ f i = minOf (map f l).
Proof.
  destruct l as [|a l]; [done|]. intros _. cbn [map minOf].
  destruct (fold_min_spec (map f l) (f a)) as (H1 & H2 & H3). split.
  - constructor; [done|]. apply Forall_forall. intros i Hi.
    apply (proj1 (Forall_forall _ _) H2). by apply list_elem_of_In, in_map, list_elem_of_In.
  - destruct H3 as [H3|H3].
    + exists a. split; [by left|done].
    + apply list_elem_of_In, in_map_iff in H3 as (i & Hi & Hin). exists i.
      split; [right; by apply list_elem_of_In|done].
Qed.

Lemma finalize_boundingBox (c : Cluster) :
  items c <> [] -> boundingBox (items c) (finalize c).
Proof.
  intros Hne. set (sorted := Js.sort byX (items c)).
  assert (Hs : sorted <> []).
  { intros H. apply Hne. apply Permutation_nil. rewrite <- H. apply sort_Permutation. }
  destruct (minOf_map box_x sorted Hs) as (Hx1 & ix & Hix & Hx2).
  destruct (minOf_map box_y sorted Hs) as (Hy1 & iy & Hiy & Hy2).
  destruct (maxOf_map (fun i => box_x i + box_width i) sorted Hs) as (HX1 & iX & HiX & HX2).
  destruct (maxOf_map (fun i => box_y i + box_height i) sorted Hs) as (HY1 & iY & HiY & HY2).
  assert (Hin : forall b, b ∈ sorted <-> b ∈ items c) by (intros b; apply elem_of_sort).
  apply Hin in Hix, Hiy, HiX, HiY.
  unfold boundingBox, inside, finalize. fold sorted.
  cbn [line_x line_y line_width line_height].
  split; [|split; [|split; [|split]]].
  - apply Forall_forall. intros b Hb. apply Hin in Hb.
    pose proof (proj1 (Forall_forall _ _) Hx1 b Hb) as B1.
    pose proof (proj1 (Forall_forall _ _) Hy1 b Hb) as B2.
    pose proof (proj1 (Forall_forall _ _) HX1 b Hb) as B3.
    pose proof (proj1 (Forall_forall _ _) HY1 b Hb) as B4.
    cbn beta in *. lia.
  - by exists ix.
  - by exists iy.
  - exists iX. split; [done|]. cbn beta in *. lia.
  - exists iY. split; [done|]. cbn beta in *. lia.
Qed.

Lemma place_nonempty (t : OCRBox) (lines : list Cluster) :
  Forall (fun c => items c <> []) lines ->
  Forall (fun c => items c <> []) (place t lines).
Proof.
  induction 1 as [|c lines Hc Hl IH]; cbn [place].
  - by repeat constructor.
  - destruct (overlapsY _ _ _); constructor; try done. cbn [items].
    by destruct (items c).
Qed.

Lemma clusters_nonempty (boxes : list OCRBox) :
  Forall (fun c => items c <> []) (clusters boxes).
Proof.
  unfold clusters. generalize (Js.sort byYX boxes). intros l.
  assert (H : Forall (fun c => items c <> []) (@nil Cluster)) by constructor.
  revert H. generalize (@nil Cluster).
  induction l as [|t l IH]; intros lines H; cbn [fold_left]; [done|].
  apply IH. by apply place_nonempty.
Qed.

Lemma elem_of_cluster_items (cs : list Cluster) (b : OCRBox) :
  b ∈ concat (map items cs) <-> exists c, c ∈ cs /\ b ∈ items c.
Proof.
  rewrite list_elem_of_In, in_concat. split.
  - intros (l & Hl & Hb). apply in_map_iff in Hl as (c & <- & Hc).
    exists c. by rewrite !list_elem_of_In.
  - intros (c & Hc & Hb). exists (items c). apply list_elem_of_In in Hc.
    apply list_elem_of_In in Hb. split; [by apply in_map|done].
Qed.

Lemma length_clusters_le (cs : list Cluster) :
  Forall (fun c => items c <> []) cs ->
  (length cs <= length (concat (map items cs)))%nat.
Proof.
  induction 1 as [|c cs Hc Hcs IH]; [done|]. cbn [map concat length].
  rewrite length_app. destruct (items c); [done|]. cbn [length]. lia.
Qed.

(** X13.  The box of every line made by [groupTextsIntoLines] is the smallest
    box around the boxes grouped into it, which are boxes of the frame and at
    least one: it holds each of them, and each of its edges is an edge of one
    of them. *)
Theorem lines_are_bounding_boxes (frame : FrameDet) :
  Forall (fun l => exists members,
              members <> [] /\ members ⊆ det_texts frame /\ boundingBox members l)
    (texts (groupTextsIntoLines frame)).
Proof.
  unfold groupTextsIntoLines. cbn [texts]. apply Forall_map, Forall_forall.
  intros c Hc.
  assert (Hne : items c <> [])
    by (by apply (proj1 (Forall_forall _ _) (clusters_nonempty (det_texts frame)))).
  exists (items c). split; [done|]. split; [|by apply finalize_boundingBox].
  intros b Hb. rewrite <- (clusters_members (det_texts frame)).
  apply elem_of_cluster_items. by exists c.
Qed.

(** X14.  [groupTextsIntoLines] makes at most as many lines as the frame has
    boxes, none only for a frame without boxes, and every box of the frame
    lies within the box of one of the lines. *)
Theorem lines_cover_boxes (frame : FrameDet) :
  let lines := texts (groupTextsIntoLines frame) in
  (length lines <= length (det_texts frame))%nat
  /\ (lines = [] <-> det_texts frame = [])
  /\ Forall (fun b => exists l, l ∈ lines /\ inside b l) (det_texts frame).
Proof.
  unfold groupTextsIntoLines. cbn [texts].
  pose proof (clusters_nonempty (det_texts frame)) as Hne.
  pose proof (clusters_members (det_texts frame)) as Hperm.
  split; [|split].
  - rewrite length_map, <- (Permutation_length Hperm). by apply length_clusters_le.
  - split.
    + intros H. apply map_eq_nil in H. rewrite H in Hperm. cbn in Hperm.
      by apply Permutation_nil.
    + intros H. by rewrite H.
  - apply Forall_forall. intros b Hb. rewrite <- Hperm in Hb.
    apply elem_of_cluster_items in Hb as (c & Hc & Hb).
    exists (finalize c). split.
    + by apply list_elem_of_In, in_map, list_elem_of_In.
    + assert (Hc' : items c <> []) by (by apply (proj1 (Forall_forall _ _) Hne)).
      destruct (finalize_boundingBox c Hc') as [Hin _].
      by apply (proj1 (Forall_forall _ _) Hin).
Qed.

End Lines.

(** ** The per-frame guarantees of the filter *)

Section FilterMore.

Import SubtitleTranslator.

Lemma prelimFrame_kept env (f : GroupedFrame) : keptFrom env f (prelimFrame env f).
Proof.
  unfold keptFrom, prelimFrame. cbn [setTexts frameNumber framePath frameName texts].
  do 3 (split; [done|]). split; [apply firstn_le_length|].
  apply Forall_forall. intros t Ht.
  apply elem_of_firstn, elem_of_sort, elem_of_List_filter in Ht as [Ht Hok].
  split; [done|]. split; [done|]. by eapply subtitleLike_truthy.
Qed.

Lemma narrowed_kept env (f g : GroupedFrame) (p : Line -> bool) :
  keptFrom env f g -> keptFrom env f (setTexts g (List.filter p (texts g))).
Proof.
  intros (H1 & H2 & H3 & H4 & H5). unfold keptFrom.
  cbn [setTexts frameNumber framePath frameName texts].
  do 3 (split; [done|]). split.
  - etrans; [apply filter_length_le|done].
  - by apply Forall_List_filter.
Qed.

Lemma narrowed_frames_kept env (p : Line -> bool) (frames gs : list GroupedFrame) :
  Forall2 (keptFrom env) frames gs ->
  Forall2 (keptFrom env) frames
    (map (fun g => setTexts g (List.filter p (texts g))) gs).
Proof.
  induction 1 as [|f g frames gs Hfg Hr IH]; cbn [map]; constructor; [|done].
  by apply narrowed_kept.
Qed.

(** X15.  [filterSubtitleLike] gives back the frames it was given, one for
    one and under the same number, path and name; each keeps only lines of its
    own, at most the allowed number of them, every one accepted by the test on
    region, text and aspect made on the frame, and none with an empty text. *)
Theorem filter_keeps_frames (env : FilterEnv) (frames : list GroupedFrame) :
  Forall2 (keptFrom env) frames (filterSubtitleLike env frames).
Proof.
  assert (Hp : Forall2 (keptFrom env) frames (map (prelimFrame env) frames)).
  { induction frames as [|f frames IH]; cbn [map]; constructor; [|done].
    apply prelimFrame_kept. }
  unfold filterSubtitleLike. destruct (negb _); [done|].
  unfold persistencePass. by apply narrowed_frames_kept.
Qed.

Lemma filterSubtitleLike_numbers (env : FilterEnv) (frames : list GroupedFrame) :
  map frameNumber (filterSubtitleLike env frames) = map frameNumber frames.
Proof.
  unfold filterSubtitleLike, persistencePass. destruct (negb _); rewrite !map_map.
  - apply map_ext. by intros f.
  - apply map_ext. by intros f.
Qed.

End FilterMore.

(** ** The job store: progress, statistics and expiry *)

Section JobsMore.

Import JobManager.

Lemma Qle_0_100 : (0 <= 100)%Q.
Proof. by unfold Qle. Qed.

(** X16.  [updateProgress] stores the progress brought into the range from 0
    to 100: a value of the range as it is, a smaller one as 0, a larger one as
    100; the status of the job is untouched and its timestamp refreshed. *)
Theorem updateProgress_clamps (jobs : Store) (id_ : jsstring) (job : Job) (p : Q) (now : Z) :
  jobs !! id_ = Some job ->
  exists job', updateProgress id_ p now jobs !! id_ = Some job'
    /\ (0 <= progress job')%Q /\ (progress job' <= 100)%Q
    /\ ((0 <= p)%Q -> (p <= 100)%Q -> (progress job' == p)%Q)
    /\ ((p <= 0)%Q -> (progress job' == 0)%Q)
    /\ ((100 <= p)%Q -> (progress job' == 100)%Q)
    /\ status job' = status job /\ updatedAt job' = now.
Proof.
  intros Hjob. eexists. split; [by apply updateJob_known|].
  cbn [progress status updatedAt assign stamp default u_progress u_status u_updatedAt].
  split; [apply Q.min_glb; [apply Qle_0_100|apply Q.le_max_l]|].
  split; [apply Q.le_min_l|].
  split; [|split; [|split; [|done]]].
  - intros H0 H100. rewrite Q.min_r.
    + by apply Q.max_r.
    + apply Q.max_lub; [apply Qle_0_100|done].
  - intros H0. rewrite Q.min_r.
    + by apply Q.max_l.
    + apply Q.max_lub; [apply Qle_0_100|].
      eapply Qle_trans; [exact H0|apply Qle_0_100].
  - intros H100. apply Q.min_l. eapply Qle_trans; [exact H100|apply Q.le_max_r].
Qed.

Lemma updateProgress_clamps_witness :
  oneJob !! js "job_1" = Some queuedJob
  /\ exists job', updateProgress (js "job_1") 250 300 oneJob !! js "job_1" = Some job'
       /\ (progress job' <= 100)%Q.
Proof.
  assert (Hjob : oneJob !! js "job_1" = Some queuedJob) by reflexivity.
  split; [exact Hjob|].
  destruct (updateProgress_clamps oneJob (js "job_1") queuedJob 250 300 Hjob)
    as (job' & H1 & _ & H2 & _).
  by exists job'.
Defined.

Lemma status_partition (l : list Job) :
  length l
  = (length (List.filter (statusIs queued) l)
     + length (List.filter (statusIs processing) l)
     + length (List.filter (statusIs completed) l)
     + length (List.filter (statusIs failed) l))%nat.
Proof.
  induction l as [|j l IH]; [done|]. cbn [List.filter length].
  unfold statusIs in *. destruct (status j); cbv beta iota; cbn [length]; lia.
Qed.

(** X17.  The statistics of [getJobStats] count every job of the store once:
    the total is the size of the store, and it is the sum of the four counts
    by status. *)
Theorem getJobStats_partition (jobs : Store) :
  total (getJobStats jobs) = size jobs
  /\ total (getJobStats jobs)
     = (stats_queued (getJobStats jobs) + stats_processing (getJobStats jobs)
        + stats_completed (getJobStats jobs) + stats_failed (getJobStats jobs))%nat.
Proof.
  unfold getJobStats.
  cbn [total stats_queued stats_processing stats_completed stats_failed].
  split; [|apply status_partition].
  unfold getAllJobs. by rewrite length_fmap, length_map_to_list.
Qed.

(** X18.  A job that [updateJob] has touched at time [t] is still in the
    store after [cleanupOldJobs] runs within the hour that follows, with the
    fields of the update merged in. *)
Theorem updated_job_survives_cleanup (jobs : Store) (id_ : jsstring) (job : Job)
  (updates : Updates) (t now : Z) :
  jobs !! id_ = Some job -> now - t <= jobTTL ->
  cleanupOldJobs now (updateJob id_ updates t jobs) !! id_
  = Some (assign (assign job updates) (stamp t)).
Proof.
  intros Hjob Hnow. unfold cleanupOldJobs. apply map_lookup_filter_Some.
  split; [by apply updateJob_known|]. cbn. lia.
Qed.

Lemma updated_job_survives_cleanup_witness :
  oneJob !! js "job_1" = Some queuedJob /\ 3600300 - 300 <= jobTTL
  /\ cleanupOldJobs 3600300 (updateJob (js "job_1") halfWay 300 oneJob) !! js "job_1"
     = Some (assign (assign queuedJob halfWay) (stamp 300)).
Proof.
  assert (Hjob : oneJob !! js "job_1" = Some queuedJob) by reflexivity.
  assert (Hnow : 3600300 - 300 <= jobTTL) by (unfold jobTTL; lia).
  split; [exact Hjob|]. split; [exact Hnow|].
  exact (updated_job_survives_cleanup oneJob (js "job_1") queuedJob halfWay 300 3600300
           Hjob Hnow).
Defined.

(** X19.  [cleanupOldJobs] only removes: a job of the cleaned store was in
    the store, unchanged, with a last update no older than an hour; and a
    later run removes what an earlier run has removed, so that running both is
    running the later one. *)
Theorem cleanupOldJobs_composes (now now' : Z) (jobs : Store) :
  now <= now' ->
  cleanupOldJobs now' (cleanupOldJobs now jobs) = cleanupOldJobs now' jobs
  /\ cleanupOldJobs now jobs ⊆ jobs
  /\ (forall id_ job, cleanupOldJobs now jobs !! id_ = Some job ->
        now - updatedAt job <= jobTTL).
Proof.
  intros Hle. unfold cleanupOldJobs. split; [|split].
  - rewrite map_filter_filter. apply map_filter_ext. intros i x _. cbn. lia.
  - apply map_filter_subseteq.
  - intros id_ job Hjob. apply map_lookup_filter_Some in Hjob as [_ Hjob].
    cbn in Hjob. lia.
Qed.

Lemma cleanupOldJobs_composes_witness :
  100 <= 200
  /\ cleanupOldJobs 200 (cleanupOldJobs 100 oneJob) = cleanupOldJobs 200 oneJob.
Proof.
  assert (H : 100 <= 200) by lia. split; [exact H|].
  exact (proj1 (cleanupOldJobs_composes 100 200 oneJob H)).
Defined.

(** X20.  [MemoryDatabase.cleanup] returns the number of jobs it has removed:
    the jobs kept and the number returned add up to the size of the store,
    every job kept was in the store, and the number is zero only when nothing
    was removed. *)
Theorem cleanup_counts (olderThan now : Z) (jobs : Store) :
  (size (Database.cleanup olderThan now jobs).1 + (Database.cleanup olderThan now jobs).2
   = size jobs)%nat
  /\ (Database.cleanup olderThan now jobs).1 ⊆ jobs
  /\ ((Database.cleanup olderThan now jobs).2 = 0%nat ->
      (Database.cleanup olderThan now jobs).1 = jobs).
Proof.
  unfold Database.cleanup. cbn [fst snd].
  set (P := fun kv : jsstring * Job => now - updatedAt kv.2 > olderThan).
  pose proof (map_filter_union_complement P jobs) as Hu.
  pose proof (map_disjoint_filter_complement P jobs) as Hd.
  assert (Hs : size jobs
               = (size (filter P jobs) + size (filter (fun v => ~ P v) jobs))%nat).
  { rewrite <- (map_size_disj_union _ _ Hd). f_equal. symmetry. exact Hu. }
  split; [|split].
  - rewrite Hs. apply Nat.add_comm.
  - apply map_filter_subseteq.
  - intros H0. apply map_size_empty_iff in H0. rewrite H0 in Hu.
    by rewrite (left_id_L ∅ (∪)) in Hu.
Qed.

(** X21.  An update through [MemoryDatabase.updateJob] does not protect a job
    from [MemoryDatabase.cleanup]: a job whose timestamp is older than the
    limit is removed by the next cleanup even when it has just been updated,
    unless the update itself carries a timestamp. *)
Theorem memory_update_then_cleanup_evicts (jobs : Store) (id_ : jsstring) (job : Job)
  (updates : Updates) (t olderThan now : Z) :
  jobs !! id_ = Some job -> u_updatedAt updates = None ->
  now - updatedAt job > olderThan ->
  (Database.cleanup olderThan now (Database.updateJob id_ updates t jobs)).1 !! id_ = None.
Proof.
  intros Hjob Hu Hold. unfold Database.cleanup, Database.updateJob. cbn [fst].
  rewrite Hjob. apply map_lookup_filter_None. right. intros x Hx.
  rewrite lookup_insert_eq in Hx. injection Hx as <-.
  cbn [snd assign updatedAt]. rewrite Hu. cbn [default]. lia.
Qed.

Lemma memory_update_then_cleanup_evicts_witness :
  oneJob !! js "job_1" = Some queuedJob /\ u_updatedAt halfWay = None
  /\ 5000 - updatedAt queuedJob > 1000
  /\ (Database.cleanup 1000 5000 (Database.updateJob (js "job_1") halfWay 5000 oneJob)).1
       !! js "job_1" = None.
Proof.
  assert (Hjob : oneJob !! js "job_1" = Some queuedJob) by reflexivity.
  assert (Hold : 5000 - updatedAt queuedJob > 1000) by (cbn; lia).
  split; [exact Hjob|]. split; [reflexivity|]. split; [exact Hold|].
  exact (memory_update_then_cleanup_evicts oneJob (js "job_1") queuedJob halfWay
           5000 1000 5000 Hjob eq_refl Hold).
Defined.

(** X22.  [PostgresDatabase.updateJob] writes an update back through
    [saveJob], whose statement ([ON CONFLICT (id) DO UPDATE]) leaves the stored
    language and creation time of an existing row untouched: an update cannot
    change them, whatever it carries, while the status it carries is stored
    and the timestamp refreshed. *)
Theorem postgres_update_keeps_creation (rows : Store) (id_ : jsstring) (job : Job)
  (updates : Updates) (now : Z) :
  rows !! id_ = Some job -> id job = id_ -> u_id updates = None ->
  exists job', Database.updateJobSql id_ updates now rows !! id_ = Some job'
    /\ createdAt job' = createdAt job
    /\ targetLanguage job' = targetLanguage job
    /\ status job' = default (status job) (u_status updates)
    /\ updatedAt job' = now.
Proof.
  intros Hrow Hid Hu. unfold Database.updateJobSql, Database.upsert. rewrite Hrow.
  cbn [assign id stamp u_id default]. rewrite Hu. cbn [default]. rewrite Hid, Hrow.
  eexists. split; [apply lookup_insert_eq|]. done.
Qed.

Lemma postgres_update_keeps_creation_witness :
  oneJob !! js "job_1" = Some queuedJob /\ id queuedJob = js "job_1"
  /\ u_id halfWay = None
  /\ exists job', Database.updateJobSql (js "job_1") halfWay 300 oneJob !! js "job_1"
                  = Some job'
       /\ createdAt job' = createdAt queuedJob.
Proof.
  assert (Hjob : oneJob !! js "job_1" = Some queuedJob) by reflexivity.
  split; [exact Hjob|]. split; [reflexivity|]. split; [reflexivity|].
  destruct (postgres_update_keeps_creation oneJob (js "job_1") queuedJob halfWay 300
              Hjob eq_refl eq_refl) as (job' & H1 & H2 & _).
  by exists job'.
Defined.

(** [SQLiteDatabase.updateJob] stores the merged and stamped job as it is:
    unlike the Postgres provider, it lets an update change the creation time
    and the language. *)
Lemma sqlite_update_replaces (rows : Store) (id_ : jsstring) (job : Job)
  (updates : Updates) (now : Z) :
  rows !! id_ = Some job -> id job = id_ -> u_id updates = None ->
  Database.updateJobSqlite id_ updates now rows !! id_
  = Some (assign (assign job updates) (stamp now)).
Proof.
  intros Hrow Hid Hu. unfold Database.updateJobSqlite, Database.replaceRow. rewrite Hrow.
  cbn [assign id stamp u_id default]. rewrite Hu. cbn [default]. rewrite Hid.
  apply lookup_insert_eq.
Qed.

End JobsMore.

(** ** The job driver *)

Section DriverMore.

Import JobManager Driver.



(** X24.  For an id that is not in the store, the driver changes nothing,
    whatever the outcome of the translation. *)
Theorem runJob_unknown_job (jobId : jsstring) (outcome : Outcome) (pt : jsstring)
  (t1 t2 t3 : Z) (jobs : Store) :
  jobs !! jobId = None -> runJob jobId outcome pt t1 t2 t3 jobs = jobs.
Proof.
  intros Hnone. unfold runJob, processVideoJob.
  destruct outcome as [out workDir st|message];
    unfold setJobCompleted, setJobFailed, setJobProcessing;
    by rewrite !(updateJob_unknown jobs).
Qed.

Lemma runJob_unknown_job_witness :
  oneJob !! js "job_2" = None
  /\ runJob (js "job_2") (Thrown (js "boom")) (js "1.0s") 200 300 400 oneJob = oneJob.
Proof.
  assert (Hnone : oneJob !! js "job_2" = None) by reflexivity.
  split; [exact Hnone|].
  exact (runJob_unknown_job (js "job_2") (Thrown (js "boom")) (js "1.0s") 200 300 400
           oneJob Hnone).
Defined.

End DriverMore.

(** ** Frames: extraction, skipped frames and the whole pipeline *)

Section Frames.

Import SubtitleTranslator SubtitleComposer.

Lemma imap_numbers (g : nat -> jsstring -> FrameExtractor.FrameInfo) (k : nat)
  (l : list jsstring) :
  (forall i f, FrameExtractor.frameNumber (g i f) = Z.of_nat (k + i) + 1) ->
  contiguousFrom (Z.of_nat k + 1) (map FrameExtractor.frameNumber (imap g l)).
Proof.
  revert g k. induction l as [|x l IH]; intros g k Hg; [done|].
  rewrite imap_cons. cbn [map contiguousFrom]. split.
  - rewrite Hg. lia.
  - replace (Z.of_nat k + 1 + 1) with (Z.of_nat (S k) + 1) by lia.
    apply IH. intros i f. unfold compose. rewrite Hg. lia.
Qed.

Lemma imap_names (g : nat -> jsstring -> FrameExtractor.FrameInfo) (l : list jsstring) :
  (forall i f, FrameExtractor.name (g i f) = f) ->
  map FrameExtractor.name (imap g l) = l.
Proof.
  revert g. induction l as [|x l IH]; intros g Hg; [done|].
  rewrite imap_cons. cbn [map]. rewrite Hg, IH; [done|]. intros i f. apply Hg.
Qed.

Lemma Forall_imap {A B} (P : B -> Prop) (g : nat -> A -> B) (l : list A) :
  (forall i a, P (g i a)) -> Forall P (imap g l).
Proof.
  revert g. induction l as [|x l IH]; intros g Hg; [constructor|].
  rewrite imap_cons. constructor; [apply Hg|]. apply IH. intros i a. apply Hg.
Qed.

Lemma extractFrames_contiguous (pathJoin : jsstring -> jsstring -> jsstring)
  (outputDir : jsstring) (files : list jsstring) :
  contiguousFrom 1
    (map FrameExtractor.frameNumber (FrameExtractor.extractFrames pathJoin outputDir files)).
Proof.
  unfold FrameExtractor.extractFrames.
  change 1 with (Z.of_nat 0 + 1). apply imap_numbers. by intros i f.
Qed.

(** X25.  The frames listed by [extractFrames] are numbered 1, 2, 3, ... in
    the order of the list; their names are the files of the directory named
    [frame_....png], each one once, and the path of a frame is its name joined
    to the directory. *)
Theorem extractFrames_numbering (pathJoin : jsstring -> jsstring -> jsstring)
  (outputDir : jsstring) (files : list jsstring) :
  let frames := FrameExtractor.extractFrames pathJoin outputDir files in
  contiguousFrom 1 (map FrameExtractor.frameNumber frames)
  /\ map FrameExtractor.name frames ≡ₚ List.filter isFrameFile files
  /\ Forall (fun f => FrameExtractor.path f = pathJoin outputDir (FrameExtractor.name f))
       frames.
Proof.
  unfold FrameExtractor.extractFrames. split; [|split].
  - change 1 with (Z.of_nat 0 + 1). apply imap_numbers. by intros i f.
  - rewrite imap_names by done. apply sort_Permutation.
  - apply Forall_imap. by intros i f.
Qed.

Lemma keepFrame_iff (skipIntro skipOutro : Q) (durationSec n : Z) :
  keepFrame skipIntro skipOutro durationSec n = true
  <-> (skipIntro <= inject_Z (n - 1))%Q
      /\ ((skipOutro <= 0)%Q
          \/ (inject_Z (n - 1) < Qmax 0 (inject_Z durationSec - skipOutro))%Q).
Proof.
  unfold keepFrame. cbv zeta.
  destruct (Qle_bool skipIntro (inject_Z (n - 1))) eqn:H1; cbn [negb].
  - apply Qle_bool_iff in H1. destruct (Qle_bool skipOutro 0) eqn:H2; cbn [negb andb].
    + apply Qle_bool_iff in H2. split; [|done]. intros _. split; [done|by left].
    + destruct (Qle_bool (Qmax 0 (inject_Z durationSec - skipOutro)) (inject_Z (n - 1)))
        eqn:H3.
      * split; [done|]. intros [_ [H|H]].
        -- apply Qle_bool_iff in H. congruence.
        -- apply Qle_bool_iff in H3. by apply Qlt_not_le in H.
      * split; [|done]. intros _. split; [done|]. right. apply Qnot_le_lt.
        intros H. apply Qle_bool_iff in H. congruence.
  - split; [done|]. intros [H _]. apply Qle_bool_iff in H. congruence.
Qed.

(** X26.  The frames that [translateVideoAss] keeps after skipping the intro
    and the outro form one stretch: a frame between two kept frames is kept. *)
Theorem keepFrame_interval (skipIntro skipOutro : Q) (durationSec a b c : Z) :
  a <= b -> b <= c ->
  keepFrame skipIntro skipOutro durationSec a = true ->
  keepFrame skipIntro skipOutro durationSec c = true ->
  keepFrame skipIntro skipOutro durationSec b = true.
Proof.
  intros Hab Hbc Ha Hc. apply keepFrame_iff in Ha as [Ha _].
  apply keepFrame_iff in Hc as [_ Hc]. apply keepFrame_iff.
  assert (H1 : (inject_Z (a - 1) <= inject_Z (b - 1))%Q) by (rewrite <- Zle_Qle; lia).
  assert (H2 : (inject_Z (b - 1) <= inject_Z (c - 1))%Q) by (rewrite <- Zle_Qle; lia).
  split; [by eapply Qle_trans|]. destruct Hc as [Hc|Hc]; [by left|right].
  by eapply Qle_lt_trans.
Qed.

Lemma keepFrame_interval_witness :
  2 <= 3 /\ 3 <= 5 /\ keepFrame 1 2 10 2 = true /\ keepFrame 1 2 10 5 = true
  /\ keepFrame 1 2 10 3 = true.
Proof.
  assert (H1 : 2 <= 3) by lia. assert (H2 : 3 <= 5) by lia.
  split; [exact H1|]. split; [exact H2|]. split; [reflexivity|]. split; [reflexivity|].
  exact (keepFrame_interval 1 2 10 2 3 5 H1 H2 eq_refl eq_refl).
Defined.

Lemma contiguous_sorted (n : Z) (ns : list Z) :
  contiguousFrom n ns -> StronglySorted Z.lt ns /\ Forall (fun m => n <= m) ns.
Proof.
  revert n. induction ns as [|m r IH]; intros n H; [split; constructor|].
  destruct H as [-> Hr]. destruct (IH _ Hr) as [Hs Hb]. split.
  - constructor; [done|]. eapply Forall_impl; [exact Hb|]. cbn. intros; lia.
  - constructor; [lia|]. eapply Forall_impl; [exact Hb|]. cbn. intros; lia.
Qed.

Lemma sorted_increasingFrom (k : Z) (ns : list Z) :
  StronglySorted Z.lt ns -> Forall (fun m => k < m) ns -> increasingFrom k ns.
Proof.
  revert k. induction ns as [|m r IH]; intros k Hs Hk; [done|].
  apply StronglySorted_inv in Hs as [Hs Hm]. inversion Hk; subst.
  split; [done|]. by apply IH.
Qed.

Lemma sorted_strictlyIncreasing (ns : list Z) :
  StronglySorted Z.lt ns -> strictlyIncreasing ns.
Proof.
  destruct ns as [|n r]; [done|]. intros Hs.
  apply StronglySorted_inv in Hs as [Hs Hn]. by apply sorted_increasingFrom.
Qed.

Lemma StronglySorted_map_inv {A B} (S : B -> B -> Prop) (f : A -> B) (l : list A) :
  StronglySorted S (map f l) -> StronglySorted (fun a b => S (f a) (f b)) l.
Proof.
  induction l as [|a l IH]; cbn [map]; intros H; [constructor|].
  apply StronglySorted_inv in H as [H Ha]. constructor; [by apply IH|].
  exact (proj1 (Forall_map _ _ _) Ha).
Qed.

Lemma overlay_sorted env opts (vW vH : Z) (tfs : list TranslatedFrame) :
  strictlyIncreasing (map tf_frameNumber tfs) ->
  StronglySorted dialogueBefore (overlaySubtitlesBottomCenter env opts vW vH tfs).
Proof.
  intros Hinc. unfold overlaySubtitlesBottomCenter.
  set (decided := map (fun f => decide_ env opts vW (perFrame f)) tfs).
  assert (Hnum : map ft_frameNumber decided = map tf_frameNumber tfs).
  { unfold decided. rewrite map_map. apply map_ext. intros f.
    unfold decide_, perFrame. cbn [ft_text ft_frameNumber].
    by destruct (negb _). }
  destruct (mergeFrameTexts_ordered decided 1) as [Hs _];
    [reflexivity|by rewrite Hnum|].
  apply StronglySorted_map with (R := before); [by intros a b [? ?]|].
  by apply StronglySorted_List_filter.
Qed.

Lemma overlay_length env opts (vW vH : Z) (tfs : list TranslatedFrame) :
  (length (overlaySubtitlesBottomCenter env opts vW vH tfs) <= length tfs)%nat.
Proof.
  unfold overlaySubtitlesBottomCenter. rewrite length_map.
  etrans; [apply filter_length_le|].
  etrans; [apply mergeFrameTexts_length|]. by rewrite length_map.
Qed.

Lemma pipeline_numbers (flag : option jsstring) (translationMap : gmap jsstring jsstring)
  (fenv : FilterEnv) (detections : list FrameDet) (typed : list TranslatedFrame) :
  asTranslatedFrames
    (applyTranslations flag translationMap
       (filterSubtitleLike fenv (map groupTextsIntoLines detections)))
  = Some typed ->
  map tf_frameNumber typed = map det_frameNumber detections.
Proof.
  intros Htyped. apply typed_frames in Htyped.
  transitivity (map frameNumber (filterSubtitleLike fenv (map groupTextsIntoLines detections))).
  { induction Htyped as [|frame translated frames typed [Hn _] _ IH]; [done|].
    cbn [map]. by rewrite Hn, IH. }
  rewrite filterSubtitleLike_numbers, map_map. apply map_ext. by intros f.
Qed.

(** X27.  Whatever the directory listing, the detections, the translations
    and the settings, the events that the pipeline writes (none when the run
    throws on a value that is not a string) are in time order and do not
    overlap, and there are at most as many as files listed.  The run does not
    throw when the translation map has an entry of its own for every name
    inherited from [Object.prototype]. *)
Theorem pipeline_events_ordered (pathJoin : jsstring -> jsstring -> jsstring)
  (outputDir : jsstring) (files : list jsstring) (skipIntro skipOutro : Q)
  (durationSec : Z) (ocr : jsstring -> list OCRBox)
  (fenv : FilterEnv) (cenv : ComposerEnv) (flag : option jsstring)
  (opts : SubtitleOptions) (vW vH : Z) (translationMap : gmap jsstring jsstring) :
  let run :=
    Pipeline.translateVideoAssFromFiles pathJoin outputDir files skipIntro skipOutro
      durationSec ocr fenv cenv flag opts vW vH translationMap in
  let events := default [] run in
  StronglySorted dialogueBefore events /\ (length events <= length files)%nat
  /\ ((forall name, name ∈ objectPrototypeNames -> is_Some (translationMap !! name)) ->
      is_Some run).
Proof.
  unfold Pipeline.translateVideoAssFromFiles, Pipeline.translateVideoAss. cbv zeta.
  destruct (asTranslatedFrames _) as [typed|] eqn:Htyped; cbn [default].
  - pose proof (pipeline_numbers _ _ _ _ _ Htyped) as Hnum.
    split; [|split; [|by intros _]].
    + apply overlay_sorted. rewrite Hnum.
      unfold OcrService.detectTextInFrames. rewrite map_map. cbn [det_frameNumber].
      apply sorted_strictlyIncreasing.
      apply StronglySorted_map
        with (R := fun f g => FrameExtractor.frameNumber f < FrameExtractor.frameNumber g);
        [done|].
      apply StronglySorted_List_filter, StronglySorted_map_inv.
      by apply (contiguous_sorted 1), extractFrames_contiguous.
    + etrans; [apply overlay_length|].
      rewrite <- (length_map tf_frameNumber), Hnum, length_map.
      unfold OcrService.detectTextInFrames. rewrite length_map.
      etrans; [apply filter_length_le|].
      unfold FrameExtractor.extractFrames. rewrite length_imap.
      rewrite (Permutation_length (sort_Permutation _ _)). apply filter_length_le.
  - split; [constructor|]. split; [cbn; lia|]. intros Hown.
    assert (Hsome : is_Some (@None (list TranslatedFrame))); [|by destruct Hsome].
    rewrite <- Htyped. apply typed_frames_is_Some, Forall_forall. intros frame _.
    apply Forall_forall. intros l _ Hin.
    apply translationOrOriginal_inherited in Hin as [Hnone Hname].
    destruct (Hown _ Hname) as [t Ht]. congruence.
Qed.

End Frames.

(** ** The start frame of the preview *)

Section Preview.

Import SubtitleTranslator.

Lemma nearestFrom_spec (at_ : Z) (l pre : list Z) (bestIdx : nat) (bestDist : option Z) :
  match bestDist with
  | None => pre = []
  | Some d =>
      exists nb, pre !! bestIdx = Some nb /\ d = frameDistance at_ nb
        /\ forall j n, pre !! j = Some n ->
             d <= frameDistance at_ n /\ ((j < bestIdx)%nat -> d < frameDistance at_ n)
  end ->
  pre ++ l <> [] ->
  exists nr,
    (pre ++ l) !! nearestFrom at_ (length pre) bestIdx bestDist l = Some nr
    /\ forall j n, (pre ++ l) !! j = Some n ->
         frameDistance at_ nr <= frameDistance at_ n
         /\ ((j < nearestFrom at_ (length pre) bestIdx bestDist l)%nat ->
             frameDistance at_ nr < frameDistance at_ n).
Proof.
  revert pre bestIdx bestDist.
  induction l as [|n l IH]; intros pre bestIdx bestDist Hinv Hne.
  - rewrite app_nil_r in *. cbn [nearestFrom]. destruct bestDist as [d|]; [|done].
    destruct Hinv as (nb & Hnb & -> & Hall). by exists nb.
  - cbn [nearestFrom]. cbv zeta.
    assert (Happ : pre ++ n :: l = (pre ++ [n]) ++ l) by (by rewrite <- app_assoc).
    assert (Hlen : S (length pre) = length (pre ++ [n]))
      by (rewrite length_app; cbn [length]; lia).
    assert (Hne' : (pre ++ [n]) ++ l <> []) by (by destruct pre).
    assert (Hnew : exists nb, (pre ++ [n]) !! length pre = Some nb
                     /\ frameDistance at_ n = frameDistance at_ nb)
      by (exists n; split; [by apply list_lookup_middle|done]).
    rewrite Happ, Hlen. destruct bestDist as [d|].
    + destruct Hinv as (nb & Hnb & -> & Hall).
      destruct (Z.ltb_spec (frameDistance at_ n) (frameDistance at_ nb)) as [Hlt|Hge].
      * apply IH; [|done]. destruct Hnew as (nn & Hnn & Hdn). exists nn.
        split; [done|]. split; [done|]. intros j m Hj.
        apply lookup_app_Some in Hj as [Hj|[Hj1 Hj2]].
        -- destruct (Hall j m Hj) as [H1 _]. lia.
        -- destruct (j - length pre)%nat eqn:Hk; [|done].
           cbn in Hj2. injection Hj2 as <-. lia.
      * apply IH; [|done]. exists nb. split; [by apply lookup_app_l_Some|].
        split; [done|]. intros j m Hj.
        apply lookup_app_Some in Hj as [Hj|[Hj1 Hj2]]; [by apply Hall|].
        destruct (j - length pre)%nat eqn:Hk; [|done].
        cbn in Hj2. injection Hj2 as <-. apply lookup_lt_Some in Hnb. lia.
    + subst pre. apply IH; [|done]. destruct Hnew as (nn & Hnn & Hdn). exists nn.
      split; [done|]. split; [done|]. intros j m Hj.
      destruct j as [|j]; [|done]. cbn in Hj. injection Hj as <-. cbn [length]. lia.
Qed.

Lemma contiguous_lookup (k : Z) (ns : list Z) (j : nat) (n : Z) :
  contiguousFrom k ns -> ns !! j = Some n -> n = k + Z.of_nat j.
Proof.
  revert k j. induction ns as [|m r IH]; intros k j Hc Hj; [done|].
  destruct Hc as [-> Hr]. destruct j as [|j].
  - cbn in Hj. injection Hj as <-. lia.
  - cbn in Hj. rewrite (IH _ _ Hr Hj). lia.
Qed.

(** An integer below [2 ^ 53] in magnitude is not rounded. *)
Lemma roundToDouble_small (z : Z) : Z.abs z < 2 ^ 53 -> Js.roundToDouble z = z.
Proof.
  intros Hz. unfold Js.roundToDouble. cbv zeta.
  by destruct (Z.ltb_spec (Z.abs z) (2 ^ 53)); [|lia].
Qed.

(** For a second and a frame number below [2 ^ 53], the distance that the
    code computes is the exact one. *)
Lemma frameDistance_exact (at_ n : Z) :
  0 <= at_ < 2 ^ 53 -> 0 < n <= 2 ^ 53 -> frameDistance at_ n = distance at_ n.
Proof.
  intros Hat Hn. unfold frameDistance, distance.
  rewrite (roundToDouble_small (n - 1)) by lia.
  by rewrite roundToDouble_small by lia.
Qed.

Lemma Qfloor_bounds (q : Q) (b : Z) :
  (0 <= q)%Q -> (q < inject_Z b)%Q -> 0 <= Qfloor q < b.
Proof.
  intros H0 Hb. split.
  - change 0 with (Qfloor 0). by apply Qfloor_resp_le.
  - rewrite Zlt_Qlt. eapply Qle_lt_trans; [apply Qfloor_le|exact Hb].
Qed.

(** From [2 ^ 53] on the rounded distances of neighbouring frames coincide
    and the first frame is kept: at second [10 ^ 300] the preview of three
    frames starts from the first one, not from the last. *)
Lemma startIndex_beyond_precision :
  startIndex (Some (inject_Z (10 ^ 300))) [1; 2; 3] = 0%nat
  /\ frameDistance (10 ^ 300) 1 = frameDistance (10 ^ 300) 3
  /\ distance (10 ^ 300) 3 < distance (10 ^ 300) 1.
Proof. split; [by vm_compute|]. split; by vm_compute. Qed.

(** X28.  For a preview time that is a number from 0 to below [2 ^ 53], and
    frame numbers that are positive and at most [2 ^ 53], [previewVideoAss]
    starts from a frame that is nearest to the whole second of that time, the
    distance of a frame being that of its number minus one, and from the first
    of the nearest frames.  (From [2 ^ 53] on, the distances that the code
    computes are rounded and no longer tell the frames apart.) *)
Theorem startIndex_nearest (q : Q) (frameNumbers : list Z) :
  (0 <= q)%Q -> (q < inject_Z (2 ^ 53))%Q ->
  Forall (fun n => 0 < n <= 2 ^ 53) frameNumbers ->
  frameNumbers <> [] ->
  exists nr,
    frameNumbers !! startIndex (Some q) frameNumbers = Some nr
    /\ forall j n, frameNumbers !! j = Some n ->
         distance (Qfloor q) nr <= distance (Qfloor q) n
         /\ ((j < startIndex (Some q) frameNumbers)%nat ->
             distance (Qfloor q) nr < distance (Qfloor q) n).
Proof.
  intros Hq Hbound Hnums Hne. unfold startIndex.
  pose proof Hq as Hb. apply Qle_bool_iff in Hb. rewrite Hb.
  pose proof (Qfloor_bounds q (2 ^ 53) Hq Hbound) as Hat.
  destruct (nearestFrom_spec (Qfloor q) frameNumbers [] 0 None eq_refl Hne)
    as (nr & Hr & Hmin).
  cbn [app length] in Hr, Hmin.
  assert (Hexact : forall j n, frameNumbers !! j = Some n ->
                     frameDistance (Qfloor q) n = distance (Qfloor q) n).
  { intros j n Hj. apply frameDistance_exact; [done|].
    by apply (proj1 (Forall_forall _ _) Hnums), (list_elem_of_lookup_2 _ j). }
  exists nr. split; [exact Hr|]. intros j n Hj.
  rewrite <- (Hexact _ _ Hr), <- (Hexact _ _ Hj). by apply Hmin.
Qed.

Lemma startIndex_nearest_witness :
  (0 <= 7 # 2)%Q /\ (7 # 2 < inject_Z (2 ^ 53))%Q
  /\ Forall (fun n => 0 < n <= 2 ^ 53) [1; 2; 5; 6] /\ [1; 2; 5; 6] <> []
  /\ exists nr, [1; 2; 5; 6] !! startIndex (Some (7 # 2)%Q) [1; 2; 5; 6] = Some nr
       /\ distance (Qfloor (7 # 2)) nr <= distance (Qfloor (7 # 2)) 2.
Proof.
  assert (Hq : (0 <= 7 # 2)%Q) by (by unfold Qle).
  assert (Hb : (7 # 2 < inject_Z (2 ^ 53))%Q) by reflexivity.
  assert (Hn : Forall (fun n => 0 < n <= 2 ^ 53) [1; 2; 5; 6])
    by (repeat constructor; by vm_compute).
  assert (Hne : [1; 2; 5; 6] <> []) by done.
  split; [exact Hq|]. split; [exact Hb|]. split; [exact Hn|]. split; [exact Hne|].
  destruct (startIndex_nearest (7 # 2) [1; 2; 5; 6] Hq Hb Hn Hne) as (nr & H1 & H2).
  exists nr. split; [exact H1|]. exact (proj1 (H2 1%nat 2 eq_refl)).
Defined.

(** X29.  On frames numbered 1, 2, 3, ..., as [extractFrames] numbers them,
    and for a preview time from 0 to below [2 ^ 53], the start frame of the
    preview at second [q] is the frame of index [floor q], and the last frame
    when the time is beyond the last frame. *)
Theorem startIndex_on_numbered (q : Q) (frameNumbers : list Z) :
  contiguousFrom 1 frameNumbers -> (0 <= q)%Q -> (q < inject_Z (2 ^ 53))%Q ->
  Z.of_nat (length frameNumbers) <= 2 ^ 53 ->
  frameNumbers <> [] ->
  startIndex (Some q) frameNumbers
  = Z.to_nat (Z.min (Qfloor q) (Z.of_nat (length frameNumbers) - 1)).
Proof.
  intros Hc Hq Hbound Hlen Hne.
  assert (Hs : startIndex (Some q) frameNumbers
               = nearestFrom (Qfloor q) 0 0 None frameNumbers).
  { unfold startIndex. pose proof Hq as Hb. apply Qle_bool_iff in Hb. by rewrite Hb. }
  pose proof (Qfloor_bounds q (2 ^ 53) Hq Hbound) as Hat.
  destruct (nearestFrom_spec (Qfloor q) frameNumbers [] 0 None eq_refl Hne)
    as (nr & Hr & Hmin).
  cbn [app length] in Hr, Hmin. rewrite <- Hs in Hr, Hmin.
  set (r := startIndex (Some q) frameNumbers) in *.
  assert (Hexact : forall j n, frameNumbers !! j = Some n ->
                     frameDistance (Qfloor q) n = distance (Qfloor q) n).
  { intros j n Hj. apply frameDistance_exact; [done|].
    pose proof (contiguous_lookup _ _ _ _ Hc Hj). apply lookup_lt_Some in Hj. lia. }
  pose proof (lookup_lt_Some _ _ _ Hr) as Hlt.
  pose proof (contiguous_lookup _ _ _ _ Hc Hr) as Hnr.
  set (j0 := Z.to_nat (Z.min (Qfloor q) (Z.of_nat (length frameNumbers) - 1))).
  assert (Hj0 : (j0 < length frameNumbers)%nat) by (unfold j0; lia).
  destruct (lookup_lt_is_Some_2 _ _ Hj0) as [n0 Hn0].
  pose proof (contiguous_lookup _ _ _ _ Hc Hn0) as Hn0'.
  destruct (Hmin j0 n0 Hn0) as [Hle _].
  rewrite (Hexact _ _ Hr), (Hexact _ _ Hn0) in Hle.
  unfold distance in Hle. subst nr n0. unfold j0 in *. lia.
Qed.

Lemma startIndex_on_numbered_witness :
  contiguousFrom 1 [1; 2; 3] /\ (0 <= 9 # 2)%Q /\ (9 # 2 < inject_Z (2 ^ 53))%Q
  /\ Z.of_nat (length [1; 2; 3]) <= 2 ^ 53 /\ [1; 2; 3] <> []
  /\ startIndex (Some (9 # 2)%Q) [1; 2; 3] = 2%nat.
Proof.
  assert (Hc : contiguousFrom 1 [1; 2; 3]) by (cbn; lia).
  assert (Hq : (0 <= 9 # 2)%Q) by (by unfold Qle).
  assert (Hb : (9 # 2 < inject_Z (2 ^ 53))%Q) by reflexivity.
  assert (Hl : Z.of_nat (length [1; 2; 3]) <= 2 ^ 53) by (by vm_compute).
  assert (Hne : [1; 2; 3] <> []) by done.
  split; [exact Hc|]. split; [exact Hq|]. split; [exact Hb|]. split; [exact Hl|].
  split; [exact Hne|].
  exact (startIndex_on_numbered (9 # 2) [1; 2; 3] Hc Hq Hb Hl Hne).
Defined.

End Preview.

(** ** The boxes of the detection *)

Section Detection.

Import SubtitleTranslator OcrService.

(** X30.  The box that [detectTextInFrame] builds from the vertices of an
    annotation has a width and a height that are not negative and holds every
    vertex, a missing coordinate counting as 0; its font size is the one that
    the grouping would compute from its height. *)
Theorem boxOfAnnotation_bounds (description : jsstring) (vertices : list Vertex) :
  vertices <> [] ->
  let b := boxOfAnnotation description vertices in
  0 <= box_width b /\ 0 <= box_height b
  /\ Forall (fun v => box_x b <= coord (vx v) <= box_x b + box_width b
                      /\ box_y b <= coord (vy v) <= box_y b + box_height b)
       vertices
  /\ boxFontSize b = Js.round (inject_Z (box_height b) * (8 # 10)).
Proof.
  intros Hne.
  destruct (minOf_map (fun v => coord (vx v)) vertices Hne) as (Hx1 & ix & Hix & Hx2).
  destruct (minOf_map (fun v => coord (vy v)) vertices Hne) as (Hy1 & iy & Hiy & Hy2).
  destruct (maxOf_map (fun v => coord (vx v)) vertices Hne) as (HX1 & _).
  destruct (maxOf_map (fun v => coord (vy v)) vertices Hne) as (HY1 & _).
  pose proof (proj1 (Forall_forall _ _) HX1 ix Hix) as Bx.
  pose proof (proj1 (Forall_forall _ _) HY1 iy Hiy) as By.
  unfold boxOfAnnotation. cbv zeta.
  cbn [box_x box_y box_width box_height]. cbn beta in *.
  split; [lia|]. split; [lia|]. split.
  - apply Forall_forall. intros v Hv.
    pose proof (proj1 (Forall_forall _ _) Hx1 v Hv) as B1.
    pose proof (proj1 (Forall_forall _ _) Hy1 v Hv) as B2.
    pose proof (proj1 (Forall_forall _ _) HX1 v Hv) as B3.
    pose proof (proj1 (Forall_forall _ _) HY1 v Hv) as B4.
    cbn beta in *. lia.
  - unfold boxFontSize. cbn [box_fontSize box_height]. by destruct (_ =? 0).
Qed.

Lemma boxOfAnnotation_bounds_witness :
  [ {| vx := Some 10; vy := Some 500 |}; {| vx := Some 110; vy := None |} ] <> []
  /\ 0 <= box_width
            (boxOfAnnotation (js "HELLO")
               [ {| vx := Some 10; vy := Some 500 |}; {| vx := Some 110; vy := None |} ]).
Proof.
  assert (Hne : [ {| vx := Some 10; vy := Some 500 |}; {| vx := Some 110; vy := None |} ]
                <> []) by done.
  split; [exact Hne|].
  exact (proj1 (boxOfAnnotation_bounds (js "HELLO")
                  [ {| vx := Some 10; vy := Some 500 |}; {| vx := Some 110; vy := None |} ]
                  Hne)).
Defined.

End Detection.
